(** * Ubuntu Dictation: the tabular log writer and the settings store

    A shallow embedding of [src/services/enhanced_logging_service.py]
    (class [EnhancedLogger]) and of [src/config.py] (the settings
    functions), with the properties of the specification stated over it.

    Python strings are lists of characters; a character is a code point
    below 256, classified as Python classifies it.  File-system calls and
    the other operations that can raise return a [result]. *)

From Stdlib Require Import Ascii String ZArith Lia.
From stdpp Require Import base option list sorting gmap strings.

Open Scope list_scope.
Open Scope nat_scope.

(** ** Python strings *)

Module PyStr.

Abbreviation str := (list ascii).

Definition lit (s : string) : str := list_ascii_of_string s.

Definition code (c : ascii) : nat := nat_of_ascii c.

Definition between (lo hi : nat) (c : ascii) : bool :=
  (lo <=? code c) && (code c <=? hi).

Definition space : ascii := ascii_of_nat 32.
Definition tab : ascii := ascii_of_nat 9.
Definition newline : ascii := ascii_of_nat 10.
Definition creturn : ascii := ascii_of_nat 13.
Definition hyphen : ascii := ascii_of_nat 45.

Definition is_char (x c : ascii) : bool := bool_decide (c = x).

(** [str.isspace] on one character; [s.strip() == ''] holds exactly when
    every character of [s] satisfies it. *)
Definition isspace (c : ascii) : bool :=
  between 9 13 c || between 28 32 c || between 133 133 c || between 160 160 c.

Definition strip_is_empty (s : str) : bool := forallb isspace s.

(** [" " * n] for a Python integer [n]: empty when [n <= 0]. *)
Definition spaces (n : Z) : str := replicate (Z.to_nat n) space.

Definition dashes (n : Z) : str := replicate (Z.to_nat n) hyphen.

Definition len (s : str) : Z := Z.of_nat (length s).

(** [s[:n]] for [n >= 0]. *)
Definition slice_to (n : nat) (s : str) : str := take n s.

(** [str.lower] on one character (code points below 256). *)
Definition lower_char (c : ascii) : ascii :=
  if between 65 90 c || between 192 214 c || between 216 222 c
  then ascii_of_nat (code c + 32) else c.

Definition lower (s : str) : str := map lower_char s.

(** [str.expandtabs(tabsize)]: the column restarts after a line feed or a
    carriage return. *)
Fixpoint expandtabs_from (tabsize col : nat) (s : str) : str :=
  match s with
  | [] => []
  | c :: r =>
      if is_char tab c then
        if 0 <? tabsize then
          let incr := tabsize - col mod tabsize in
          replicate incr space ++ expandtabs_from tabsize (col + incr) r
        else expandtabs_from tabsize col r
      else
        c :: expandtabs_from tabsize
               (if is_char newline c || is_char creturn c then 0 else S col) r
  end.

Definition expandtabs (tabsize : nat) (s : str) : str :=
  expandtabs_from tabsize 0 s.

(** [''.join(parts)]. *)
Definition join (parts : list str) : str := concat parts.

End PyStr.

Import PyStr.

(** ** Exceptions and results *)

Inductive exn := ValueError | OSError | TypeError | AttributeError | KeyError.

#[global] Instance exn_eq_dec : EqDecision exn.
Proof. solve_decision. Defined.

(** The outcome of a call: a value, a raised exception, or a loop of the
    model that ran out of fuel. *)
Inductive result (A : Type) :=
  | Ok (a : A)
  | Raise (e : exn)
  | OutOfFuel.

Arguments Ok {A} a.
Arguments Raise {A} e.
Arguments OutOfFuel {A}.

#[global] Instance result_ret : MRet result := fun A a => Ok a.

#[global] Instance result_bind : MBind result := fun A B f r =>
  match r with
  | Ok a => f a
  | Raise e => Raise e
  | OutOfFuel => OutOfFuel
  end.

(** [try: body except E: handler] *)
Definition try_except {A} (body : result A) (E : exn) (handler : result A)
  : result A :=
  match body with
  | Raise e => if bool_decide (e = E) then handler else Raise e
  | r => r
  end.

(** ** [textwrap.wrap] with the default options

    [log_entry] calls [textwrap.wrap(log_message, width=...)].  The
    definitions follow [TextWrapper] of the standard library with the
    options it takes by default: [expand_tabs], [replace_whitespace],
    [drop_whitespace], [break_long_words] and [break_on_hyphens] set, empty
    indents, [tabsize = 8], no [max_lines]. *)

Module Textwrap.

(** [_whitespace = '\t\n\x0b\x0c\r '] *)
Definition is_ws (c : ascii) : bool := between 9 13 c || is_char space c.

(** [\w] and [\d] of [re] on code points below 256. *)
Definition is_digit (c : ascii) : bool := between 48 57 c.

Definition is_word (c : ascii) : bool :=
  between 48 57 c || between 65 90 c || between 95 95 c || between 97 122 c
  || between 170 170 c || between 178 179 c || between 181 181 c
  || between 185 186 c || between 188 190 c || between 192 214 c
  || between 216 246 c || between 248 255 c.

(** [letter = r'[^\d\W]'] *)
Definition is_letter (c : ascii) : bool := is_word c && negb (is_digit c).

(** [word_punct]: a [\w] character or one of the seven punctuation marks
    of the class (codes 33, 34, 39, 38, 46, 44, 63). *)
Definition is_word_punct (c : ascii) : bool :=
  is_word c
  || existsb (fun n => between n n c) [33; 34; 39; 38; 46; 44; 63].

(** [text.translate(unicode_whitespace_trans)] on one character *)
Definition translate (c : ascii) : ascii := if is_ws c then space else c.

(** [_munge_whitespace] *)
Definition munge_whitespace (text : str) : str :=
  map translate (expandtabs 8 text).

(** The character at offset [i], tested with [p]; false past the end. *)
Definition at_is (p : ascii -> bool) (s : str) (i : nat) : bool :=
  match s !! i with Some c => p c | None => false end.

Definition is_hyphen : ascii -> bool := is_char hyphen.

(** Length of the longest prefix of [s] whose characters satisfy [p]. *)
Fixpoint run (p : ascii -> bool) (s : str) : nat :=
  match s with
  | c :: r => if p c then S (run p r) else 0
  | [] => 0
  end.

(** [-{2,} (?=\w)] at the head of [ahead]. *)
Definition dashes_then_word (ahead : str) : bool :=
  (2 <=? run is_hyphen ahead) && at_is is_word ahead (run is_hyphen ahead).

(** [(?<=wp) -{2,} (?=\w)]; [behind] holds the text before the position,
    nearest character first. *)
Definition em_dash (behind ahead : str) : bool :=
  at_is is_word_punct behind 0 && dashes_then_word ahead.

(** [-(?: (?<=lt{2}-) | (?<=lt-lt-)) (?= lt -? lt)] *)
Definition hyphen_break (behind ahead : str) : bool :=
  match ahead with
  | c :: after =>
      is_hyphen c
      && ((at_is is_letter behind 0 && at_is is_letter behind 1)
          || (at_is is_letter behind 0 && at_is is_hyphen behind 1
              && at_is is_letter behind 2))
      && at_is is_letter after 0
      && ((at_is is_hyphen after 1 && at_is is_letter after 2)
          || at_is is_letter after 1)
  | [] => false
  end.

(** [(?=ws|\Z)] *)
Definition end_of_word (ahead : str) : bool :=
  match ahead with
  | c :: _ => is_ws c
  | [] => true
  end.

(** The third alternative, [nws+? (?: ... )], once the lazy [nws+?] has
    taken the characters now at the head of [behind]: how many more
    characters the match takes. *)
Fixpoint word_len (behind ahead : str) : nat :=
  if hyphen_break behind ahead then 1
  else if end_of_word ahead then 0
  else if em_dash behind ahead then 0
  else
    match ahead with
    | c :: r => S (word_len (c :: behind) r)
    | [] => 0
    end.

(** Length of the match of [wordsep_re] that starts at the head of
    [rest]. *)
Definition match_len (behind rest : str) : nat :=
  match rest with
  | [] => 0
  | c :: r =>
      if is_ws c then run is_ws rest
      else if em_dash behind rest then run is_hyphen rest
      else S (word_len (c :: behind) r)
  end.

(** [wordsep_re.split(text)] without its empty strings.  Every position
    starts a match, so the matches tile the text. *)
Fixpoint split_from (fuel : nat) (behind rest : str) : list str :=
  match fuel, rest with
  | S f, _ :: _ =>
      let n := match_len behind rest in
      take n rest :: split_from f (reverse (take n rest) ++ behind) (drop n rest)
  | _, _ => []
  end.

(** [_split] *)
Definition split (text : str) : list str := split_from (length text) [] text.

(** [_split_chunks] *)
Definition split_chunks (text : str) : list str :=
  split (munge_whitespace text).

(** [chunk.rfind('-', 0, stop)]: the last offset below [stop] holding a
    hyphen. *)
Fixpoint rfind_hyphen_from (i : nat) (s : str) (stop : nat) : option nat :=
  match s, stop with
  | c :: r, S stop' =>
      match rfind_hyphen_from (S i) r stop' with
      | Some j => Some j
      | None => if is_hyphen c then Some i else None
      end
  | _, _ => None
  end.

Definition rfind_hyphen (s : str) (stop : nat) : option nat :=
  rfind_hyphen_from 0 s stop.

(** The inner [while chunks] loop of [_wrap_chunks]: chunks move to the
    current line while they fit.  The stack [chunks] is kept with its top
    first. *)
Fixpoint fill_line (width cur_len : nat) (chunks : list str)
  : list str * nat * list str :=
  match chunks with
  | c :: rest =>
      if cur_len + length c <=? width then
        let '(line, n, rest') := fill_line width (cur_len + length c) rest in
        (c :: line, n, rest')
      else ([], cur_len, chunks)
  | [] => ([], cur_len, [])
  end.

(** Where [_handle_long_word] cuts the chunk on top of the stack. *)
Definition long_word_cut (width cur_len : nat) (chunk : str) : nat :=
  let space_left := if width <? 1 then 1 else width - cur_len in
  if space_left <? length chunk then
    match rfind_hyphen chunk space_left with
    | Some h =>
        if (0 <? h) && existsb (fun c => negb (is_hyphen c)) (take h chunk)
        then h + 1 else space_left
    | None => space_left
    end
  else space_left.

(** [_handle_long_word]: returns the current line and the stack. *)
Definition handle_long_word (width cur_len : nat) (cur_line chunks : list str)
  : list str * list str :=
  match chunks with
  | chunk :: rest =>
      let e := long_word_cut width cur_len chunk in
      (cur_line ++ [take e chunk], drop e chunk :: rest)
  | [] => (cur_line, chunks)
  end.

Definition nonempty {A} (l : list A) : bool :=
  match l with [] => false | _ => true end.

(** [if cur_line and cur_line[-1].strip() == '': del cur_line[-1]] *)
Definition drop_trailing_ws (cur_line : list str) : list str :=
  match last cur_line with
  | Some c => if strip_is_empty c then removelast cur_line else cur_line
  | None => cur_line
  end.

(** One pass of the outer [while chunks] loop: the lines so far and the
    stack after it. *)
Definition wrap_step (width : nat) (lines chunks : list str)
  : list str * list str :=
  let chunks1 :=
    match chunks with
    | c :: rest => if strip_is_empty c && nonempty lines then rest else chunks
    | [] => chunks
    end in
  let '(cur_line, cur_len, chunks2) := fill_line width 0 chunks1 in
  let '(cur_line1, chunks3) :=
    match chunks2 with
    | c :: _ =>
        if width <? length c
        then handle_long_word width cur_len cur_line chunks2
        else (cur_line, chunks2)
    | [] => (cur_line, chunks2)
    end in
  let cur_line2 := drop_trailing_ws cur_line1 in
  (if nonempty cur_line2 then lines ++ [join cur_line2] else lines, chunks3).

(** The outer loop; [None] when [fuel] passes do not empty the stack. *)
Fixpoint wrap_loop (fuel width : nat) (lines chunks : list str)
  : option (list str) :=
  match chunks with
  | [] => Some lines
  | _ :: _ =>
      match fuel with
      | 0 => None
      | S f =>
          let '(lines', chunks') := wrap_step width lines chunks in
          wrap_loop f width lines' chunks'
      end
  end.

Definition total_len (chunks : list str) : nat := length (concat chunks).

(** [_wrap_chunks]: a width that is not positive is refused before the
    loop starts. *)
Definition wrap_chunks (width : nat) (chunks : list str) : result (list str) :=
  if width <=? 0 then Raise ValueError
  else
    match wrap_loop (S (total_len chunks)) width [] chunks with
    | Some lines => Ok lines
    | None => OutOfFuel
    end.

(** [textwrap.wrap(text, width)] *)
Definition wrap (text : str) (width : nat) : result (list str) :=
  wrap_chunks width (split_chunks text).

(** *** Vocabulary of the statements about wrapping *)

(** The words of a text: its maximal runs of characters other than
    whitespace, in order. *)
Fixpoint words (s : str) : list str :=
  match s with
  | [] => []
  | c :: r =>
      if is_ws c then words r
      else if end_of_word r then [c] :: words r
      else
        match words r with
        | w :: ws => (c :: w) :: ws
        | [] => [[c]]
        end
  end.

Definition nonws (c : ascii) : bool := negb (is_ws c).

(** A character that is neither a hyphen nor one of the characters that
    [str.strip] removes and [textwrap] does not count as whitespace
    (codes 28 to 31, 133 and 160). *)
Definition plain_char (c : ascii) : bool :=
  negb (is_hyphen c) && (is_ws c || negb (isspace c)).

(** The chunks of a list that [_wrap_chunks] does not treat as
    whitespace. *)
Definition word_chunks (chunks : list str) : list str :=
  filter (fun c => strip_is_empty c = false) chunks.

(** A list of non-empty chunks, each made of whitespace only or free of
    it, in which no two chunks free of whitespace are adjacent;
    [after_word] tells that such a chunk comes just before the list. *)
Fixpoint alternating (after_word : bool) (chunks : list str) : Prop :=
  match chunks with
  | [] => True
  | c :: rest =>
      c <> []
      /\ ((forallb is_ws c = true /\ alternating false rest)
          \/ (after_word = false
              /\ forallb (fun x => negb (isspace x)) c = true
              /\ alternating true rest))
  end.

(** A chunk that is not whitespace is no longer than the width. *)
Definition fits (width : nat) (c : str) : Prop :=
  strip_is_empty c = false -> length c <= width.

End Textwrap.

(** ** The file system

    A file is the text written to it.  [denied] holds the paths on which
    [open] raises [OSError] (permission, missing directory, full disk). *)

Module FS.

Record t := mk {
  contents : gmap str str;
  denied : gset str
}.

(** [os.path.exists] *)
Definition exists_ (path : str) (fs : t) : bool :=
  bool_decide (is_Some (contents fs !! path)).

Definition read (path : str) (fs : t) : str :=
  default [] (contents fs !! path).

(** [open(path, 'a')] followed by the writes [data] and the close. *)
Definition append (path data : str) (fs : t) : result t :=
  if bool_decide (path ∈ denied fs) then Raise OSError
  else Ok (mk (<[path := read path fs ++ data]> (contents fs)) (denied fs)).

(** [open(path, 'w')] followed by the writes [data] and the close. *)
Definition overwrite (path data : str) (fs : t) : result t :=
  if bool_decide (path ∈ denied fs) then Raise OSError
  else Ok (mk (<[path := data]> (contents fs)) (denied fs)).

End FS.

(** ** [enhanced_logging_service.py] *)

Module EnhancedLogging.

(** [class ProcessType(str, Enum)] and [class LogStatus(str, Enum)] *)
Inductive ProcessType := UI | CORE | SYSTEM | SPEECH | INPUT.
Inductive LogStatus := FAILURE | SUCCESS | WARNING | CRITICAL | INFO | DEBUG.

#[global] Instance ProcessType_eq_dec : EqDecision ProcessType.
Proof. solve_decision. Defined.
#[global] Instance LogStatus_eq_dec : EqDecision LogStatus.
Proof. solve_decision. Defined.

Definition ProcessType_members : list ProcessType :=
  [UI; CORE; SYSTEM; SPEECH; INPUT].
Definition LogStatus_members : list LogStatus :=
  [FAILURE; SUCCESS; WARNING; CRITICAL; INFO; DEBUG].

Definition ProcessType_value (p : ProcessType) : str :=
  match p with
  | UI => lit "ui" | CORE => lit "core" | SYSTEM => lit "system"
  | SPEECH => lit "speech" | INPUT => lit "input"
  end.

Definition LogStatus_value (s : LogStatus) : str :=
  match s with
  | FAILURE => lit "failure" | SUCCESS => lit "success"
  | WARNING => lit "warning" | CRITICAL => lit "critical"
  | INFO => lit "information" | DEBUG => lit "debug"
  end.

(** The call [Enum(value)]: the member with that value, else
    [ValueError]. *)
Definition by_value {E} (value_of : E -> str) (members : list E) (v : str)
  : result E :=
  match find (fun m => bool_decide (value_of m = v)) members with
  | Some m => Ok m
  | None => Raise ValueError
  end.

Definition ProcessType_of (v : str) : result ProcessType :=
  by_value ProcessType_value ProcessType_members v.
Definition LogStatus_of (v : str) : result LogStatus :=
  by_value LogStatus_value LogStatus_members v.

(** What a caller passes for [process_type] or [status]: a member of the
    enumeration or a string, the two kinds of value that [log_entry]
    provides for ([isinstance], then [.lower()]). *)
Inductive arg (E : Type) :=
  | Member (e : E)
  | Text (s : str).
Arguments Member {E} e.
Arguments Text {E} s.

(** [logging.CRITICAL], [ERROR], [WARNING], [INFO], [DEBUG] *)
Definition logging_CRITICAL : Z := 50.
Definition logging_ERROR : Z := 40.
Definition logging_WARNING : Z := 30.
Definition logging_INFO : Z := 20.
Definition logging_DEBUG : Z := 10.

(** A frame of the call stack, as [inspect.getframeinfo] reports it. *)
Record frame := { frame_filename : str; frame_function : str }.

(** A writer: the attributes that differ from one instance to the next. *)
Record EnhancedLogger := {
  project_name : str;
  log_file : str;
  debug_mode : bool
}.

(** The state the logger acts on: the file system, the records sent to
    the root logger of [logging], and the writers whose finalizer
    [atexit] holds, latest first. *)
Record world := {
  fs : FS.t;
  console : list (Z * str);
  exit_handlers : list EnhancedLogger
}.

Definition with_fs (w : world) (f : FS.t) : world :=
  {| fs := f; console := console w; exit_handlers := exit_handlers w |}.

Definition emit (level : Z) (text : str) (w : world) : world :=
  {| fs := fs w; console := console w ++ [(level, text)];
     exit_handlers := exit_handlers w |}.

Definition atexit_register (h : EnhancedLogger) (w : world) : world :=
  {| fs := fs w; console := console w; exit_handlers := h :: exit_handlers w |}.

(** [APP_NAME] and [APP_VERSION] of [config.py] *)
Definition APP_NAME : str := lit "Ubuntu Dictation".
Definition APP_VERSION : str := lit "0.1.0".

(** The columns, in the order of the dictionary [self.col_widths]; the
    dictionary is set by [__init__] and never changed. *)
Inductive column :=
  | timestamp | task | function | file | message | process_type | status.

#[global] Instance column_eq_dec : EqDecision column.
Proof. solve_decision. Defined.

Definition col_widths : list (column * Z) :=
  [(timestamp, 25); (task, 15); (function, 30); (file, 25); (message, 50);
   (process_type, 15); (status, 15)]%Z.

(** [self.col_widths[name]] *)
Definition width_of (name : column) : Z :=
  match name with
  | timestamp => 25 | task => 15 | function => 30 | file => 25
  | message => 50 | process_type => 15 | status => 15
  end%Z.

Definition message_width : Z := width_of message.
Definition padding : Z := 1.

Definition bar : str := lit "|".
Definition plus : str := lit "+".
Definition nl : str := [newline].

(** [_create_separator_line] *)
Definition create_separator_line : str :=
  foldl (fun separator '(name, width) =>
           separator ++ dashes (width + padding * 2) ++ plus)
        plus col_widths.

Definition headers (name : column) : str :=
  match name with
  | timestamp => lit " TIMESTAMP " | task => lit " TASK "
  | function => lit " FUNCTION " | file => lit " FILE "
  | message => lit " MESSAGE " | process_type => lit " PROCESS_TYPE "
  | status => lit " STATUS "
  end.

(** [_create_header] *)
Definition create_header : str :=
  let separator := create_separator_line in
  let header_line :=
    foldl (fun header_line '(name, width) =>
             let title := headers name in
             let padding_left := (padding + (width - len title + 1) / 2)%Z in
             let padding_right :=
               (width - (len title - 1) - padding_left + padding)%Z in
             header_line ++ spaces padding_left ++ title
               ++ spaces padding_right ++ bar)
          bar col_widths in
  separator ++ nl ++ header_line ++ nl ++ separator ++ nl.

Definition slash : ascii := ascii_of_nat 47.

Definition at_is_slash (s : str) (i : nat) : bool :=
  Textwrap.at_is (is_char slash) s i.

(** [os.path.basename] *)
Fixpoint basename_from (acc path : str) : str :=
  match path with
  | [] => acc
  | c :: r => if is_char slash c then basename_from [] r
              else basename_from (acc ++ [c]) r
  end.

Definition basename (path : str) : str := basename_from [] path.

(** [_get_caller_info]: [frames] is the stack, the frame of
    [_get_caller_info] itself first; the walk stops early at the
    outermost frame. *)
Fixpoint walk_back (depth : nat) (fr : frame) (outer : list frame) : frame :=
  match depth, outer with
  | S d, f :: outer' => walk_back d f outer'
  | _, _ => fr
  end.

Definition get_caller_info (depth : nat) (frames : list frame) : str * str :=
  match frames with
  | fr :: outer =>
      let f := walk_back depth fr outer in
      (basename (frame_filename f), frame_function f)
  | [] => (lit "unknown.py", lit "unknown")
  end.

Definition this_file : str := lit "enhanced_logging_service.py".

Definition frame_of (fn : string) : frame :=
  {| frame_filename := this_file; frame_function := lit fn |}.

(** [_get_log_level] *)
Definition get_log_level (s : LogStatus) : Z :=
  match s with
  | CRITICAL => logging_CRITICAL
  | FAILURE => logging_ERROR
  | WARNING => logging_WARNING
  | INFO => logging_INFO
  | SUCCESS => logging_INFO
  | DEBUG => logging_DEBUG
  end.

(** The validation of the two enumerated arguments in [log_entry]. *)
Definition coerce_process_type (a : arg ProcessType) : result ProcessType :=
  match a with
  | Member p => Ok p
  | Text s => try_except (ProcessType_of (lower s)) ValueError (Ok SYSTEM)
  end.

Definition coerce_status (a : arg LogStatus) : result LogStatus :=
  match a with
  | Member s => Ok s
  | Text s => try_except (LogStatus_of (lower s)) ValueError (Ok INFO)
  end.

(** One cell of a row: [" " * padding + content + " " * padding_right + "|"] *)
Definition cell (content : str) (width : Z) : str :=
  spaces padding ++ content ++ spaces (width - len content + padding) ++ bar.

(** A cell of a continuation row outside the message column. *)
Definition blank_cell (width : Z) : str :=
  spaces (width + padding * 2) ++ bar.

(** The first row of a record, from the dictionary [values]. *)
Definition format_row (values : column -> str) : str :=
  foldl (fun log_line '(name, width) => log_line ++ cell (values name) width)
        bar col_widths.

(** A continuation row carrying the wrapped line [content]. *)
Definition continuation_row (content : str) : str :=
  foldl (fun cont_line '(name, width) =>
           if bool_decide (name = message)
           then cont_line ++ cell content width
           else cont_line ++ blank_cell width)
        bar col_widths.

(** [textwrap.wrap(log_message, width=self.message_width)], then the
    single empty line for an empty result. *)
Definition wrap_message (log_message : str) : result (list str) :=
  message_lines ← Textwrap.wrap log_message (Z.to_nat message_width);
  Ok (if Textwrap.nonempty message_lines then message_lines else [[]]).

(** The text [log_entry] writes inside its [with open(...)] block. *)
Definition entry_text (values : column -> str) (message_lines : list str)
    (s : LogStatus) : str :=
  (format_row values ++ nl)
  ++ concat (map (fun line => continuation_row line ++ nl) (tail message_lines))
  ++ (if bool_decide (s = CRITICAL) then create_separator_line ++ nl else []).

(** The dictionary [values] of [log_entry]: every field but the message is
    cut to the width of its column. *)
Definition entry_values (timestamp_ task_name function_name source_file : str)
    (message_lines : list str) (p : ProcessType) (status_str : str)
    (name : column) : str :=
  match name with
  | timestamp => slice_to (Z.to_nat (width_of timestamp)) timestamp_
  | task => slice_to (Z.to_nat (width_of task)) task_name
  | function => slice_to (Z.to_nat (width_of function)) function_name
  | file => slice_to (Z.to_nat (width_of file)) source_file
  | message => default [] (head message_lines)
  | process_type =>
      slice_to (Z.to_nat (width_of process_type)) (ProcessType_value p)
  | status => slice_to (Z.to_nat (width_of status)) status_str
  end.

(** The source file [log_entry] reports for a call made under the stack
    [callers]. *)
Definition source_file_of (callers : list frame) : str :=
  fst (get_caller_info 3
         (frame_of "_get_caller_info" :: frame_of "log_entry" :: callers)).

(** [log_entry]; [now] is the clock reading, formatted, and [callers] the
    stack above the call, the caller of [log_entry] first. *)
Definition log_entry (self : EnhancedLogger) (now : str) (callers : list frame)
    (function_name log_message : str)
    (process_type_ : arg ProcessType) (status_ : arg LogStatus)
    (task_name : option str) (w : world) : result world :=
  let timestamp_ := now in
  let task_name := default (project_name self) task_name in
  let source_file := source_file_of callers in
  p ← coerce_process_type process_type_;
  s ← coerce_status status_;
  let status_str := LogStatus_value s in
  message_lines ← wrap_message log_message;
  let values :=
    entry_values timestamp_ task_name function_name source_file message_lines
      p status_str in
  f ← FS.append (log_file self) (entry_text values message_lines s) (fs w);
  let log_level := get_log_level s in
  Ok (emit log_level
        (task_name ++ lit " - " ++ function_name ++ lit ": " ++ log_message)
        (with_fs w f)).

(** What Python lets a caller pass for [process_type] or [status]: a
    member or a string, which the validation provides for, or an object of
    another type.  [NoLower] stands for the objects that have no attribute
    [lower] ([None], a number, a truth value). *)
Inductive object (E : Type) :=
  | Known (a : arg E)
  | NoLower.
Arguments Known {E} a.
Arguments NoLower {E}.

(** The validation of [log_entry] on any object: [process_type.lower()]
    raises [AttributeError] on an object without the attribute, inside a
    [try] that catches [ValueError] only. *)
Definition validate_process_type (x : object ProcessType)
  : result ProcessType :=
  match x with
  | Known a => coerce_process_type a
  | NoLower => try_except (Raise AttributeError) ValueError (Ok SYSTEM)
  end.

Definition validate_status (x : object LogStatus) : result LogStatus :=
  match x with
  | Known a => coerce_status a
  | NoLower => try_except (Raise AttributeError) ValueError (Ok INFO)
  end.

(** [log_entry] on arguments of any type. *)
Definition log_entry_object (self : EnhancedLogger) (now : str)
    (callers : list frame) (function_name log_message : str)
    (process_type_ : object ProcessType) (status_ : object LogStatus)
    (task_name : option str) (w : world) : result world :=
  let timestamp_ := now in
  let task_name := default (project_name self) task_name in
  let source_file := source_file_of callers in
  p ← validate_process_type process_type_;
  s ← validate_status status_;
  let status_str := LogStatus_value s in
  message_lines ← wrap_message log_message;
  let values :=
    entry_values timestamp_ task_name function_name source_file message_lines
      p status_str in
  f ← FS.append (log_file self) (entry_text values message_lines s) (fs w);
  let log_level := get_log_level s in
  Ok (emit log_level
        (task_name ++ lit " - " ++ function_name ++ lit ": " ++ log_message)
        (with_fs w f)).

(** The dictionary [values] for the arguments of a call, once the two
    enumerated arguments are coerced and the message is wrapped. *)
Definition values_of (self : EnhancedLogger) (now : str) (callers : list frame)
    (function_name : str) (p : ProcessType) (s : LogStatus)
    (task_name : option str) (message_lines : list str) : column -> str :=
  entry_values now (default (project_name self) task_name) function_name
    (source_file_of callers) message_lines p (LogStatus_value s).

(** [_add_closing_line] *)
Definition closing_text (now : str) : str :=
  (create_separator_line ++ nl)
  ++ (lit "| Log encerrado em: " ++ now ++ spaces 150 ++ lit "|" ++ nl)
  ++ (create_separator_line ++ nl).

Definition add_closing_line (self : EnhancedLogger) (now : str) (w : world)
  : world :=
  if Textwrap.nonempty (log_file self) && FS.exists_ (log_file self) (fs w)
  then
    match FS.append (log_file self) (closing_text now) (fs w) with
    | Ok f => with_fs w f
    | _ => w
    end
  else w.

Definition log_info self now callers function_name message_ pt :=
  log_entry self now (frame_of "log_info" :: callers)
    function_name message_ pt (Member INFO) None.

Definition log_debug self now callers function_name message_ pt w :=
  if debug_mode self
  then log_entry self now (frame_of "log_debug" :: callers)
         function_name message_ pt (Member DEBUG) None w
  else Ok w.

Definition log_success self now callers function_name message_ pt :=
  log_entry self now (frame_of "log_success" :: callers)
    function_name message_ pt (Member SUCCESS) None.

Definition log_warning self now callers function_name message_ pt :=
  log_entry self now (frame_of "log_warning" :: callers)
    function_name message_ pt (Member WARNING) None.

Definition log_error self now callers function_name message_ pt :=
  log_entry self now (frame_of "log_error" :: callers)
    function_name message_ pt (Member FAILURE) None.

Definition log_critical self now callers function_name message_ pt :=
  log_entry self now (frame_of "log_critical" :: callers)
    function_name message_ pt (Member CRITICAL) None.

(** [os.path.join] of two components *)
Definition path_join (a b : str) : str :=
  if at_is_slash b 0 then b
  else if bool_decide (a = []) || bool_decide (last a = Some slash) then a ++ b
  else a ++ [slash] ++ b.

(** [__init__] followed by [setup_logging]: [stamp] and [now] are the two
    clock readings, formatted; the header goes to a new file, the
    finalizer is registered with [atexit] and the first record is
    written.  [os.makedirs] and [logging.basicConfig] act on nothing the
    model holds. *)
Definition setup_logging (project : str) (log_dir stamp now : str)
    (callers : list frame) (w : world) : result (EnhancedLogger * world) :=
  let self :=
    {| project_name := project;
       log_file := path_join log_dir (project ++ lit "_" ++ stamp ++ lit ".log");
       debug_mode := true |} in
  f ← FS.overwrite (log_file self) create_header (fs w);
  let w1 := atexit_register self (with_fs w f) in
  w2 ← log_info self now (frame_of "setup_logging" :: callers)
         (lit "setup_logging")
         (lit "Iniciado logger para " ++ project ++ lit " v" ++ APP_VERSION)
         (Member SYSTEM) w1;
  Ok (self, w2).

(** The interpreter leaving: [atexit] runs each registered finalizer once,
    the latest registration first. *)
Fixpoint run_exit_handlers (now : str) (handlers : list EnhancedLogger)
    (w : world) : world :=
  match handlers with
  | [] => w
  | h :: rest => run_exit_handlers now rest (add_closing_line h now w)
  end.

Definition process_exit (now : str) (w : world) : world :=
  run_exit_handlers now (exit_handlers w) w.

(** The text of a sequence of lines written one by one, each followed by
    a line feed. *)
Definition lines_text (rows : list str) : str :=
  concat (map (fun r => r ++ nl) rows).

(** [content] is [value] cut to [width] characters. *)
Definition cut_to (width : nat) (value content : str) : Prop :=
  content = take width value
  /\ (width < length value -> length content = width)
  /\ (length value <= width -> content = value).

(** The footer block: a separator, the closing line, a separator. *)
Definition footer (now : str) : str :=
  lines_text
    [create_separator_line;
     lit "| Log encerrado em: " ++ now ++ replicate 150 space ++ lit "|";
     create_separator_line].

(** Sample data for the closed statements below. *)
Module Sample.

Definition path : str := lit "/home/u/.local/share/ubuntu-dictation/logs/app.log".

Definition logger : EnhancedLogger :=
  {| project_name := lit "app"; log_file := path; debug_mode := true |}.

Definition clock : str := lit "2024-01-01 10:00:00".

Definition stack : list frame :=
  [ {| frame_filename := lit "/opt/app/main.py"; frame_function := lit "main" |};
    {| frame_filename := lit "/opt/app/run.py"; frame_function := lit "run" |} ].

(** The log file exists and holds [text]. *)
Definition world_with (text : str) : world :=
  {| fs := FS.mk {[ path := text ]} ∅; console := []; exit_handlers := [] |}.

(** The log file exists and can no longer be opened. *)
Definition world_denied : world :=
  {| fs := FS.mk {[ path := [] ]} {[ path ]}; console := [];
     exit_handlers := [] |}.

End Sample.

End EnhancedLogging.

(** ** [config.py]

    The settings are Python dictionaries, shared and changed in place.  The
    store [heap] holds every dictionary object at a location; a value is a
    scalar, a list, or the reference [VRef] to a dictionary.  A [json]
    tree is a document: what [json.load] returns before it is stored
    anywhere, what [json.dump] writes, the value a caller passes to
    [set_setting].  The items of a [JDict] have distinct keys. *)

Module Config.

#[warnings="-register-all"] Inductive json :=
  | JNull
  | JBool (b : bool)
  | JInt (n : Z)
  | JFloat (mantissa exponent : Z)
  | JStr (s : str)
  | JList (items : list json)
  | JDict (items : list (str * json)).

Abbreviation loc := nat.

Inductive value :=
  | VNone
  | VBool (b : bool)
  | VInt (n : Z)
  | VFloat (mantissa exponent : Z)
  | VStr (s : str)
  | VList (items : list json)
  | VRef (l : loc).

(** A dictionary object: its items in insertion order. *)
Abbreviation pydict := (list (str * value)).
Abbreviation heap := (list pydict).

(** [key in d] and [d[key]] *)
Fixpoint dict_get (key : str) (d : pydict) : option value :=
  match d with
  | [] => None
  | (k, v) :: rest => if bool_decide (k = key) then Some v else dict_get key rest
  end.

(** [d[key] = v] *)
Fixpoint dict_set (key : str) (v : value) (d : pydict) : pydict :=
  match d with
  | [] => [(key, v)]
  | (k, x) :: rest =>
      if bool_decide (k = key) then (k, v) :: rest
      else (k, x) :: dict_set key v rest
  end.

Definition alloc (d : pydict) (h : heap) : loc * heap := (length h, h ++ [d]).

Definition getitem (h : heap) (l : loc) (key : str) : option value :=
  match h !! l with
  | Some d => dict_get key d
  | None => None
  end.

Definition setitem (l : loc) (key : str) (v : value) (h : heap) : heap :=
  match h !! l with
  | Some d => <[l := dict_set key v d]> h
  | None => h
  end.

(** [d.copy()]: a new dictionary with the same items; the dictionaries the
    items refer to are shared. *)
Definition dict_copy (l : loc) (h : heap) : loc * heap :=
  alloc (default [] (h !! l)) h.

(** A document enters the store: its dictionaries are allocated, the
    inner ones first. *)
Fixpoint to_value (j : json) (h : heap) : value * heap :=
  match j with
  | JNull => (VNone, h)
  | JBool b => (VBool b, h)
  | JInt n => (VInt n, h)
  | JFloat m e => (VFloat m e, h)
  | JStr s => (VStr s, h)
  | JList items => (VList items, h)
  | JDict items =>
      let '(d, h') :=
        (fix build (items : list (str * json)) (h : heap) : pydict * heap :=
           match items with
           | [] => ([], h)
           | (k, j') :: rest =>
               let '(v, h1) := to_value j' h in
               let '(d, h2) := build rest h1 in
               ((k, v) :: d, h2)
           end) items h in
      let '(l, h'') := alloc d h' in
      (VRef l, h'')
  end.

(** What [json.dump] writes for a value of the store; [None] when the
    walk is deeper than [fuel], as it is on a cycle only when [fuel]
    exceeds the size of the store. *)
Fixpoint dump (fuel : nat) (h : heap) (v : value) : option json :=
  match fuel with
  | 0 => None
  | S fuel' =>
      match v with
      | VNone => Some JNull
      | VBool b => Some (JBool b)
      | VInt n => Some (JInt n)
      | VFloat m e => Some (JFloat m e)
      | VStr s => Some (JStr s)
      | VList items => Some (JList items)
      | VRef l =>
          match h !! l with
          | Some d =>
              (fix items (d : pydict) : option (list (str * json)) :=
                 match d with
                 | [] => Some []
                 | (k, x) :: rest =>
                     match dump fuel' h x, items rest with
                     | Some j, Some js => Some ((k, j) :: js)
                     | _, _ => None
                     end
                 end) d
              ≫= fun js => Some (JDict js)
          | None => None
          end
      end
  end.

(** [DEFAULT_SETTINGS], as the module text writes it. *)
Definition DEFAULT_SETTINGS_doc : json :=
  JDict
    [ (lit "general",
       JDict [ (lit "startup_with_system", JBool false);
               (lit "minimize_to_tray", JBool true);
               (lit "notification_sounds", JBool true);
               (lit "save_dictation_history", JBool true);
               (lit "max_history_items", JInt 100);
               (lit "theme", JStr (lit "system"));
               (lit "log_level", JStr (lit "INFO")) ]);
      (lit "hotkeys",
       JDict [ (lit "toggle_dictation", JStr (lit "super+h"));
               (lit "pause_dictation", JStr (lit "ctrl+space"));
               (lit "cancel_dictation", JStr (lit "escape")) ]);
      (lit "speech_recognition",
       JDict [ (lit "engine", JStr (lit "vosk"));
               (lit "language", JStr (lit "pt-BR"));
               (lit "auto_punctuation", JBool true);
               (lit "sensitivity", JFloat 6 (-1));
               (lit "timeout", JInt 5);
               (lit "auto_stop_after_silence", JFloat 20 (-1));
               (lit "capitalize_sentences", JBool true) ]);
      (lit "ui",
       JDict [ (lit "floating_panel", JBool true);
               (lit "panel_width", JInt 500);
               (lit "panel_height", JInt 200);
               (lit "opacity", JFloat 9 (-1));
               (lit "show_confidence", JBool false);
               (lit "font_size", JInt 12) ]);
      (lit "advanced",
       JDict [ (lit "audio_device", JStr (lit "default"));
               (lit "sample_rate", JInt 16000);
               (lit "debug_mode", JBool false);
               (lit "keep_logs_days", JInt 30);
               (lit "max_log_size_mb", JInt 5);
               (lit "keyboard_backend", JStr (lit "auto")) ]) ].

(** The store once the module text has built [DEFAULT_SETTINGS]: the five
    sections at locations 0 to 4, the dictionary itself at 5. *)
Definition initial_heap : heap := Eval vm_compute in snd (to_value DEFAULT_SETTINGS_doc []).
Definition DEFAULT_SETTINGS : loc := 5.

(** The settings file: absent, a document, or text that [json.load]
    rejects. *)
Inductive content := Document (j : json) | Garbage.

(** The process and its settings file; [config_denied] tells that [open]
    raises on the file. *)
Record state := {
  store : heap;
  config_file : option content;
  config_denied : bool
}.

Definition with_store (st : state) (h : heap) : state :=
  {| store := h; config_file := config_file st;
     config_denied := config_denied st |}.

Definition with_file (st : state) (c : content) : state :=
  {| store := store st; config_file := Some c;
     config_denied := config_denied st |}.

(** [save_settings]: every exception is caught and turned into [False].
    The file is emptied when it is opened, so a failed [json.dump] leaves
    text that is not a document. *)
Definition save_settings (settings : loc) (st : state) : bool * state :=
  if config_denied st then (false, st)
  else
    match dump (S (length (store st))) (store st) (VRef settings) with
    | Some j => (true, with_file st (Document j))
    | None => (false, with_file st Garbage)
    end.

(** [_update_nested_dict(base_dict, new_dict)], [new_dict] a document. *)
Fixpoint update_nested_dict (base_dict : loc) (new_dict : json) (h : heap)
  : heap :=
  match new_dict with
  | JDict items =>
      (fix each (items : list (str * json)) (h : heap) : heap :=
         match items with
         | [] => h
         | (key, value_) :: rest =>
             each rest
               match getitem h base_dict key, value_ with
               | Some (VRef sub), JDict _ => update_nested_dict sub value_ h
               | _, _ =>
                   let '(v, h1) := to_value value_ h in
                   setitem base_dict key v h1
               end
         end) items h
  | _ => h
  end.

Definition is_dict (j : json) : bool :=
  match j with JDict _ => true | _ => false end.

(** [load_settings]: the last line is the [except] branch. *)
Definition load_settings (st : state) : loc * state :=
  match config_file st with
  | Some c =>
      match config_denied st, c with
      | false, Document user_settings =>
          let '(merged_settings, h1) := dict_copy DEFAULT_SETTINGS (store st) in
          if is_dict user_settings then
            (merged_settings,
             with_store st (update_nested_dict merged_settings user_settings h1))
          else
            let '(l, h2) := dict_copy DEFAULT_SETTINGS h1 in
            (l, with_store st h2)
      | _, _ =>
          let '(l, h1) := dict_copy DEFAULT_SETTINGS (store st) in
          (l, with_store st h1)
      end
  | None =>
      let '(_, st1) := save_settings DEFAULT_SETTINGS st in
      let '(l, h1) := dict_copy DEFAULT_SETTINGS (store st1) in
      (l, with_store st1 h1)
  end.

(** [path.split('.')] *)
Fixpoint split_on (sep : ascii) (s : str) : list str :=
  match s with
  | [] => [[]]
  | c :: r =>
      if is_char sep c then [] :: split_on sep r
      else
        match split_on sep r with
        | w :: ws => (c :: w) :: ws
        | [] => [[c]]
        end
  end.

Definition dot : ascii := ascii_of_nat 46.

Fixpoint starts_with (p s : str) : bool :=
  match p, s with
  | [], _ => true
  | a :: p', b :: s' => bool_decide (a = b) && starts_with p' s'
  | _ :: _, [] => false
  end.

(** [p in s] for two strings *)
Fixpoint is_substring (p s : str) : bool :=
  starts_with p s
  || match s with
     | [] => false
     | _ :: s' => is_substring p s'
     end.

#[global] Instance json_eq_dec : EqDecision json.
Proof.
  refine (fix go (x y : json) {struct x} : Decision (x = y) :=
    match x, y with
    | JNull, JNull => left _
    | JBool a, JBool b => cast_if (decide (a = b))
    | JInt a, JInt b => cast_if (decide (a = b))
    | JFloat a1 a2, JFloat b1 b2 =>
        cast_if_and (decide (a1 = b1)) (decide (a2 = b2))
    | JStr a, JStr b => cast_if (decide (a = b))
    | JList a, JList b =>
        cast_if ((fix gol (a b : list json) : Decision (a = b) :=
                    match a, b with
                    | [], [] => left _
                    | x :: a', y :: b' => cast_if_and (go x y) (gol a' b')
                    | _, _ => right _
                    end) a b)
    | JDict a, JDict b =>
        cast_if ((fix god (a b : list (str * json)) : Decision (a = b) :=
                    match a, b with
                    | [], [] => left _
                    | (k, x) :: a', (k', y) :: b' =>
                        cast_if_and3 (decide (k = k')) (go x y) (god a' b')
                    | _, _ => right _
                    end) a b)
    | _, _ => right _
    end); clear go; try clear gol; try clear god; congruence.
Defined.

(** [part in current] *)
Definition contains (h : heap) (part : str) (current : value) : result bool :=
  match current with
  | VRef l => Ok (bool_decide (is_Some (getitem h l part)))
  | VStr s => Ok (is_substring part s)
  | VList items => Ok (bool_decide (JStr part ∈ items))
  | _ => Raise TypeError
  end.

(** [current[part]] for a string [part] *)
Definition subscript (h : heap) (current : value) (part : str) : result value :=
  match current with
  | VRef l =>
      match getitem h l part with
      | Some v => Ok v
      | None => Raise KeyError
      end
  | _ => Raise TypeError
  end.

(** The loop of [get_setting]. *)
Fixpoint navigate (h : heap) (current : value) (parts : list str)
    (default_ : value) : result value :=
  match parts with
  | [] => Ok current
  | part :: rest =>
      found ← contains h part current;
      if found : bool then
        next ← subscript h current part;
        navigate h next rest default_
      else Ok default_
  end.

(** [get_setting] *)
Definition get_setting (path : str) (default_ : value) (st : state)
  : result value * state :=
  let '(settings, st1) := load_settings st in
  let parts := split_on dot path in
  (navigate (store st1) (VRef settings) parts default_, st1).

(** [current[part] = v] for a string [part] *)
Definition assign (current : value) (part : str) (v : value) (h : heap)
  : result heap :=
  match current with
  | VRef l => Ok (setitem l part v h)
  | _ => Raise TypeError
  end.

(** The loop of [set_setting] over [parts[:-1]]. *)
Fixpoint descend (current : value) (parts : list str) (h : heap)
  : result (value * heap) :=
  match parts with
  | [] => Ok (current, h)
  | part :: rest =>
      found ← contains h part current;
      h1 ← (if found : bool then Ok h
            else let '(l, h') := alloc [] h in assign current part (VRef l) h');
      next ← subscript h1 current part;
      descend next rest h1
  end.

(** [set_setting]; the value passed is a document. *)
Definition set_setting (path : str) (value_ : json) (st : state)
  : result bool * state :=
  let '(settings, st1) := load_settings st in
  let parts := split_on dot path in
  match descend (VRef settings) (removelast parts) (store st1) with
  | Ok (current, h1) =>
      let '(v, h2) := to_value value_ h1 in
      match assign current (List.last parts []) v h2 with
      | Ok h3 =>
          let '(saved, st2) := save_settings settings (with_store st1 h3) in
          (Ok saved, st2)
      | Raise e => (Raise e, with_store st1 h2)
      | OutOfFuel => (OutOfFuel, with_store st1 h2)
      end
  | Raise e => (Raise e, st1)
  | OutOfFuel => (OutOfFuel, st1)
  end.

(** [reset_settings] *)
Definition reset_settings (st : state) : bool * state :=
  let '(l, h1) := dict_copy DEFAULT_SETTINGS (store st) in
  save_settings l (with_store st h1).

(** The process as the interpreter starts: [DEFAULT_SETTINGS] is built;
    the last statement of the module, [SETTINGS = load_settings()], then
    runs as the module is imported. *)
Definition fresh (file : option content) (denied : bool) : state :=
  {| store := initial_heap; config_file := file; config_denied := denied |}.

Definition import_module (st : state) : loc * state := load_settings st.

(** The value at a dotted path below a dictionary of the store. *)
Fixpoint lookup_path (h : heap) (v : value) (parts : list str) : option value :=
  match parts with
  | [] => Some v
  | part :: rest =>
      match v with
      | VRef l =>
          match getitem h l part with
          | Some next => lookup_path h next rest
          | None => None
          end
      | _ => None
      end
  end.

(** The value at a key of a document that is a mapping. *)
Fixpoint assoc (key : str) (items : list (str * json)) : option json :=
  match items with
  | [] => None
  | (k, j) :: rest => if bool_decide (k = key) then Some j else assoc key rest
  end.

(** One pass of the loop of [_update_nested_dict]. *)
Definition update_item (base_dict : loc) (key : str) (value_ : json) (h : heap)
  : heap :=
  match getitem h base_dict key, value_ with
  | Some (VRef sub), JDict _ => update_nested_dict sub value_ h
  | _, _ =>
      let '(v, h1) := to_value value_ h in
      setitem base_dict key v h1
  end.

(** The value a document that is not a mapping becomes in the store. *)
Definition scalar_of (j : json) : value := fst (to_value j []).

(** *** Shape of the store

    [refers d x]: the dictionary [d] holds a reference to [x].  A
    dictionary is a top one when it refers to a section of
    [DEFAULT_SETTINGS]: such are [DEFAULT_SETTINGS] and its copies.  In a
    sound store [DEFAULT_SETTINGS] still has the items the module gave it,
    every reference leads to a dictionary of the store that is not a top
    one, and the sections are not top ones. *)
Definition refers (d : pydict) (x : loc) : Prop := exists k, (k, VRef x) ∈ d.

Definition is_top (h : heap) (l : loc) : Prop :=
  exists d x, h !! l = Some d /\ refers d x /\ x < DEFAULT_SETTINGS.

Definition sound (h : heap) : Prop :=
  h !! DEFAULT_SETTINGS = initial_heap !! DEFAULT_SETTINGS
  /\ (forall l d x, h !! l = Some d -> refers d x ->
        x < length h /\ ~ is_top h x)
  /\ (forall l, l < DEFAULT_SETTINGS -> ~ is_top h l).

(** The references of the store lead to dictionaries of the store and
    make no cycle: some rank, below the size of the store, goes down along
    every reference. *)
Definition acyclic (h : heap) : Prop :=
  exists rank : loc -> nat,
    (forall l, l < length h -> rank l < length h)
    /\ forall l d x, h !! l = Some d -> refers d x ->
         x < length h /\ rank x < rank l.

(** The items of a mapping as they enter the store ([to_value] on a
    mapping allocates the dictionary they make). *)
Fixpoint to_items (items : list (str * json)) (h : heap) : pydict * heap :=
  match items with
  | [] => ([], h)
  | (k, j) :: rest =>
      let '(v, h1) := to_value j h in
      let '(d, h2) := to_items rest h1 in
      ((k, v) :: d, h2)
  end.

(** A document that enters the store leaves the dictionaries already
    there as they are; the new ones refer to new ones only. *)
Definition grows (h h' : heap) (v : option value) : Prop :=
  exists extra,
    h' = h ++ extra
    /\ (forall d x, d ∈ extra -> refers d x ->
          length h <= x /\ x < length h + length extra)
    /\ (forall x, v = Some (VRef x) ->
          length h <= x /\ x < length h + length extra).

(** [h'] comes from [h] by operations that add references to new
    dictionaries only. *)
Definition extends (h h' : heap) : Prop :=
  length h <= length h'
  /\ forall x d' y, h' !! x = Some d' -> refers d' y ->
       (length h <= y /\ y < length h')
       \/ (exists d, h !! x = Some d /\ refers d y).

(** A set [P] of locations is bounded by the store when it holds
    locations of the store only, and closed when no dictionary outside
    [P] refers to a location of [P]. *)
Definition bounded (P : loc -> Prop) (h : heap) : Prop :=
  forall x, P x -> x < length h.

Definition closed (P : loc -> Prop) (h : heap) : Prop :=
  forall l d x, h !! l = Some d -> ~ P l -> refers d x -> ~ P x.

(** Below [base], every key of [K] leads outside [P]. *)
Definition leads_out (P : loc -> Prop) (base : loc) (K : str -> Prop)
    (h : heap) : Prop :=
  forall k x, K k -> getitem h base k = Some (VRef x) -> ~ P x.

(** The items of a dictionary as [json.dump] writes them. *)
Fixpoint dump_items (fuel : nat) (h : heap) (d : pydict)
  : option (list (str * json)) :=
  match d with
  | [] => Some []
  | (k, x) :: rest =>
      match dump fuel h x, dump_items fuel h rest with
      | Some j, Some js => Some ((k, j) :: js)
      | _, _ => None
      end
  end.

(** The value at a dotted path of a document. *)
Fixpoint doc_path (j : json) (parts : list str) : option json :=
  match parts with
  | [] => Some j
  | part :: rest =>
      match j with
      | JDict items =>
          match assoc part items with
          | Some j' => doc_path j' rest
          | None => None
          end
      | _ => None
      end
  end.

(** Sample documents for the closed statements below. *)
Module Sample.

(** A settings file that overrides the theme. *)
Definition dark_theme : json :=
  JDict [(lit "general", JDict [(lit "theme", JStr (lit "dark"))])].

(** The same file after the user removed the key. *)
Definition no_theme : json := JDict [(lit "general", JDict [])].

(** The process after the module is imported with the first file. *)
Definition imported : state :=
  snd (import_module (fresh (Some (Document dark_theme)) false)).

(** The file is edited, then loaded again. *)
Definition reloaded : loc * state :=
  load_settings (with_file imported (Document no_theme)).

End Sample.

End Config.

(** ** The layout of the table *)

Module Table.
Import EnhancedLogging.

(** The runs of dashes between the crosses of [_create_separator_line]. *)
Definition separator_segments : list str :=
  map (fun '(_, width) => dashes (width + padding * 2)) col_widths.

(** The line of titles that [_create_header] builds. *)
Definition header_line : str :=
  foldl (fun header_line '(name, width) =>
           let title := headers name in
           let padding_left := (padding + (width - len title + 1) / 2)%Z in
           let padding_right :=
             (width - (len title - 1) - padding_left + padding)%Z in
           header_line ++ spaces padding_left ++ title
             ++ spaces padding_right ++ bar)
        bar col_widths.

End Table.

(** ** [enhanced_logging_service.py]: the rest of the module

    [set_debug_mode] and the functions of the module that act on its
    global [logger].  The global is passed along with the world: a
    [session] is the writer the name [logger] is bound to and the world.
    [logging.getLogger().setLevel] acts on the root logger, which the model
    does not hold. *)

Module EnhancedLoggingModule.
Import EnhancedLogging.

Definition c_cedilla : ascii := ascii_of_nat 231.
Definition a_tilde : ascii := ascii_of_nat 227.

(** [f"Modo de depuração {'ativado' if enabled else 'desativado'}"] *)
Definition debug_mode_text (enabled : bool) : str :=
  lit "Modo de depura" ++ [c_cedilla; a_tilde] ++ lit "o "
  ++ (if enabled then lit "ativado" else lit "desativado").

(** [set_debug_mode]: the attribute is set before the record is written,
    so the writer is changed even when the record cannot be written. *)
Definition set_debug_mode (self : EnhancedLogger) (enabled : bool) (now : str)
    (callers : list frame) (w : world) : EnhancedLogger * result world :=
  let self' :=
    {| project_name := project_name self; log_file := log_file self;
       debug_mode := enabled |} in
  (self',
   log_info self' now (frame_of "set_debug_mode" :: callers)
     (lit "set_debug_mode") (debug_mode_text enabled) (Member SYSTEM) w).

Definition session : Type := EnhancedLogger * world.

(** [EnhancedLogger(project_name)] called from the function [caller] of
    the module. *)
Definition construct (caller : string) (project : str)
    (log_dir stamp now : str) (callers : list frame) (w : world)
  : result session :=
  setup_logging project log_dir stamp now
    (frame_of "__init__" :: frame_of caller :: callers) w.

(** The module text: [logger = EnhancedLogger()] runs at import. *)
Definition import_module (log_dir stamp now : str) (callers : list frame)
    (w : world) : result session :=
  construct "<module>" APP_NAME log_dir stamp now callers w.

(** [setup]: the global is bound to a new writer; the writer it was bound
    to stays registered with [atexit]. *)
Definition setup (project : str) (log_dir stamp now : str)
    (callers : list frame) (s : session) : result session :=
  construct "setup" project log_dir stamp now callers (snd s).

Definition forward (fn : string)
    (method : EnhancedLogger -> str -> list frame -> str -> str ->
              arg ProcessType -> world -> result world)
    (now : str) (callers : list frame) (function_name message_ : str)
    (pt : arg ProcessType) (s : session) : result session :=
  w' ← method (fst s) now (frame_of fn :: callers) function_name message_ pt
         (snd s);
  Ok (fst s, w').

Definition info := forward "info" log_info.
Definition debug := forward "debug" log_debug.
Definition success := forward "success" log_success.
Definition warning := forward "warning" log_warning.
Definition error := forward "error" log_error.
Definition critical := forward "critical" log_critical.

(** [set_debug] *)
Definition set_debug (enabled : bool) (now : str) (callers : list frame)
    (s : session) : EnhancedLogger * result world :=
  set_debug_mode (fst s) enabled now (frame_of "set_debug" :: callers) (snd s).

(** [get_log_file] *)
Definition get_log_file (s : session) : str := log_file (fst s).

(** Sample data for the closed statements below: the module is imported
    and [setup] is called within the same second. *)
Module Sample.

Definition start : world :=
  {| fs := FS.mk ∅ ∅; console := []; exit_handlers := [] |}.

Definition log_dir : str := lit "/logs".
Definition stamp : str := lit "20240101_100000".

Definition or_else (r : result session) : session :=
  match r with
  | Ok s => s
  | _ => (EnhancedLogging.Sample.logger, start)
  end.

Definition imported : session :=
  or_else (import_module log_dir stamp EnhancedLogging.Sample.clock [] start).

Definition again : session :=
  or_else (setup APP_NAME log_dir stamp EnhancedLogging.Sample.clock []
             imported).

End Sample.

End EnhancedLoggingModule.

(** ** [logging_service.py]

    The functions that forward to the tabular writer, the purge of old log
    files and [LogCapture.write]. *)

Module LoggingService.
Import EnhancedLogging.

(** The frames of this module; the file name stands for the path of the
    module, of which [_get_caller_info] keeps the base name. *)
Definition this_file : str := lit "logging_service.py".

Definition frame_of (fn : string) : frame :=
  {| frame_filename := this_file; frame_function := lit fn |}.

(** [str.upper] on one character: the small sharp s becomes two letters,
    and the upper case of the characters 181 and 255 is a code point
    above 255, which the strings of the model do not hold ([None]). *)
Definition upper_char (c : ascii) : option str :=
  if between 97 122 c || between 224 246 c || between 248 254 c
  then Some [ascii_of_nat (code c - 32)]
  else if between 223 223 c then Some (lit "SS")
  else if between 181 181 c || between 255 255 c then None
  else Some [c].

Fixpoint upper (s : str) : option str :=
  match s with
  | [] => Some []
  | c :: r =>
      match upper_char c, upper r with
      | Some u, Some r' => Some (u ++ r')
      | _, _ => None
      end
  end.

(** The attributes of the module [logging] whose name is its own upper
    case: the levels are integers, the other two are not. *)
Inductive attribute := Level (n : Z) | NotALevel.

Definition logging_attributes : list (str * attribute) :=
  [ (lit "BASIC_FORMAT", NotALevel);
    (lit "CRITICAL", Level logging_CRITICAL);
    (lit "DEBUG", Level logging_DEBUG);
    (lit "ERROR", Level logging_ERROR);
    (lit "FATAL", Level logging_CRITICAL);
    (lit "INFO", Level logging_INFO);
    (lit "NOTSET", Level 0);
    (lit "WARN", Level logging_WARNING);
    (lit "WARNING", Level logging_WARNING);
    (lit "_STYLES", NotALevel) ].

Fixpoint lookup_name {A} (name : str) (table : list (str * A)) : option A :=
  match table with
  | [] => None
  | (k, a) :: rest =>
      if bool_decide (k = name) then Some a else lookup_name name rest
  end.

(** [logging.INFO if level == "success" else
     getattr(logging, level.upper(), logging.INFO)]; a name beyond the
    strings of the model is the name of no attribute. *)
Definition level_attribute (level : str) : attribute :=
  if bool_decide (level = lit "success") then Level logging_INFO
  else
    match upper level ≫= fun name => lookup_name name logging_attributes with
    | Some a => a
    | None => Level logging_INFO
    end.

(** [logging.getLogger().log(level, text)]: a level that is not an integer
    is refused. *)
Definition root_log (level : attribute) (text : str) (w : world)
  : result world :=
  match level with
  | Level n => Ok (emit n text w)
  | NotALevel => Raise TypeError
  end.

(** What [getattr(enhanced_logger, "log_" + level)] finds: a method taking
    the three arguments, or an attribute that cannot be called ([log_dir]
    and [log_file]).  [log_entry] takes the three arguments and its
    defaults for the status and the task. *)
Inductive found :=
  | Method (m : EnhancedLogger -> str -> list frame -> str -> str ->
                arg ProcessType -> world -> result world)
  | NotCallable.

Definition log_attributes : list (str * found) :=
  [ (lit "dir", NotCallable);
    (lit "file", NotCallable);
    (lit "entry",
     Method (fun self now callers function_name message_ pt =>
               log_entry self now callers function_name message_ pt
                 (Member INFO) None));
    (lit "info", Method log_info);
    (lit "debug", Method log_debug);
    (lit "success", Method log_success);
    (lit "warning", Method log_warning);
    (lit "error", Method log_error);
    (lit "critical", Method log_critical) ].

(** [log_enhanced]; [enhanced_logger] is the global of the module, [None]
    until [setup_logging(use_enhanced=True)] has run, and [callers] the
    stack above the call. *)
Definition log_enhanced (enhanced_logger : option EnhancedLogger) (now : str)
    (callers : list frame) (function_name message_ level : str)
    (process_type_ : arg ProcessType) (w : world) : result (bool * world) :=
  match enhanced_logger with
  | None =>
      w' ← root_log (level_attribute level)
             (function_name ++ lit ": " ++ message_) w;
      Ok (false, w')
  | Some el =>
      let stack := frame_of "log_enhanced" :: callers in
      match lookup_name level log_attributes with
      | Some (Method method) =>
          w' ← method el now stack function_name message_ process_type_ w;
          Ok (true, w')
      | Some NotCallable => Raise TypeError
      | None =>
          w' ← log_info el now stack function_name message_ process_type_ w;
          Ok (true, w')
      end
  end.

Definition forward (fn : string) (level : string)
    (enhanced_logger : option EnhancedLogger) (now : str)
    (callers : list frame) (function_name message_ : str)
    (process_type_ : arg ProcessType) (w : world) : result (bool * world) :=
  log_enhanced enhanced_logger now (frame_of fn :: callers)
    function_name message_ (lit level) process_type_ w.

Definition info := forward "info" "info".
Definition debug := forward "debug" "debug".
Definition success := forward "success" "success".
Definition warning := forward "warning" "warning".
Definition error := forward "error" "error".
Definition critical := forward "critical" "critical".

(** *** The log directory

    An entry of [LOG_DIR]: its name, its modification time, and whether
    [unlink] is refused on it. *)
Record dir_entry := {
  entry_name : str;
  entry_mtime : Z;
  entry_locked : bool
}.

Definition glob_prefix : str := lit "ubuntu-dictation-".
Definition glob_suffix : str := lit ".log".

(** The pattern [ubuntu-dictation-*.log] on a file name. *)
Definition matches_glob (name : str) : bool :=
  Config.starts_with glob_prefix name
  && Config.starts_with (reverse glob_suffix) (reverse name)
  && (length glob_prefix + length glob_suffix <=? length name).

(** [sorted(..., key=os.path.getmtime, reverse=True)]: the latest first,
    entries of equal time in the order they had. *)
Fixpoint insert_by_mtime (x : dir_entry) (l : list dir_entry)
  : list dir_entry :=
  match l with
  | [] => [x]
  | y :: l' =>
      if (entry_mtime x <? entry_mtime y)%Z then y :: insert_by_mtime x l'
      else x :: l
  end.

Definition sorted_by_mtime (l : list dir_entry) : list dir_entry :=
  foldr insert_by_mtime [] l.

(** [list_log_files]; the directory is [None] when [LOG_DIR] does not
    exist, else its entries in the order [glob] meets them. *)
Definition list_log_files (dir : option (list dir_entry)) : list dir_entry :=
  match dir with
  | None => []
  | Some entries =>
      sorted_by_mtime (filter (fun e => matches_glob (entry_name e) = true)
                         entries)
  end.

(** [l[k:]] for a Python integer [k] *)
Definition slice_from {A} (k : Z) (l : list A) : list A :=
  if (k <? 0)%Z then drop (Z.to_nat (Z.max 0 (Z.of_nat (length l) + k))) l
  else drop (Z.to_nat k) l.

(** [file_path.unlink()] *)
Definition unlink (name : str) (entries : list dir_entry)
  : result (list dir_entry) :=
  match find (fun e => bool_decide (entry_name e = name)) entries with
  | Some e =>
      if entry_locked e then Raise OSError
      else Ok (filter (fun e => entry_name e <> name) entries)
  | None => Raise OSError
  end.

(** The loop of [purge_old_logs]: the directory, the count of files
    removed and the files a warning was logged for. *)
Fixpoint remove_files (files : list dir_entry) (entries : list dir_entry)
    (removed : Z) (warned : list str) : list dir_entry * Z * list str :=
  match files with
  | [] => (entries, removed, warned)
  | file_path :: rest =>
      match unlink (entry_name file_path) entries with
      | Ok entries' => remove_files rest entries' (removed + 1) warned
      | _ =>
          remove_files rest entries removed
            (warned ++ [entry_name file_path])
      end
  end.

(** [purge_old_logs]: the number returned, the directory afterwards and
    the files a warning was logged for. *)
Definition purge_old_logs (max_age_days max_files : Z)
    (dir : option (list dir_entry)) : Z * option (list dir_entry) * list str :=
  let log_files := list_log_files dir in
  if (Z.of_nat (length log_files) <=? max_files)%Z then (0%Z, dir, [])
  else
    let files_to_remove := slice_from max_files log_files in
    let '(entries', removed, warned) :=
      remove_files files_to_remove (default [] dir) 0 [] in
    (removed, (fun _ => entries') <$> dir, warned).

(** *** [LogCapture] *)

(** The characters at which [str.splitlines] ends a line. *)
Definition is_linebreak (c : ascii) : bool :=
  between 10 13 c || between 28 30 c || between 133 133 c.

(** [str.splitlines]: a carriage return followed by a line feed ends one
    line, and the end of the text ends a line only when the line holds a
    character. *)
Fixpoint splitlines_from (cur s : str) : list str :=
  match s with
  | [] => if Textwrap.nonempty cur then [cur] else []
  | c :: r =>
      if is_linebreak c then
        cur :: match r with
               | c' :: r' =>
                   if is_char creturn c && is_char newline c'
                   then splitlines_from [] r'
                   else splitlines_from [] r
               | [] => splitlines_from [] r
               end
      else splitlines_from (cur ++ [c]) r
  end.

Definition splitlines (s : str) : list str := splitlines_from [] s.

(** [str.rstrip()] *)
Fixpoint rstrip (s : str) : str :=
  match s with
  | [] => []
  | c :: r =>
      match rstrip r with
      | [] => if isspace c then [] else [c]
      | r' => c :: r'
      end
  end.

(** [LogCapture.write]: the calls of [self.logger.log] it makes, each a
    level and a line. *)
Definition write (level : Z) (message_ : str) : list (Z * str) :=
  if Textwrap.nonempty message_ && negb (forallb isspace message_)
  then map (fun line => (level, line)) (splitlines (rstrip message_))
  else [].

(** Sample data for the closed statements below: three log files and a
    file that is not one. *)
Module Sample.

Definition entry (name : string) (mtime : Z) : dir_entry :=
  {| entry_name := lit name; entry_mtime := mtime; entry_locked := false |}.

Definition directory : list dir_entry :=
  [ entry "ubuntu-dictation-2024-01-01.log" 100;
    entry "notes.txt" 400;
    entry "ubuntu-dictation-2024-01-03.log" 300;
    entry "ubuntu-dictation-2024-01-02.log" 200 ].

End Sample.

End LoggingService.

(** * Properties *)

(** ** [textwrap.wrap]: termination and line width *)

Module TextwrapFacts.
Import Textwrap.

Lemma total_len_cons c l : total_len (c :: l) = length c + total_len l.
Proof. unfold total_len. simpl. by rewrite length_app. Qed.

Lemma total_len_app l1 l2 : total_len (l1 ++ l2) = total_len l1 + total_len l2.
Proof.
  induction l1 as [|c l1 IH]; [done|].
  simpl. rewrite !total_len_cons, IH. lia.
Qed.

Lemma fill_line_spec width n chunks line m rest :
  fill_line width n chunks = (line, m, rest) ->
  chunks = line ++ rest /\ m = n + total_len line /\ (n <= width -> m <= width)
  /\ match rest with c :: _ => width < m + length c | [] => True end.
Proof.
  revert n line m rest.
  induction chunks as [|c chunks IH]; intros n line m rest; simpl.
  - intros [= <- <- <-]. unfold total_len. simpl. repeat split; lia.
  - destruct (n + length c <=? width) eqn:Hfit.
    + destruct (fill_line width (n + length c) chunks) as [[l k] r] eqn:Hrec.
      intros [= <- <- <-].
      apply Nat.leb_le in Hfit.
      destruct (IH _ _ _ _ Hrec) as (-> & -> & Hle & Hhd).
      rewrite total_len_cons. repeat split; [lia | lia | exact Hhd].
    + intros [= <- <- <-]. apply Nat.leb_gt in Hfit.
      unfold total_len. simpl. repeat split; lia.
Qed.

Lemma rfind_hyphen_from_bound i s stop j :
  rfind_hyphen_from i s stop = Some j -> i <= j < i + stop.
Proof.
  revert i stop.
  induction s as [|c s IH]; intros i [|stop]; simpl; try discriminate.
  destruct (rfind_hyphen_from (S i) s stop) as [k|] eqn:Hrec.
  - intros [= <-]. apply IH in Hrec. lia.
  - destruct (is_hyphen c); [|discriminate]. intros [= <-]. lia.
Qed.

Lemma long_word_cut_bound width cur_len chunk :
  1 <= width -> cur_len <= width -> width < length chunk ->
  long_word_cut width cur_len chunk <= width - cur_len
  /\ (cur_len = 0 -> 1 <= long_word_cut width cur_len chunk)
  /\ long_word_cut width cur_len chunk < length chunk.
Proof.
  intros Hw Hcur Hlong. unfold long_word_cut.
  destruct (width <? 1) eqn:Hw1; [apply Nat.ltb_lt in Hw1; lia|].
  destruct (width - cur_len <? length chunk) eqn:Hsl; [|lia].
  destruct (rfind_hyphen chunk (width - cur_len)) as [h|] eqn:Hh; [|lia].
  apply rfind_hyphen_from_bound in Hh.
  destruct (_ && _); lia.
Qed.

Lemma drop_trailing_ws_prefix cur_line :
  exists dropped, cur_line = drop_trailing_ws cur_line ++ dropped.
Proof.
  unfold drop_trailing_ws.
  destruct (last cur_line) as [c|] eqn:Hlast.
  - destruct (strip_is_empty c).
    + exists [c]. apply last_Some in Hlast as [l' ->].
      by rewrite removelast_last.
    + exists []. by rewrite app_nil_r.
  - exists []. by rewrite app_nil_r.
Qed.

Lemma drop_trailing_ws_len cur_line :
  total_len (drop_trailing_ws cur_line) <= total_len cur_line.
Proof.
  destruct (drop_trailing_ws_prefix cur_line) as [d Hd].
  rewrite Hd at 2. rewrite total_len_app. lia.
Qed.

(** One pass of the outer loop consumes text, keeps the chunks of the
    stack non-empty and adds at most one line, no longer than [width]. *)
Lemma wrap_step_spec width lines c rest lines' chunks' :
  1 <= width -> Forall (fun c => c <> []) (c :: rest) ->
  wrap_step width lines (c :: rest) = (lines', chunks') ->
  total_len chunks' < total_len (c :: rest)
  /\ Forall (fun c => c <> []) chunks'
  /\ exists new, lines' = lines ++ new
       /\ Forall (fun l => length l <= width) new.
Proof.
  intros Hw Hne. unfold wrap_step.
  set (chunks1 := if strip_is_empty c && nonempty lines then rest else c :: rest).
  assert (Hc1 : Forall (fun c => c <> []) chunks1
                /\ total_len chunks1 <= total_len (c :: rest)
                /\ (chunks1 = c :: rest \/ total_len chunks1 < total_len (c :: rest))).
  { subst chunks1. inversion Hne as [|? ? Hc Hrest]; subst.
    destruct (_ && _); rewrite ?total_len_cons.
    - repeat split; [done | lia |]. right. destruct c; [done | simpl; lia].
    - repeat split; [done | lia | by left]. }
  destruct Hc1 as (Hne1 & Hle1 & Hprog1).
  destruct (fill_line width 0 chunks1) as [[cur_line cur_len] chunks2] eqn:Hfill.
  apply fill_line_spec in Hfill as (Hsplit & Hlen & Hfit & Hhd).
  simpl in Hlen. specialize (Hfit ltac:(lia)).
  assert (Hne2 : Forall (fun c => c <> []) chunks2).
  { rewrite Hsplit in Hne1. by apply Forall_app in Hne1 as [_ ?]. }
  assert (Htot : total_len chunks1 = cur_len + total_len chunks2).
  { rewrite Hsplit, total_len_app. lia. }
  assert (Hfinish : forall cur_line1 chunks3,
    total_len cur_line1 <= width ->
    total_len chunks3 < total_len (c :: rest) ->
    Forall (fun c => c <> []) chunks3 ->
    (if nonempty (drop_trailing_ws cur_line1)
     then lines ++ [join (drop_trailing_ws cur_line1)] else lines, chunks3)
    = (lines', chunks') ->
    total_len chunks' < total_len (c :: rest)
    /\ Forall (fun c => c <> []) chunks'
    /\ exists new, lines' = lines ++ new
         /\ Forall (fun l => length l <= width) new).
  { intros cl ch Hcl Hch Hnech [= <- <-]. repeat split; [done | done |].
    destruct (nonempty (drop_trailing_ws cl)).
    - eexists; split; [done|]. constructor; [|done].
      pose proof (drop_trailing_ws_len cl). unfold total_len, join in *. lia.
    - exists []. by rewrite app_nil_r. }
  destruct chunks2 as [|c2 r2].
  - apply Hfinish; [lia | | done].
    unfold total_len at 1. simpl. rewrite total_len_cons in *.
    inversion Hne; subst. destruct c; [done|]. simpl in *. lia.
  - destruct (width <? length c2) eqn:Hlong.
    + apply Nat.ltb_lt in Hlong. unfold handle_long_word.
      destruct (long_word_cut_bound width cur_len c2) as (Hcut & Hpos & Hlt);
        [lia | lia | lia |].
      apply Hfinish.
      * rewrite total_len_app, total_len_cons. unfold total_len at 2. simpl.
        rewrite length_take. lia.
      * rewrite total_len_cons, length_drop.
        rewrite total_len_cons in Htot.
        destruct Hprog1 as [Heq|Hlt1]; [|lia].
        destruct cur_line as [|c0 cl0].
        -- unfold total_len in Hlen. simpl in Hlen.
           specialize (Hpos Hlen). lia.
        -- rewrite total_len_cons in Hlen.
           assert (c0 <> []).
           { rewrite Hsplit in Hne1. by inversion Hne1. }
           destruct c0; [done|]. simpl in Hlen. lia.
      * inversion Hne2; subst. constructor; [|done].
        intros Hnil. apply (f_equal length) in Hnil.
        rewrite length_drop in Hnil. simpl in Hnil. lia.
    + apply Nat.ltb_ge in Hlong. apply Hfinish; [lia | | done].
      destruct Hprog1 as [Heq|Hlt1]; [|lia].
      destruct cur_line as [|c0 cl0].
      * unfold total_len in Hlen. simpl in Hlen. lia.
      * rewrite total_len_cons in Hlen.
        assert (c0 <> []).
        { rewrite Hsplit in Hne1. by inversion Hne1. }
        destruct c0; [done|]. simpl in Hlen. lia.
Qed.

Lemma wrap_loop_spec fuel width lines chunks :
  1 <= width -> Forall (fun c => c <> []) chunks ->
  total_len chunks < fuel ->
  Forall (fun l => length l <= width) lines ->
  exists out, wrap_loop fuel width lines chunks = Some out
    /\ Forall (fun l => length l <= width) out.
Proof.
  intros Hw. revert lines chunks.
  induction fuel as [|fuel IH]; intros lines chunks Hne Hfuel Hlines; [lia|].
  destruct chunks as [|c rest]; simpl; [by eexists|].
  destruct (wrap_step width lines (c :: rest)) as [lines' chunks'] eqn:Hstep.
  apply wrap_step_spec in Hstep as (Hdec & Hne' & new & -> & Hnew); [|done..].
  apply IH; [done | lia |]. by apply Forall_app.
Qed.

Lemma run_pos p c r : p c = true -> 1 <= run p (c :: r).
Proof. simpl. intros ->. lia. Qed.

Lemma match_len_pos behind c r : 1 <= match_len behind (c :: r).
Proof.
  unfold match_len. destruct (is_ws c) eqn:Hws.
  - by apply run_pos.
  - destruct (em_dash behind (c :: r)) eqn:Hem; [|lia].
    unfold em_dash, dashes_then_word in Hem.
    apply andb_prop in Hem as [_ Hem]. apply andb_prop in Hem as [Hem _].
    apply Nat.leb_le in Hem. lia.
Qed.

Lemma split_from_nonempty fuel behind rest :
  Forall (fun c => c <> []) (split_from fuel behind rest).
Proof.
  revert behind rest. induction fuel as [|fuel IH]; intros behind rest.
  - destruct rest; constructor.
  - destruct rest as [|c r]; [constructor|].
    cbn [split_from]. constructor; [|apply IH].
    pose proof (match_len_pos behind c r) as Hpos.
    destruct (match_len behind (c :: r)); [lia | done].
Qed.

Lemma split_from_concat fuel behind rest :
  length rest <= fuel -> concat (split_from fuel behind rest) = rest.
Proof.
  revert behind rest. induction fuel as [|fuel IH]; intros behind rest Hfuel.
  - destruct rest; [done | simpl in Hfuel; lia].
  - destruct rest as [|c r]; [done|].
    cbn [split_from concat].
    pose proof (match_len_pos behind c r) as Hpos.
    rewrite IH; [apply take_drop|].
    rewrite length_drop. simpl in *. lia.
Qed.

(** The chunks tile the text they are cut from. *)
Lemma split_concat text : concat (split text) = text.
Proof. by apply split_from_concat. Qed.

(** [textwrap.wrap] returns, and no line it returns is longer than the
    width. *)
Lemma wrap_total text width :
  1 <= width ->
  exists lines, wrap text width = Ok lines
    /\ Forall (fun l => length l <= width) lines.
Proof.
  intros Hw. unfold wrap, wrap_chunks.
  rewrite (proj2 (Nat.leb_gt width 0)) by lia.
  destruct (wrap_loop_spec (S (total_len (split_chunks text))) width []
              (split_chunks text)) as (lines & -> & Hlen);
    [done | apply split_from_nonempty | lia | done |].
  by exists lines.
Qed.

(** *** Words are kept whole *)

Lemma is_ws_isspace c : is_ws c = true -> isspace c = true.
Proof.
  unfold is_ws, isspace. destruct (between 9 13 c); [done|]. simpl.
  unfold is_char. intros H. apply bool_decide_eq_true in H. by subst.
Qed.

Lemma plain_not_hyphen c : plain_char c = true -> is_hyphen c = false.
Proof. unfold plain_char. by destruct (is_hyphen c). Qed.

Lemma plain_nonws c :
  plain_char c = true -> is_ws c = false -> isspace c = false.
Proof.
  unfold plain_char. intros H Hws. rewrite Hws in H.
  destruct (is_hyphen c), (isspace c); done.
Qed.

Lemma forallb_take {A} (p : A -> bool) n l :
  forallb p l = true -> forallb p (take n l) = true.
Proof.
  revert n. induction l as [|a l IH]; intros [|n]; simpl; try done.
  intros H. apply andb_prop in H as [-> Hl]. simpl. by apply IH.
Qed.

Lemma forallb_drop {A} (p : A -> bool) n l :
  forallb p l = true -> forallb p (drop n l) = true.
Proof.
  revert n. induction l as [|a l IH]; intros [|n]; simpl; try done.
  intros H. apply andb_prop in H as [_ Hl]. by apply IH.
Qed.

Lemma forallb_replicate {A} (p : A -> bool) n a :
  p a = true -> forallb p (replicate n a) = true.
Proof. intros Ha. induction n as [|n IH]; simpl; [done|]. by rewrite Ha. Qed.

Lemma map_replicate {A B} (f : A -> B) n a :
  map f (replicate n a) = replicate n (f a).
Proof. induction n as [|n IH]; simpl; [done|]. by rewrite IH. Qed.

Lemma forallb_take_run p l : forallb p (take (run p l) l) = true.
Proof.
  induction l as [|a l IH]; simpl; [done|].
  destruct (p a) eqn:Ha; simpl; [by rewrite Ha|done].
Qed.

Lemma end_of_word_drop_run l : end_of_word (drop (run nonws l) l) = true.
Proof.
  induction l as [|a l IH]; simpl; [done|]. unfold nonws at 1.
  destruct (is_ws a) eqn:Ha; simpl; [done|exact IH].
Qed.

Lemma words_ws_app c x : forallb is_ws c = true -> words (c ++ x) = words x.
Proof.
  induction c as [|a c IH]; simpl; [done|].
  intros H. apply andb_prop in H as [-> Hc]. by apply IH.
Qed.

Lemma words_word_app c x :
  c <> [] -> forallb nonws c = true -> end_of_word x = true ->
  words (c ++ x) = c :: words x.
Proof.
  induction c as [|a c IH]; [done|]. intros _ H Hx.
  simpl in H. apply andb_prop in H as [Ha Hc].
  unfold nonws in Ha. apply negb_true_iff in Ha.
  change ((a :: c) ++ x) with (a :: (c ++ x)). cbn [words]. rewrite Ha.
  destruct c as [|b c].
  - simpl. by rewrite Hx.
  - assert (Hb : end_of_word ((b :: c) ++ x) = false).
    { simpl in Hc. apply andb_prop in Hc as [Hb _].
      unfold nonws in Hb. by apply negb_true_iff in Hb. }
    rewrite Hb, IH; done.
Qed.

Lemma translate_is_ws c : is_ws (translate c) = is_ws c.
Proof. unfold translate. by destruct (is_ws c) eqn:H. Qed.

Lemma tab_incr col : exists k, 8 - col mod 8 = S k.
Proof.
  pose proof (Nat.mod_upper_bound col 8 ltac:(lia)).
  exists (7 - col mod 8). lia.
Qed.

Lemma end_of_word_munge col s :
  end_of_word (map translate (expandtabs_from 8 col s)) = end_of_word s.
Proof.
  destruct s as [|c r]; [done|]. cbn [expandtabs_from].
  destruct (is_char tab c) eqn:Htab.
  - apply bool_decide_eq_true in Htab as ->.
    destruct (tab_incr col) as [k ->]. reflexivity.
  - simpl. apply translate_is_ws.
Qed.

Lemma words_munge col s :
  words (map translate (expandtabs_from 8 col s)) = words s.
Proof.
  revert col. induction s as [|c r IH]; intros col; [done|].
  cbn [expandtabs_from].
  destruct (is_char tab c) eqn:Htab.
  - apply bool_decide_eq_true in Htab as ->.
    change (0 <? 8) with true. cbv iota.
    rewrite map_app, words_ws_app, IH; [done|].
    rewrite map_replicate. by apply forallb_replicate.
  - cbn [map words]. rewrite translate_is_ws, end_of_word_munge, IH.
    unfold translate. by destruct (is_ws c).
Qed.

Lemma plain_munge col s :
  forallb plain_char s = true ->
  forallb plain_char (map translate (expandtabs_from 8 col s)) = true.
Proof.
  revert col. induction s as [|c r IH]; intros col; [done|].
  cbn [expandtabs_from forallb]. intros H. apply andb_prop in H as [Hc Hr].
  destruct (is_char tab c) eqn:Htab.
  - change (0 <? 8) with true. cbv iota.
    rewrite map_app, forallb_app, IH by done.
    rewrite andb_true_r, map_replicate. by apply forallb_replicate.
  - cbn [map forallb]. rewrite IH by done. rewrite andb_true_r.
    unfold translate. by destruct (is_ws c).
Qed.

Lemma word_len_plain behind ahead :
  forallb plain_char ahead = true -> word_len behind ahead = run nonws ahead.
Proof.
  revert behind. induction ahead as [|c r IH]; intros behind; [done|].
  cbn [forallb]. intros H. apply andb_prop in H as [Hc Hr].
  pose proof (plain_not_hyphen c Hc) as Hh.
  cbn [word_len run]. unfold hyphen_break, em_dash, dashes_then_word.
  cbn [run end_of_word]. rewrite Hh. cbn [andb]. unfold nonws at 1.
  destruct (is_ws c); cbn [negb]; [done|].
  rewrite andb_false_r. by rewrite IH.
Qed.

Lemma forallb_nonspace l :
  forallb plain_char l = true -> forallb nonws l = true ->
  forallb (fun x => negb (isspace x)) l = true.
Proof.
  induction l as [|a l IH]; simpl; [done|]. intros Hp Hn.
  apply andb_prop in Hp as [Ha Hl]. apply andb_prop in Hn as [Hna Hnl].
  unfold nonws in Hna. apply negb_true_iff in Hna.
  rewrite (plain_nonws a Ha Hna). simpl. by apply IH.
Qed.

Lemma split_from_alternating fuel behind rest aw :
  forallb plain_char rest = true ->
  (aw = true -> end_of_word rest = true) ->
  alternating aw (split_from fuel behind rest).
Proof.
  revert behind rest aw.
  induction fuel as [|fuel IH]; intros behind rest aw Hplain Haw.
  { by destruct rest. }
  destruct rest as [|c r]; [done|]. cbn [split_from alternating].
  pose proof (match_len_pos behind c r) as Hpos.
  split.
  { destruct (match_len behind (c :: r)); [lia|done]. }
  pose proof Hplain as Hplain'.
  cbn [forallb] in Hplain'. apply andb_prop in Hplain' as [Hc Hr].
  unfold match_len in *. destruct (is_ws c) eqn:Hws.
  - left. split; [apply forallb_take_run|].
    apply IH; [by apply forallb_drop | done].
  - right.
    assert (Hem : em_dash behind (c :: r) = false).
    { unfold em_dash, dashes_then_word. cbn [run].
      rewrite (plain_not_hyphen c Hc). by rewrite andb_false_r. }
    rewrite Hem, word_len_plain by done.
    split; [|split].
    + destruct aw; [|done]. specialize (Haw eq_refl). simpl in Haw. congruence.
    + cbn [take forallb]. rewrite (plain_nonws c Hc Hws). cbn [negb andb].
      apply forallb_nonspace; [by apply forallb_take | apply forallb_take_run].
    + apply IH; [by apply (forallb_drop _ (S _) (c :: r))|].
      intros _. cbn [drop]. apply end_of_word_drop_run.
Qed.

Lemma strip_ws_chunk c : forallb is_ws c = true -> strip_is_empty c = true.
Proof.
  unfold strip_is_empty. induction c as [|a c IH]; simpl; [done|].
  intros H. apply andb_prop in H as [Ha Hc].
  by rewrite (is_ws_isspace a Ha), IH.
Qed.

Lemma strip_word_chunk c :
  c <> [] -> forallb (fun x => negb (isspace x)) c = true ->
  strip_is_empty c = false.
Proof.
  destruct c as [|a c]; [done|]. intros _ H. simpl in *.
  apply andb_prop in H as [Ha _]. apply negb_true_iff in Ha. by rewrite Ha.
Qed.

Lemma nonspace_nonws c :
  forallb (fun x => negb (isspace x)) c = true -> forallb nonws c = true.
Proof.
  induction c as [|a c IH]; simpl; [done|]. intros H.
  apply andb_prop in H as [Ha Hc]. rewrite IH by done. rewrite andb_true_r.
  unfold nonws. destruct (is_ws a) eqn:Hws; [|done].
  by rewrite (is_ws_isspace a Hws) in Ha.
Qed.

Lemma alternating_cases aw c rest :
  alternating aw (c :: rest) ->
  c <> []
  /\ ((strip_is_empty c = true /\ forallb is_ws c = true
       /\ alternating false rest)
      \/ (strip_is_empty c = false /\ aw = false /\ forallb nonws c = true
          /\ alternating true rest)).
Proof.
  intros [Hne [[Hws Hr]|(Haw & Hw & Hr)]]; (split; [done|]).
  - left. by rewrite strip_ws_chunk.
  - right. rewrite strip_word_chunk, nonspace_nonws; done.
Qed.

Lemma alternating_weaken aw cs : alternating aw cs -> alternating false cs.
Proof.
  destruct cs as [|c r]; [done|].
  intros [Hne [[Hws Hr]|(Haw & Hw & Hr)]]; (split; [done|]); [left|right]; done.
Qed.

Lemma alternating_app_l aw l1 l2 :
  alternating aw (l1 ++ l2) -> alternating aw l1.
Proof.
  revert aw. induction l1 as [|c l1 IH]; intros aw; [done|].
  intros [Hne [[Hws Hr]|(Haw & Hw & Hr)]]; (split; [done|]).
  - left. split; [done|]. by apply IH.
  - right. repeat split; [done..|]. by apply IH.
Qed.

Lemma alternating_app_r aw l1 l2 :
  alternating aw (l1 ++ l2) -> alternating false l2.
Proof.
  revert aw. induction l1 as [|c l1 IH]; intros aw.
  - apply alternating_weaken.
  - intros [Hne [[Hws Hr]|(Haw & Hw & Hr)]]; by eapply IH.
Qed.

Lemma alternating_true_head cs :
  alternating true cs -> end_of_word (concat cs) = true.
Proof.
  destruct cs as [|c r]; [done|].
  intros [Hne [[Hws _]|(Haw & _)]]; [|done].
  destruct c as [|a c]; [done|]. simpl in *.
  by apply andb_prop in Hws as [-> _].
Qed.

Lemma word_chunks_cons_ws c cs :
  strip_is_empty c = true -> word_chunks (c :: cs) = word_chunks cs.
Proof.
  intros Hc. unfold word_chunks. rewrite filter_cons_False; [done|].
  by rewrite Hc.
Qed.

Lemma word_chunks_cons_word c cs :
  strip_is_empty c = false -> word_chunks (c :: cs) = c :: word_chunks cs.
Proof. intros Hc. unfold word_chunks. by rewrite filter_cons_True. Qed.

Lemma word_chunks_app l1 l2 :
  word_chunks (l1 ++ l2) = word_chunks l1 ++ word_chunks l2.
Proof. apply filter_app. Qed.

(** The words of the text that a list of alternating chunks spells are
    its chunks free of whitespace. *)
Lemma words_concat_alternating aw cs :
  alternating aw cs -> words (concat cs) = word_chunks cs.
Proof.
  revert aw. induction cs as [|c cs IH]; intros aw Halt; [done|].
  apply alternating_cases in Halt
    as [Hne [(Hs & Hws & Hr)|(Hs & _ & Hw & Hr)]]; cbn [concat].
  - rewrite words_ws_app, word_chunks_cons_ws by done. by eapply IH.
  - rewrite words_word_app, word_chunks_cons_word;
      [| done | done | done | by apply alternating_true_head].
    f_equal. by eapply IH.
Qed.

Lemma drop_trailing_ws_words cl :
  alternating false cl ->
  alternating false (drop_trailing_ws cl)
  /\ word_chunks (drop_trailing_ws cl) = word_chunks cl.
Proof.
  intros Halt. unfold drop_trailing_ws.
  destruct (last cl) as [c|] eqn:Hlast; [|done].
  destruct (strip_is_empty c) eqn:Hc; [|done].
  apply last_Some in Hlast as [l' ->]. rewrite removelast_last. split.
  - by eapply alternating_app_l.
  - rewrite word_chunks_app, word_chunks_cons_ws by done.
    by rewrite app_nil_r.
Qed.

Lemma drop_trailing_ws_snoc cl piece :
  strip_is_empty piece = true -> drop_trailing_ws (cl ++ [piece]) = cl.
Proof.
  intros Hp. unfold drop_trailing_ws.
  by rewrite last_snoc, Hp, removelast_last.
Qed.

(** One pass of the outer loop, on alternating chunks whose words fit the
    width, moves whole words from the stack to the new line. *)
Lemma wrap_step_words width lines c rest lines' chunks' :
  1 <= width -> alternating false (c :: rest) ->
  Forall (fits width) (c :: rest) ->
  wrap_step width lines (c :: rest) = (lines', chunks') ->
  alternating false chunks' /\ Forall (fits width) chunks'
  /\ concat (map words lines') ++ word_chunks chunks'
     = concat (map words lines) ++ word_chunks (c :: rest).
Proof.
  intros Hw Halt Hfit. unfold wrap_step.
  set (chunks1 := if strip_is_empty c && nonempty lines then rest else c :: rest).
  assert (H1 : alternating false chunks1 /\ Forall (fits width) chunks1
               /\ word_chunks chunks1 = word_chunks (c :: rest)).
  { subst chunks1. destruct (strip_is_empty c) eqn:Hc; [|done].
    destruct (nonempty lines); [|done]. cbn [andb].
    apply alternating_cases in Halt as [_ [(_ & _ & Hr)|(Hfalse & _)]];
      [|congruence].
    split; [done|]. split; [by inversion Hfit|].
    by rewrite word_chunks_cons_ws. }
  destruct H1 as (Halt1 & Hfit1 & Hwc1). rewrite <- Hwc1.
  destruct (fill_line width 0 chunks1) as [[cur_line cur_len] chunks2] eqn:Hfill.
  apply fill_line_spec in Hfill as (Hsplit & Hlen & Hle & Hhd).
  simpl in Hlen. specialize (Hle ltac:(lia)).
  rewrite Hsplit in Halt1, Hfit1. rewrite Hsplit, word_chunks_app.
  pose proof (alternating_app_l _ _ _ Halt1) as Haltl.
  pose proof (alternating_app_r _ _ _ Halt1) as Haltr.
  apply Forall_app in Hfit1 as [_ Hfit2].
  assert (Hfinish : forall cur_line1 chunks3,
    alternating false (drop_trailing_ws cur_line1) ->
    word_chunks (drop_trailing_ws cur_line1) = word_chunks cur_line ->
    alternating false chunks3 -> Forall (fits width) chunks3 ->
    word_chunks chunks3 = word_chunks chunks2 ->
    (if nonempty (drop_trailing_ws cur_line1)
     then lines ++ [join (drop_trailing_ws cur_line1)] else lines, chunks3)
    = (lines', chunks') ->
    alternating false chunks' /\ Forall (fits width) chunks'
    /\ concat (map words lines') ++ word_chunks chunks'
       = concat (map words lines) ++ word_chunks cur_line ++ word_chunks chunks2).
  { intros cl1 ch3 Haltd Hwcd Halt3 Hfit3 Hwc3 [= <- <-].
    split; [done|]. split; [done|]. rewrite Hwc3.
    rewrite <- Hwcd, app_assoc. f_equal.
    destruct (drop_trailing_ws cl1) as [|c0 cl0] eqn:Hd.
    - by rewrite app_nil_r.
    - cbn [nonempty]. rewrite map_app, concat_app. f_equal.
      cbn [map concat]. rewrite app_nil_r. unfold join.
      by eapply words_concat_alternating. }
  destruct (drop_trailing_ws_words cur_line Haltl) as [Haltd Hwcd].
  destruct chunks2 as [|c2 r2]; [by apply Hfinish|].
  destruct (width <? length c2) eqn:Hlong; [|by apply Hfinish].
  apply Nat.ltb_lt in Hlong. unfold handle_long_word.
  destruct (long_word_cut_bound width cur_len c2) as (Hcut & Hpos & Hlt);
    [lia | lia | lia |].
  apply alternating_cases in Haltr
    as [Hne2 [(Hs2 & Hws2 & Hr2)|(Hs2 & _)]].
  - assert (Hpiece : drop_trailing_ws
                       (cur_line ++ [take (long_word_cut width cur_len c2) c2])
                     = cur_line).
    { apply drop_trailing_ws_snoc. by apply strip_ws_chunk, forallb_take. }
    apply Hfinish; rewrite ?Hpiece; try done.
    + split; [|left; split; [by apply forallb_drop | done]].
      intros Hnil. apply (f_equal length) in Hnil.
      rewrite length_drop in Hnil. simpl in Hnil. lia.
    + inversion Hfit2; subst. constructor; [|done].
      intros Hs. rewrite strip_ws_chunk in Hs; [done|by apply forallb_drop].
    + rewrite !word_chunks_cons_ws; [done | done |].
      by apply strip_ws_chunk, forallb_drop.
  - inversion Hfit2 as [|? ? Hc2 _]; subst. specialize (Hc2 Hs2). lia.
Qed.

Lemma wrap_loop_words fuel width lines chunks out :
  1 <= width -> alternating false chunks -> Forall (fits width) chunks ->
  wrap_loop fuel width lines chunks = Some out ->
  concat (map words out) = concat (map words lines) ++ word_chunks chunks.
Proof.
  intros Hw. revert lines chunks.
  induction fuel as [|fuel IH]; intros lines chunks Halt Hfit.
  - destruct chunks; [|done]. intros [= <-]. by rewrite app_nil_r.
  - destruct chunks as [|c rest].
    + intros [= <-]. by rewrite app_nil_r.
    + cbn [wrap_loop].
      destruct (wrap_step width lines (c :: rest)) as [lines' chunks'] eqn:Hstep.
      apply wrap_step_words in Hstep as (Halt' & Hfit' & Heq); [|done..].
      intros Hloop. rewrite <- Heq. by apply IH.
Qed.

(** A text of plain characters whose words fit the width is wrapped
    without cutting any word: read line by line, the words of the result
    are the words of the text. *)
Lemma wrap_keeps_words text width lines :
  1 <= width -> forallb plain_char text = true ->
  Forall (fun w => length w <= width) (words text) ->
  wrap text width = Ok lines ->
  concat (map words lines) = words text.
Proof.
  intros Hw Hplain Hwords Hwrap. unfold wrap, wrap_chunks in Hwrap.
  rewrite (proj2 (Nat.leb_gt width 0)) in Hwrap by lia.
  destruct (wrap_loop _ _ _ _) as [out|] eqn:Hloop; [|done].
  injection Hwrap as ->. rename Hloop into Hwrap.
  assert (Halt : alternating false (split_chunks text)).
  { apply split_from_alternating; [by apply plain_munge | done]. }
  assert (Hwc : word_chunks (split_chunks text) = words text).
  { rewrite <- (words_concat_alternating _ _ Halt).
    unfold split_chunks. rewrite split_concat. apply words_munge. }
  apply wrap_loop_words in Hwrap; [by rewrite Hwrap, Hwc | done | done |].
  apply Forall_forall. intros c Hc Hs.
  apply (proj1 (Forall_forall _ _) Hwords). rewrite <- Hwc.
  unfold word_chunks. by apply list_elem_of_filter.
Qed.

End TextwrapFacts.

(** ** The characters of the wrapped lines *)

Module WrappedChars.
Import Textwrap TextwrapFacts.

Section Chars.
Variable P : ascii -> Prop.

Lemma fill_line_chars width n chunks line m rest :
  fill_line width n chunks = (line, m, rest) ->
  Forall (Forall P) chunks -> Forall (Forall P) line /\ Forall (Forall P) rest.
Proof.
  intros Hfill Hall. apply fill_line_spec in Hfill as (-> & _).
  by apply Forall_app in Hall.
Qed.

Lemma drop_trailing_ws_chars cur_line :
  Forall (Forall P) cur_line -> Forall (Forall P) (drop_trailing_ws cur_line).
Proof.
  intros Hall. destruct (drop_trailing_ws_prefix cur_line) as [d Hd].
  rewrite Hd in Hall. by apply Forall_app in Hall as [? _].
Qed.

Lemma join_chars (cs : list str) : Forall (Forall P) cs -> Forall P (join cs).
Proof.
  unfold join. induction 1 as [|c cs Hc _ IH]; [constructor|].
  cbn [concat]. by apply Forall_app.
Qed.

(** One pass of the outer loop makes its line of characters of the
    chunks. *)
Lemma wrap_step_chars width lines chunks lines' chunks' :
  Forall (Forall P) chunks -> Forall (Forall P) lines ->
  wrap_step width lines chunks = (lines', chunks') ->
  Forall (Forall P) lines' /\ Forall (Forall P) chunks'.
Proof.
  intros Hch Hlines. unfold wrap_step.
  set (chunks1 := match chunks with
                  | c :: rest =>
                      if strip_is_empty c && nonempty lines then rest else chunks
                  | [] => chunks
                  end).
  assert (Hch1 : Forall (Forall P) chunks1).
  { subst chunks1. destruct chunks as [|c rest]; [done|].
    destruct (_ && _); [by inversion Hch | done]. }
  destruct (fill_line width 0 chunks1) as [[cur_line cur_len] chunks2] eqn:Hfill.
  destruct (fill_line_chars _ _ _ _ _ _ Hfill Hch1) as [Hcur Hrest].
  assert (Hfinish : forall cur_line1 chunks3,
    Forall (Forall P) cur_line1 -> Forall (Forall P) chunks3 ->
    (if nonempty (drop_trailing_ws cur_line1)
     then lines ++ [join (drop_trailing_ws cur_line1)] else lines, chunks3)
    = (lines', chunks') ->
    Forall (Forall P) lines' /\ Forall (Forall P) chunks').
  { intros cl ch Hcl Hc3 [= <- <-]. split; [|done].
    destruct (nonempty (drop_trailing_ws cl)); [|done]. apply Forall_app. split; [done|].
    apply Forall_singleton. by apply join_chars, drop_trailing_ws_chars. }
  destruct chunks2 as [|c2 r2]; [by apply Hfinish; try constructor|].
  destruct (width <? length c2); [|by apply Hfinish].
  unfold handle_long_word. inversion Hrest as [|? ? Hc2 Hr2]; subst.
  apply Hfinish.
  - apply Forall_app. split; [done|]. apply Forall_singleton. by apply Forall_take.
  - constructor; [by apply Forall_drop | done].
Qed.

Lemma wrap_loop_chars fuel width lines chunks out :
  Forall (Forall P) chunks -> Forall (Forall P) lines ->
  wrap_loop fuel width lines chunks = Some out -> Forall (Forall P) out.
Proof.
  revert lines chunks.
  induction fuel as [|fuel IH]; intros lines chunks Hch Hlines.
  - destruct chunks; simpl; [by intros [= <-] | done].
  - destruct chunks as [|c rest]; simpl; [by intros [= <-]|].
    destruct (wrap_step width lines (c :: rest)) as [lines' chunks'] eqn:Hstep.
    destruct (wrap_step_chars _ _ _ _ _ Hch Hlines Hstep). by apply IH.
Qed.

Lemma split_chars text : Forall P text -> Forall (Forall P) (split text).
Proof.
  intros Hall. rewrite <- (split_concat text) in Hall.
  induction (split text) as [|c cs IH]; [constructor|].
  cbn [concat] in Hall. apply Forall_app in Hall as [Hc Hcs].
  constructor; [done | by apply IH].
Qed.

(** A line that [textwrap.wrap] returns is made of characters of the text
    with its whitespace replaced. *)
Lemma wrap_chars text width lines :
  Forall P (munge_whitespace text) -> wrap text width = Ok lines ->
  Forall (Forall P) lines.
Proof.
  intros Hall. unfold wrap, wrap_chunks.
  destruct (width <=? 0); [done|].
  destruct (wrap_loop _ _ _ _) as [out|] eqn:Hloop; [|done].
  intros [= <-].
  eapply wrap_loop_chars; [by apply split_chars | constructor | done].
Qed.

End Chars.

Lemma munge_whitespace_no_newline text :
  Forall (fun c => c <> newline) (munge_whitespace text).
Proof.
  unfold munge_whitespace. apply Forall_map, Forall_forall. intros c _.
  unfold translate. destruct (is_ws c) eqn:Hws; [done|].
  intros ->. by vm_compute in Hws.
Qed.

(** No line that [textwrap.wrap] returns holds a line feed. *)
Lemma wrap_no_newline text width lines :
  wrap text width = Ok lines -> Forall (fun l => newline ∉ l) lines.
Proof.
  intros Hw.
  pose proof (wrap_chars _ text width lines
                (munge_whitespace_no_newline text) Hw) as Hall.
  eapply Forall_impl; [exact Hall|]. intros l Hl Hin.
  by apply (proj1 (Forall_forall _ _) Hl newline Hin).
Qed.

End WrappedChars.

(** ** The log writer *)

Module EnhancedLoggingFacts.
Import Textwrap EnhancedLogging.

Lemma length_spaces n : length (spaces n) = Z.to_nat n.
Proof. apply length_replicate. Qed.

Lemma length_dashes n : length (dashes n) = Z.to_nat n.
Proof. apply length_replicate. Qed.

Lemma length_cell content width :
  (len content <= width)%Z ->
  length (cell content width) = Z.to_nat (width + 3).
Proof.
  intros Hfit. unfold cell, bar, padding, len in *.
  rewrite !length_app, !length_spaces. simpl. lia.
Qed.

Lemma length_blank_cell width :
  (0 <= width)%Z -> length (blank_cell width) = Z.to_nat (width + 3).
Proof.
  intros Hw. unfold blank_cell, bar, padding.
  rewrite length_app, length_spaces. simpl. lia.
Qed.

Lemma format_row_eq values :
  format_row values
  = bar ++ cell (values timestamp) 25 ++ cell (values task) 15
      ++ cell (values function) 30 ++ cell (values file) 25
      ++ cell (values message) 50 ++ cell (values process_type) 15
      ++ cell (values status) 15.
Proof. unfold format_row. cbn [foldl col_widths]. by rewrite <- !app_assoc. Qed.

Lemma continuation_row_eq content :
  continuation_row content
  = bar ++ blank_cell 25 ++ blank_cell 15 ++ blank_cell 30 ++ blank_cell 25
      ++ cell content 50 ++ blank_cell 15 ++ blank_cell 15.
Proof.
  unfold continuation_row. cbn [foldl col_widths].
  repeat (case_bool_decide; [try discriminate | try congruence]).
  by rewrite <- !app_assoc.
Qed.

Lemma create_separator_line_length : length create_separator_line = 197.
Proof. reflexivity. Qed.

(** Both coercions return a member and never raise. *)
Lemma by_value_cases {E} (value_of : E -> str) members v :
  (exists m, by_value value_of members v = Ok m /\ m ∈ members
             /\ value_of m = v)
  \/ (by_value value_of members v = Raise ValueError
      /\ forall m, m ∈ members -> value_of m <> v).
Proof.
  unfold by_value.
  destruct (find _ members) as [m|] eqn:Hfind.
  - left. exists m. apply find_some in Hfind as [Hin Hv].
    apply bool_decide_eq_true in Hv. by rewrite list_elem_of_In.
  - right. split; [done|]. intros m Hin Hv.
    apply list_elem_of_In in Hin.
    pose proof (find_none _ _ Hfind m Hin) as Hno. simpl in Hno.
    by apply bool_decide_eq_false in Hno.
Qed.

Lemma ProcessType_all p : p ∈ ProcessType_members.
Proof. destruct p; unfold ProcessType_members; set_solver. Qed.

Lemma LogStatus_all s : s ∈ LogStatus_members.
Proof. destruct s; unfold LogStatus_members; set_solver. Qed.

Lemma coerce_process_type_returns a :
  exists p, coerce_process_type a = Ok p.
Proof.
  destruct a as [p|t]; simpl; [by eexists|].
  destruct (by_value_cases ProcessType_value ProcessType_members (lower t))
    as [(m & Hm & _)|[Hm _]]; unfold ProcessType_of; rewrite Hm; by eexists.
Qed.

Lemma coerce_status_returns a : exists s, coerce_status a = Ok s.
Proof.
  destruct a as [s|t]; simpl; [by eexists|].
  destruct (by_value_cases LogStatus_value LogStatus_members (lower t))
    as [(m & Hm & _)|[Hm _]]; unfold LogStatus_of; rewrite Hm; by eexists.
Qed.

(** [wrap_message] returns at least one line, none longer than the
    message column. *)
Lemma wrap_message_returns msg :
  exists wrapped,
    wrap msg 50 = Ok wrapped
    /\ wrap_message msg = Ok (if nonempty wrapped then wrapped else [[]])
    /\ Forall (fun l => length l <= 50) wrapped.
Proof.
  destruct (TextwrapFacts.wrap_total msg 50 ltac:(lia)) as (wrapped & Hw & Hlen).
  exists wrapped. split; [done|]. split; [|done].
  unfold wrap_message. change (Z.to_nat message_width) with 50.
  by rewrite Hw.
Qed.

(** What a call does when the log file can be opened: the text of the
    record is appended and the record is mirrored to [logging]. *)
Lemma log_entry_appends self now callers fn msg a b task_name w p s lines :
  log_file self ∉ FS.denied (fs w) ->
  coerce_process_type a = Ok p -> coerce_status b = Ok s ->
  wrap_message msg = Ok lines ->
  exists w',
    log_entry self now callers fn msg a b task_name w = Ok w'
    /\ FS.read (log_file self) (fs w')
       = FS.read (log_file self) (fs w)
         ++ entry_text (values_of self now callers fn p s task_name lines) lines s
    /\ console w'
       = console w
         ++ [(get_log_level s,
              default (project_name self) task_name ++ lit " - " ++ fn
                ++ lit ": " ++ msg)]
    /\ exit_handlers w' = exit_handlers w.
Proof.
  intros Hopen Hp Hs Hlines. unfold log_entry.
  rewrite Hp, Hs. cbn [mbind result_bind]. rewrite Hlines.
  cbn [mbind result_bind]. unfold FS.append.
  rewrite bool_decide_eq_false_2 by done. cbn [mbind result_bind].
  eexists. split; [reflexivity|].
  split; [|done].
  unfold FS.read at 1. cbn. rewrite lookup_insert_eq. cbn.
  f_equal.
Qed.

Lemma log_entry_denied self now callers fn msg a b task_name w :
  log_file self ∈ FS.denied (fs w) ->
  log_entry self now callers fn msg a b task_name w = Raise OSError.
Proof.
  intros Hdenied. unfold log_entry.
  destruct (coerce_process_type_returns a) as [p ->].
  destruct (coerce_status_returns b) as [s ->].
  destruct (wrap_message_returns msg) as (wrapped & _ & -> & _).
  cbn [mbind result_bind]. unfold FS.append.
  by rewrite bool_decide_eq_true_2.
Qed.

(** C1 (the code departs from it): a call whose log file cannot be opened
    does not return normally.  [open] raises [OSError] inside [log_entry],
    no handler surrounds the [with] block, and the exception reaches the
    caller, whatever the arguments; the severity wrappers only forward
    the call and raise with it. *)
Theorem log_entry_open_failure_propagates
    self now callers fn msg a b task_name w :
  log_file self ∈ FS.denied (fs w) ->
  log_entry self now callers fn msg a b task_name w = Raise OSError
  /\ log_info self now callers fn msg a w = Raise OSError
  /\ log_success self now callers fn msg a w = Raise OSError
  /\ log_warning self now callers fn msg a w = Raise OSError
  /\ log_error self now callers fn msg a w = Raise OSError
  /\ log_critical self now callers fn msg a w = Raise OSError
  /\ (debug_mode self = true ->
      log_debug self now callers fn msg a w = Raise OSError).
Proof.
  intros Hdenied.
  unfold log_info, log_success, log_warning, log_error, log_critical, log_debug.
  repeat split; try (by apply log_entry_denied).
  intros ->. by apply log_entry_denied.
Qed.

Lemma log_entry_open_failure_propagates_witness :
  (log_file Sample.logger ∈ FS.denied (fs Sample.world_denied))
  /\ log_entry Sample.logger Sample.clock Sample.stack (lit "main")
       (lit "hello") (Member SYSTEM) (Member INFO) None Sample.world_denied
     = Raise OSError.
Proof.
  assert (H : log_file Sample.logger ∈ FS.denied (fs Sample.world_denied)).
  { vm_compute. reflexivity. }
  split; [exact H|].
  exact (proj1 (log_entry_open_failure_propagates Sample.logger Sample.clock
                  Sample.stack (lit "main") (lit "hello") (Member SYSTEM)
                  (Member INFO) None Sample.world_denied H)).
Defined.

Lemma ProcessType_value_inj p q :
  ProcessType_value p = ProcessType_value q -> p = q.
Proof. destruct p, q; (done || (intros H; vm_compute in H; discriminate)). Qed.

Lemma LogStatus_value_inj p q :
  LogStatus_value p = LogStatus_value q -> p = q.
Proof. destruct p, q; (done || (intros H; vm_compute in H; discriminate)). Qed.

Lemma log_entry_object_known self now callers fn msg a b task_name w :
  log_entry_object self now callers fn msg (Known a) (Known b) task_name w
  = log_entry self now callers fn msg a b task_name w.
Proof. reflexivity. Qed.

(** C3 (as stated it fails): a value that is neither a member nor a
    string is not coerced.  On an object without the attribute [lower],
    such as [None] or a number, [.lower()] raises [AttributeError], which
    the [except ValueError] of the validation does not catch, and the call
    raises. *)
Lemma log_entry_status_without_lower_raises :
  validate_process_type NoLower = Raise AttributeError
  /\ validate_status NoLower = Raise AttributeError
  /\ log_entry_object Sample.logger Sample.clock Sample.stack (lit "main")
       (lit "hello") (Known (Member SYSTEM)) NoLower None
       (Sample.world_with [])
     = Raise AttributeError
  /\ log_entry_object Sample.logger Sample.clock Sample.stack (lit "main")
       (lit "hello") NoLower (Known (Member INFO)) None
       (Sample.world_with [])
     = Raise AttributeError.
Proof. repeat split; reflexivity. Qed.

(** C3 (amended): whatever member or string is passed for [process_type] and
    [status], the validation in [log_entry] returns a member of each
    enumeration without raising: a string whose lower-case form is the
    value of a member gives that member, any other string gives [SYSTEM],
    respectively [INFO], and the call goes on as if the members had been
    passed. *)
Theorem enum_arguments_coerced (a : arg ProcessType) (b : arg LogStatus) :
  exists p s,
    coerce_process_type a = Ok p /\ coerce_status b = Ok s
    /\ p ∈ ProcessType_members /\ s ∈ LogStatus_members
    /\ (forall t, a = Text t ->
          (forall m, ProcessType_value m = lower t -> p = m)
          /\ ((forall m, ProcessType_value m <> lower t) -> p = SYSTEM))
    /\ (forall t, b = Text t ->
          (forall m, LogStatus_value m = lower t -> s = m)
          /\ ((forall m, LogStatus_value m <> lower t) -> s = INFO))
    /\ (forall self now callers fn msg task_name w,
          log_entry self now callers fn msg a b task_name w
          = log_entry self now callers fn msg (Member p) (Member s)
              task_name w).
Proof.
  assert (Hp : exists p, coerce_process_type a = Ok p
    /\ forall t, a = Text t ->
         (forall m, ProcessType_value m = lower t -> p = m)
         /\ ((forall m, ProcessType_value m <> lower t) -> p = SYSTEM)).
  { destruct a as [p|t]; simpl; [by eexists|].
    unfold ProcessType_of.
    destruct (by_value_cases ProcessType_value ProcessType_members (lower t))
      as [(m & Hm & _ & Hv)|[Hm Hno]]; rewrite Hm; simpl.
    - exists m. split; [done|]. intros ? [= <-]. split.
      + intros m' Hm'. apply ProcessType_value_inj. congruence.
      + intros Hnone. by destruct (Hnone m).
    - exists SYSTEM. split; [done|]. intros ? [= <-]. split; [|done].
      intros m' Hm'. destruct (Hno m' (ProcessType_all m') Hm'). }
  assert (Hs : exists s, coerce_status b = Ok s
    /\ forall t, b = Text t ->
         (forall m, LogStatus_value m = lower t -> s = m)
         /\ ((forall m, LogStatus_value m <> lower t) -> s = INFO)).
  { destruct b as [s|t]; simpl; [by eexists|].
    unfold LogStatus_of.
    destruct (by_value_cases LogStatus_value LogStatus_members (lower t))
      as [(m & Hm & _ & Hv)|[Hm Hno]]; rewrite Hm; simpl.
    - exists m. split; [done|]. intros ? [= <-]. split.
      + intros m' Hm'. apply LogStatus_value_inj. congruence.
      + intros Hnone. by destruct (Hnone m).
    - exists INFO. split; [done|]. intros ? [= <-]. split; [|done].
      intros m' Hm'. destruct (Hno m' (LogStatus_all m') Hm'). }
  destruct Hp as (p & Hp & Hpt). destruct Hs as (s & Hs & Hst).
  exists p, s. repeat split; try done.
  - apply ProcessType_all.
  - apply LogStatus_all.
  - by apply Hpt.
  - by apply Hpt.
  - by apply Hst.
  - by apply Hst.
  - intros. unfold log_entry. by rewrite Hp, Hs.
Qed.

Lemma enum_arguments_coerced_witness :
  coerce_process_type (Text (lit "Speech")) = Ok SPEECH
  /\ coerce_status (Text (lit "fatal")) = Ok INFO.
Proof.
  destruct (enum_arguments_coerced (Text (lit "Speech")) (Text (lit "fatal")))
    as (p & s & Hp & Hs & _ & _ & Hpt & Hst & _).
  destruct (Hpt _ eq_refl) as [Hrec _]. destruct (Hst _ eq_refl) as [_ Hfall].
  rewrite Hp, Hs, (Hrec SPEECH eq_refl), Hfall; [done|].
  intros []; vm_compute; discriminate.
Defined.

Lemma lines_text_cons r rows : lines_text (r :: rows) = (r ++ nl) ++ lines_text rows.
Proof. reflexivity. Qed.

Lemma lines_text_map {A} (f : A -> str) l :
  lines_text (map f l) = concat (map (fun x => f x ++ nl) l).
Proof. unfold lines_text. by rewrite map_map. Qed.

Lemma entry_text_rows values lines s :
  entry_text values lines s
  = lines_text (format_row values :: map continuation_row (tail lines))
    ++ (if bool_decide (s = CRITICAL) then create_separator_line ++ nl else []).
Proof.
  unfold entry_text. rewrite lines_text_cons, lines_text_map.
  by rewrite <- !app_assoc.
Qed.

Lemma values_of_fit self now callers fn p s task_name lines name :
  Forall (fun l => length l <= 50) lines ->
  (len (values_of self now callers fn p s task_name lines name)
   <= width_of name)%Z.
Proof.
  intros Hlines. unfold values_of, entry_values, slice_to, len.
  destruct name; cbn [width_of]; rewrite ?length_take; try lia.
  destruct lines as [|l ?]; simpl; [lia|].
  inversion Hlines; subst. lia.
Qed.

Lemma length_format_row values :
  (forall name, (len (values name) <= width_of name)%Z) ->
  length (format_row values) = 197.
Proof.
  intros Hfit. rewrite format_row_eq, !length_app.
  rewrite !length_cell
    by first [ exact (Hfit timestamp) | exact (Hfit task)
             | exact (Hfit function) | exact (Hfit file)
             | exact (Hfit message) | exact (Hfit process_type)
             | exact (Hfit status) ].
  reflexivity.
Qed.

Lemma length_continuation_row content :
  length content <= 50 -> length (continuation_row content) = 197.
Proof.
  intros Hfit. rewrite continuation_row_eq, !length_app.
  rewrite !length_blank_cell by lia.
  rewrite length_cell by (unfold len; lia). reflexivity.
Qed.

Lemma not_elem_of_replicate_ne {A} (x y : A) n : x <> y -> x ∉ replicate n y.
Proof. intros Hne Hin. by apply elem_of_replicate in Hin as [? _]. Qed.

Lemma cell_no_newline content width :
  newline ∉ content -> newline ∉ cell content width.
Proof.
  intros Hc. unfold cell, spaces, bar. rewrite !elem_of_app.
  intros [Hin|[Hin|[Hin|Hin]]]; [|done| |].
  - by apply not_elem_of_replicate_ne in Hin.
  - by apply not_elem_of_replicate_ne in Hin.
  - by apply list_elem_of_singleton in Hin.
Qed.

Lemma blank_cell_no_newline width : newline ∉ blank_cell width.
Proof.
  unfold blank_cell, spaces, bar. rewrite elem_of_app. intros [Hin|Hin].
  - by apply not_elem_of_replicate_ne in Hin.
  - by apply list_elem_of_singleton in Hin.
Qed.

Lemma format_row_no_newline values :
  (forall name, newline ∉ values name) -> newline ∉ format_row values.
Proof.
  intros Hv. rewrite format_row_eq. unfold bar. rewrite !elem_of_app.
  intros [Hin|[Hin|[Hin|[Hin|[Hin|[Hin|[Hin|Hin]]]]]]];
    try (by eapply cell_no_newline; [apply Hv | exact Hin]).
  by apply list_elem_of_singleton in Hin.
Qed.

Lemma continuation_row_no_newline content :
  newline ∉ content -> newline ∉ continuation_row content.
Proof.
  intros Hc. rewrite continuation_row_eq. unfold bar. rewrite !elem_of_app.
  intros [Hin|[Hin|[Hin|[Hin|[Hin|[Hin|[Hin|Hin]]]]]]];
    try (by eapply blank_cell_no_newline; exact Hin).
  - by apply list_elem_of_singleton in Hin.
  - by eapply cell_no_newline; [exact Hc | exact Hin].
Qed.

Lemma not_elem_of_take {A} (x : A) n l : x ∉ l -> x ∉ take n l.
Proof. intros Hno Hin. apply Hno. eapply elem_of_sublist; [exact Hin|]. apply sublist_take. Qed.

(** Lines that hold no line feed are determined by the text they make. *)
Lemma lines_text_inj rows rows' :
  Forall (fun r => newline ∉ r) rows -> Forall (fun r => newline ∉ r) rows' ->
  lines_text rows = lines_text rows' -> rows = rows'.
Proof.
  assert (Hline : forall r r' t t',
    newline ∉ r -> newline ∉ r' ->
    r ++ newline :: t = r' ++ newline :: t' -> r = r' /\ t = t').
  { induction r as [|c r IH]; intros r' t t' Hr Hr' Heq.
    - destruct r' as [|c' r']; [by injection Heq|].
      injection Heq as <- _. destruct Hr'. by left.
    - destruct r' as [|c' r'].
      + injection Heq as -> _. destruct Hr. by left.
      + injection Heq as <- Heq. apply not_elem_of_cons in Hr as [_ Hr].
        apply not_elem_of_cons in Hr' as [_ Hr'].
        destruct (IH _ _ _ Hr Hr' Heq) as [-> ->]. done. }
  intros Hrows. revert rows'.
  induction Hrows as [|r rows Hr _ IH]; intros rows' Hrows' Heq.
  - destruct rows' as [|r' rows']; [done|].
    rewrite lines_text_cons in Heq. by destruct r'.
  - destruct rows' as [|r' rows'].
    { rewrite lines_text_cons in Heq. by destruct r. }
    inversion Hrows' as [|? ? Hr' Hrest]; subst.
    rewrite !lines_text_cons in Heq. unfold nl in Heq.
    rewrite <- !app_assoc in Heq. cbn [app] in Heq.
    destruct (Hline _ _ _ _ Hr Hr' Heq) as [-> Ht].
    f_equal. by apply IH.
Qed.

Lemma cell_padded_Z content (width : Z) :
  (len content <= width)%Z ->
  cell content width
  = [space] ++ content
      ++ replicate (Z.to_nat width + 1 - length content) space ++ lit "|".
Proof.
  intros Hfit. unfold cell, spaces, padding, bar, len in *.
  replace (Z.to_nat (width - Z.of_nat (length content) + 1))
    with (Z.to_nat width + 1 - length content) by lia.
  reflexivity.
Qed.

(** The rows of a record hold a line feed only if a field does. *)
Lemma entry_rows_no_newline self now callers fn p s task_name wrapped :
  Forall (fun l => newline ∉ l) wrapped ->
  newline ∉ now -> newline ∉ default (project_name self) task_name ->
  newline ∉ fn -> newline ∉ source_file_of callers ->
  Forall (fun r => newline ∉ r)
    (format_row
       (values_of self now callers fn p s task_name
          (if nonempty wrapped then wrapped else [[]]))
     :: map continuation_row (tail (if nonempty wrapped then wrapped else [[]]))).
Proof.
  intros Hw Hnow Htask Hfn Hfile.
  assert (Hlines : Forall (fun l => newline ∉ l)
                     (if nonempty wrapped then wrapped else [[]])).
  { destruct wrapped; [|done]. apply Forall_singleton, not_elem_of_nil. }
  set (lines := if nonempty wrapped then wrapped else [[]]) in *.
  constructor.
  - apply format_row_no_newline. intros name.
    unfold values_of, entry_values, slice_to.
    destruct name; try (by apply not_elem_of_take).
    + destruct lines as [|l ?]; [apply not_elem_of_nil|]. by inversion Hlines.
    + apply not_elem_of_take. destruct p; vm_compute; intros Hin;
        repeat (apply elem_of_cons in Hin as [Hin|Hin]; [discriminate|]);
        by apply elem_of_nil in Hin.
    + apply not_elem_of_take. destruct s; vm_compute; intros Hin;
        repeat (apply elem_of_cons in Hin as [Hin|Hin]; [discriminate|]);
        by apply elem_of_nil in Hin.
  - apply Forall_map, Forall_forall. intros l Hl.
    apply continuation_row_no_newline.
    apply (proj1 (Forall_forall _ _) Hlines).
    destruct lines; [done|]. by right.
Qed.

Lemma separator_no_newline : newline ∉ create_separator_line.
Proof. apply (bool_decide_unpack _). vm_compute. exact I. Qed.

(** The first row of a record, cell by cell. *)
Lemma first_row_cells self now callers fn p s task_name wrapped :
  format_row
    (values_of self now callers fn p s task_name
       (if nonempty wrapped then wrapped else [[]]))
  = bar ++ cell (take 25 now) 25
      ++ cell (take 15 (default (project_name self) task_name)) 15
      ++ cell (take 30 fn) 30 ++ cell (take 25 (source_file_of callers)) 25
      ++ cell (default [] (head wrapped)) 50
      ++ cell (take 15 (ProcessType_value p)) 15
      ++ cell (take 15 (LogStatus_value s)) 15.
Proof. rewrite format_row_eq. by destruct wrapped. Qed.

(** C4: when the log file can be opened, one call of [log_entry] returns
    and appends one full row followed by one continuation row for each
    wrapped line of the message after the first, [1 + max(0, n - 1)] rows
    for [n] wrapped lines, each 197 characters wide like the separator of
    the header.  The full row is a bar followed by the seven cells, each a
    space, the field cut to the width of its column (in the message
    column, the first wrapped line), spaces up to the width plus one, and
    a bar.  A continuation row is made of blank cells of the widths of
    the columns, except for the message cell, which holds the wrapped
    line padded to the column.  No wrapped line holds a line feed: when
    the time stamp, the task, the function name and the file name hold
    none either, every row is one line of the file. *)
Theorem log_entry_row_count self now callers fn msg a b task_name w :
  log_file self ∉ FS.denied (fs w) ->
  exists wrapped p s w' row conts,
    wrap msg 50 = Ok wrapped
    /\ coerce_process_type a = Ok p /\ coerce_status b = Ok s
    /\ log_entry self now callers fn msg a b task_name w = Ok w'
    /\ FS.read (log_file self) (fs w')
       = FS.read (log_file self) (fs w) ++ lines_text (row :: conts)
         ++ (if bool_decide (s = CRITICAL)
             then create_separator_line ++ nl else [])
    /\ length (row :: conts) = 1 + Nat.max 0 (length wrapped - 1)
    /\ Forall (fun r => length r = 197) (row :: conts)
    /\ (let field := fun (width : nat) (value : str) =>
          [space] ++ take width value
            ++ replicate (width + 1 - length (take width value)) space
            ++ lit "|" in
        row = lit "|" ++ field 25 now
                ++ field 15 (default (project_name self) task_name)
                ++ field 30 fn ++ field 25 (source_file_of callers)
                ++ ([space] ++ default [] (head wrapped)
                      ++ replicate (51 - length (default [] (head wrapped)))
                           space
                      ++ lit "|")
                ++ field 15 (ProcessType_value p)
                ++ field 15 (LogStatus_value s))
    /\ (forall i line, wrapped !! S i = Some line ->
          conts !! i
          = Some (lit "|" ++ replicate 27 space ++ lit "|"
                  ++ replicate 17 space ++ lit "|"
                  ++ replicate 32 space ++ lit "|"
                  ++ replicate 27 space ++ lit "|"
                  ++ [space] ++ line ++ replicate (51 - length line) space
                  ++ lit "|"
                  ++ replicate 17 space ++ lit "|"
                  ++ replicate 17 space ++ lit "|"))
    /\ (newline ∉ now -> newline ∉ default (project_name self) task_name ->
        newline ∉ fn -> newline ∉ source_file_of callers ->
        Forall (fun r => newline ∉ r) (row :: conts)).
Proof.
  intros Hopen.
  destruct (wrap_message_returns msg) as (wrapped & Hwrap & Hmsg & Hlen).
  destruct (coerce_process_type_returns a) as [p Hp].
  destruct (coerce_status_returns b) as [s Hs].
  pose proof (entry_rows_no_newline self now callers fn p s task_name wrapped
                (WrappedChars.wrap_no_newline _ _ _ Hwrap)) as Hnl.
  pose proof (first_row_cells self now callers fn p s task_name wrapped)
    as Hrow.
  set (lines := if nonempty wrapped then wrapped else [[]]) in *.
  assert (Hlines : Forall (fun l => length l <= 50) lines).
  { subst lines. destruct wrapped; [|done]. repeat constructor. }
  destruct (log_entry_appends self now callers fn msg a b task_name w p s lines
              Hopen Hp Hs Hmsg) as (w' & Hcall & Hfile & _).
  exists wrapped, p, s, w',
    (format_row (values_of self now callers fn p s task_name lines)),
    (map continuation_row (tail lines)).
  rewrite entry_text_rows in Hfile.
  split; [done|]. split; [done|]. split; [done|]. split; [done|].
  split; [done|]. split; [|split; [|split; [|split; [|done]]]].
  - cbn [length]. rewrite length_map. subst lines.
    destruct wrapped; simpl; lia.
  - constructor.
    + apply length_format_row. intros name. by apply values_of_fit.
    + apply Forall_map, Forall_forall. intros l Hl.
      apply length_continuation_row.
      apply (proj1 (Forall_forall _ _) Hlines).
      destruct lines; [done|]. by right.
  - cbv zeta. rewrite Hrow.
    assert (Hhead : length (default [] (head wrapped)) <= 50).
    { destruct wrapped as [|l ?]; [simpl; lia|]. by inversion Hlen. }
    rewrite !cell_padded_Z
      by (unfold len; rewrite ?length_take; lia).
    unfold bar. rewrite <- !app_assoc. reflexivity.
  - intros i line Hi.
    assert (Htail : tail lines !! i = Some line).
    { subst lines. destruct wrapped; [done|]. exact Hi. }
    rewrite list_lookup_fmap, Htail. cbn [fmap option_fmap option_map].
    f_equal. rewrite continuation_row_eq.
    assert (Hline : length line <= 50).
    { apply (proj1 (Forall_forall _ _) Hlen).
      apply list_elem_of_lookup. eauto. }
    unfold blank_cell, cell, spaces, padding, bar, len.
    replace (Z.to_nat (50 - Z.of_nat (length line) + 1)) with (51 - length line)
      by lia.
    rewrite <- !app_assoc. reflexivity.
Qed.

Lemma log_entry_row_count_witness :
  (log_file Sample.logger ∉ FS.denied (fs (Sample.world_with [])))
  /\ exists (wrapped : list str) p s w' (row : str) (conts : list str),
    wrap (lit "hello") 50 = Ok wrapped
    /\ coerce_process_type (Member UI) = Ok p
    /\ coerce_status (Member INFO) = Ok s
    /\ log_entry Sample.logger Sample.clock Sample.stack (lit "main")
         (lit "hello") (Member UI) (Member INFO) None (Sample.world_with [])
       = Ok w'
    /\ length (row :: conts) = 1 + Nat.max 0 (length wrapped - 1).
Proof.
  assert (H : log_file Sample.logger ∉ FS.denied (fs (Sample.world_with []))).
  { vm_compute. discriminate. }
  destruct (log_entry_row_count Sample.logger Sample.clock Sample.stack
              (lit "main") (lit "hello") (Member UI) (Member INFO) None
              (Sample.world_with []) H)
    as (wrapped & p & s & w' & row & conts & H1 & H2 & H3 & H4 & _ & H6 & _).
  split; [exact H|].
  exists wrapped, p, s, w', row, conts.
  exact (conj H1 (conj H2 (conj H3 (conj H4 H6)))).
Defined.

Lemma cut_to_take width value : cut_to width value (take width value).
Proof.
  repeat split.
  - intros Hlong. rewrite length_take. lia.
  - intros Hshort. by apply take_ge.
Qed.

(** C5: when the log file can be opened, the first row that [log_entry]
    writes holds, in every column but the message, the field cut to the
    width of the column: a field longer than the width appears as exactly
    that many characters, a shorter one whole.  The message is not cut:
    its column holds the first wrapped line and the remaining wrapped
    lines follow in the continuation rows. *)
Theorem log_entry_truncates_fields self now callers fn msg a b task_name w :
  log_file self ∉ FS.denied (fs w) ->
  exists wrapped p s w' c_timestamp c_task c_function c_file c_process c_status,
    wrap msg 50 = Ok wrapped
    /\ coerce_process_type a = Ok p /\ coerce_status b = Ok s
    /\ log_entry self now callers fn msg a b task_name w = Ok w'
    /\ cut_to 25 now c_timestamp
    /\ cut_to 15 (default (project_name self) task_name) c_task
    /\ cut_to 30 fn c_function
    /\ cut_to 25 (source_file_of callers) c_file
    /\ cut_to 15 (ProcessType_value p) c_process
    /\ cut_to 15 (LogStatus_value s) c_status
    /\ FS.read (log_file self) (fs w')
       = FS.read (log_file self) (fs w)
         ++ lines_text
              ((bar ++ cell c_timestamp 25 ++ cell c_task 15
                  ++ cell c_function 30 ++ cell c_file 25
                  ++ cell (default [] (head wrapped)) 50
                  ++ cell c_process 15 ++ cell c_status 15)
               :: map continuation_row (tail wrapped))
         ++ (if bool_decide (s = CRITICAL)
             then create_separator_line ++ nl else []).
Proof.
  intros Hopen.
  destruct (wrap_message_returns msg) as (wrapped & Hwrap & Hmsg & Hlen).
  destruct (coerce_process_type_returns a) as [p Hp].
  destruct (coerce_status_returns b) as [s Hs].
  set (lines := if nonempty wrapped then wrapped else [[]]) in *.
  destruct (log_entry_appends self now callers fn msg a b task_name w p s lines
              Hopen Hp Hs Hmsg) as (w' & Hcall & Hfile & _).
  exists wrapped, p, s, w'.
  do 6 eexists.
  split; [done|]. split; [done|]. split; [done|]. split; [done|].
  do 6 (split; [apply cut_to_take|]).
  rewrite Hfile, entry_text_rows, format_row_eq.
  subst lines. by destruct wrapped.
Qed.

Lemma log_entry_truncates_fields_witness :
  (log_file Sample.logger ∉ FS.denied (fs (Sample.world_with [])))
  /\ exists c_function w',
       cut_to 30 (lit "a_function_name_longer_than_thirty_characters")
         c_function
       /\ length c_function = 30
       /\ log_entry Sample.logger Sample.clock Sample.stack
            (lit "a_function_name_longer_than_thirty_characters")
            (lit "hello") (Member UI) (Member INFO) None (Sample.world_with [])
          = Ok w'.
Proof.
  assert (H : log_file Sample.logger ∉ FS.denied (fs (Sample.world_with []))).
  { vm_compute. discriminate. }
  split; [exact H|].
  destruct (log_entry_truncates_fields Sample.logger Sample.clock Sample.stack
              (lit "a_function_name_longer_than_thirty_characters")
              (lit "hello") (Member UI) (Member INFO) None
              (Sample.world_with []) H)
    as (wrapped & p & s & w' & c1 & c2 & c3 & c4 & c5 & c6 & _ & _ & _ & Hcall
        & _ & _ & Hcut & _).
  exists c3, w'. split; [exact Hcut|]. split; [|exact Hcall].
  destruct Hcut as (_ & Hlong & _). apply Hlong. vm_compute. lia.
Defined.

Lemma head_format_row values : head (format_row values) = Some "|"%char.
Proof. by rewrite format_row_eq. Qed.

Lemma head_continuation_row content :
  head (continuation_row content) = Some "|"%char.
Proof. by rewrite continuation_row_eq. Qed.

(** C8: when the log file can be opened, the text that [log_entry]
    appends is the rows of the record, the full row and the continuation
    rows, each 197 characters wide and starting with a bar, none of them
    the separator, followed by exactly one separator line (197
    characters, starting with a plus sign) if the coerced status is
    [CRITICAL], and by nothing otherwise.  When no field holds a line
    feed, the lines appended to the file are exactly these: the rows,
    then one separator for a critical record and none for another. *)
Theorem critical_entry_separator self now callers fn msg a b task_name w :
  log_file self ∉ FS.denied (fs w) ->
  exists wrapped p s w' rows,
    wrap msg 50 = Ok wrapped
    /\ coerce_process_type a = Ok p /\ coerce_status b = Ok s
    /\ log_entry self now callers fn msg a b task_name w = Ok w'
    /\ rows
       = (bar ++ cell (take 25 now) 25
            ++ cell (take 15 (default (project_name self) task_name)) 15
            ++ cell (take 30 fn) 30
            ++ cell (take 25 (source_file_of callers)) 25
            ++ cell (default [] (head wrapped)) 50
            ++ cell (take 15 (ProcessType_value p)) 15
            ++ cell (take 15 (LogStatus_value s)) 15)
         :: map continuation_row (tail wrapped)
    /\ Forall (fun r => head r = Some "|"%char /\ length r = 197) rows
    /\ head create_separator_line = Some "+"%char
    /\ length create_separator_line = 197
    /\ (create_separator_line ∉ rows)
    /\ (s = CRITICAL ->
        FS.read (log_file self) (fs w')
        = FS.read (log_file self) (fs w) ++ lines_text rows
          ++ lines_text [create_separator_line])
    /\ (s <> CRITICAL ->
        FS.read (log_file self) (fs w')
        = FS.read (log_file self) (fs w) ++ lines_text rows)
    /\ (newline ∉ now -> newline ∉ default (project_name self) task_name ->
        newline ∉ fn -> newline ∉ source_file_of callers ->
        forall written,
          Forall (fun l => newline ∉ l) written ->
          FS.read (log_file self) (fs w')
          = FS.read (log_file self) (fs w) ++ lines_text written ->
          written
          = rows ++ (if bool_decide (s = CRITICAL)
                     then [create_separator_line] else [])).
Proof.
  intros Hopen.
  destruct (wrap_message_returns msg) as (wrapped & Hwrap & Hmsg & Hlen).
  destruct (coerce_process_type_returns a) as [p Hp].
  destruct (coerce_status_returns b) as [s Hs].
  pose proof (entry_rows_no_newline self now callers fn p s task_name wrapped
                (WrappedChars.wrap_no_newline _ _ _ Hwrap)) as Hnl.
  pose proof (first_row_cells self now callers fn p s task_name wrapped)
    as Hrow.
  set (lines := if nonempty wrapped then wrapped else [[]]) in *.
  assert (Hlines : Forall (fun l => length l <= 50) lines).
  { subst lines. destruct wrapped; [|done]. repeat constructor. }
  assert (Htail : tail lines = tail wrapped).
  { subst lines. by destruct wrapped. }
  destruct (log_entry_appends self now callers fn msg a b task_name w p s lines
              Hopen Hp Hs Hmsg) as (w' & Hcall & Hfile & _).
  rewrite entry_text_rows in Hfile.
  set (rows := format_row (values_of self now callers fn p s task_name lines)
               :: map continuation_row (tail lines)) in *.
  assert (Hrows : Forall (fun r => head r = Some "|"%char /\ length r = 197)
                    rows).
  { subst rows. constructor.
    - split; [apply head_format_row|].
      apply length_format_row. intros name. by apply values_of_fit.
    - apply Forall_map, Forall_forall. intros l Hl.
      split; [apply head_continuation_row|].
      apply length_continuation_row.
      apply (proj1 (Forall_forall _ _) Hlines).
      destruct lines; [done|]. by right. }
  exists wrapped, p, s, w', rows.
  split; [done|]. split; [done|]. split; [done|]. split; [done|].
  split; [subst rows; by rewrite Hrow, Htail|].
  split; [done|]. split; [done|]. split; [done|]. split.
  { intros Hin. apply (proj1 (Forall_forall _ _) Hrows) in Hin as [Hhead _].
    discriminate Hhead. }
  split; [|split].
  - intros ->. rewrite Hfile. rewrite bool_decide_eq_true_2 by done.
    change (lines_text [create_separator_line])
      with ((create_separator_line ++ nl) ++ []).
    by rewrite app_nil_r.
  - intros Hs'. rewrite Hfile. rewrite bool_decide_eq_false_2 by done.
    by rewrite app_nil_r.
  - intros Hnow Htask Hfn Hsrc written Hwritten Hread.
    specialize (Hnl Hnow Htask Hfn Hsrc).
    rewrite Hfile in Hread. apply app_inv_head in Hread.
    apply lines_text_inj; [done| |].
    + apply Forall_app. split; [done|]. destruct (bool_decide _); [|done].
      apply Forall_singleton, separator_no_newline.
    + rewrite <- Hread. unfold lines_text. rewrite map_app, concat_app.
      f_equal. destruct (bool_decide _); [|done]. cbn. by rewrite app_nil_r.
Qed.

Lemma critical_entry_separator_witness :
  (log_file Sample.logger ∉ FS.denied (fs (Sample.world_with [])))
  /\ exists w' rows,
       log_entry Sample.logger Sample.clock Sample.stack (lit "main")
         (lit "disk failure") (Member CORE) (Text (lit "CRITICAL")) None
         (Sample.world_with []) = Ok w'
       /\ FS.read Sample.path (fs w')
          = lines_text rows ++ lines_text [create_separator_line].
Proof.
  assert (H : log_file Sample.logger ∉ FS.denied (fs (Sample.world_with []))).
  { vm_compute. discriminate. }
  split; [exact H|].
  destruct (critical_entry_separator Sample.logger Sample.clock Sample.stack
              (lit "main") (lit "disk failure") (Member CORE)
              (Text (lit "CRITICAL")) None (Sample.world_with []) H)
    as (wrapped & p & s & w' & rows & _ & _ & Hs & Hcall & _ & _ & _ & _ & _
        & Hcrit & _).
  exists w', rows. split; [exact Hcall|].
  assert (s = CRITICAL) as Hscrit.
  { vm_compute in Hs. by injection Hs. }
  exact (Hcrit Hscrit).
Defined.

(** C2 (as stated it fails): a word longer than the message column is cut.
    The message made of 51 letters is one word, and it is wrapped into a
    line of 50 letters and a line of one letter. *)
Lemma wrap_message_cuts_long_word :
  words (replicate 51 "a"%char) = [replicate 51 "a"%char]
  /\ wrap_message (replicate 51 "a"%char)
     = Ok [replicate 50 "a"%char; ["a"%char]].
Proof. split; reflexivity. Qed.

(** C2 (amended): for a message whose characters are plain (no hyphen, no
    whitespace other than the six characters [textwrap] knows) and whose
    words are at most 50 characters long, the wrapping returns lines of
    at most 50 characters that break only at whitespace and cut no word:
    read line by line, the words of the lines are the words of the
    message.  The empty message gives exactly one empty line. *)
Theorem wrap_message_keeps_words msg :
  forallb plain_char msg = true ->
  Forall (fun w => length w <= 50) (words msg) ->
  exists lines,
    wrap_message msg = Ok lines
    /\ concat (map words lines) = words msg
    /\ Forall (fun l => length l <= 50) lines
    /\ (msg = [] -> lines = [[]]).
Proof.
  intros Hplain Hwords.
  destruct (wrap_message_returns msg) as (wrapped & Hwrap & Hmsg & Hlen).
  eexists. split; [exact Hmsg|].
  pose proof (TextwrapFacts.wrap_keeps_words msg 50 wrapped ltac:(lia)
                Hplain Hwords Hwrap) as Hkeep.
  split; [|split].
  - rewrite <- Hkeep. by destruct wrapped.
  - destruct wrapped; [|done]. repeat constructor.
  - intros ->. vm_compute in Hwrap. by injection Hwrap as <-.
Qed.

Lemma wrap_message_keeps_words_witness :
  forallb plain_char (lit "hello wide world") = true
  /\ Forall (fun w => length w <= 50) (words (lit "hello wide world"))
  /\ exists lines,
       wrap_message (lit "hello wide world") = Ok lines
       /\ concat (map words lines) = words (lit "hello wide world").
Proof.
  assert (H1 : forallb plain_char (lit "hello wide world") = true)
    by reflexivity.
  assert (H2 : Forall (fun w => length w <= 50)
                 (words (lit "hello wide world"))).
  { replace (words (lit "hello wide world"))
      with [lit "hello"; lit "wide"; lit "world"] by (vm_compute; reflexivity).
    repeat (constructor; [vm_compute; lia|]). constructor. }
  split; [exact H1|]. split; [exact H2|].
  destruct (wrap_message_keeps_words (lit "hello wide world") H1 H2)
    as (lines & Hl & Hw & _).
  exact (ex_intro _ lines (conj Hl Hw)).
Defined.

Lemma closing_text_footer now : closing_text now = footer now.
Proof.
  unfold closing_text, footer, lines_text, spaces. cbn [map concat].
  by rewrite <- !app_assoc.
Qed.

Lemma read_written path text contents denied :
  FS.read path (FS.mk (<[path := text]> contents) denied) = text.
Proof.
  change (default [] (<[path := text]> contents !! path) = text).
  by rewrite lookup_insert_eq.
Qed.

(** One run of the finalizer on a log file that exists and can be
    opened. *)
Lemma add_closing_line_appends self now w :
  log_file self <> [] ->
  is_Some (FS.contents (fs w) !! log_file self) ->
  log_file self ∉ FS.denied (fs w) ->
  FS.read (log_file self) (fs (add_closing_line self now w))
  = FS.read (log_file self) (fs w) ++ footer now
  /\ is_Some (FS.contents (fs (add_closing_line self now w)) !! log_file self)
  /\ FS.denied (fs (add_closing_line self now w)) = FS.denied (fs w)
  /\ console (add_closing_line self now w) = console w
  /\ exit_handlers (add_closing_line self now w) = exit_handlers w.
Proof.
  intros Hpath Hexists Hopen. unfold add_closing_line, FS.exists_, FS.append.
  destruct (log_file self) as [|c path] eqn:Hp; [done|].
  cbn [nonempty andb].
  rewrite bool_decide_eq_true_2, bool_decide_eq_false_2 by done.
  rewrite closing_text_footer.
  change (fs (with_fs w ?f)) with f.
  rewrite read_written.
  split; [reflexivity|]. split; [|by split].
  eexists. apply lookup_insert_eq.
Qed.

(** The finalizer never raises: on a log file that is missing or cannot
    be opened it leaves everything as it is. *)
Lemma add_closing_line_swallows self now w :
  FS.contents (fs w) !! log_file self = None
  \/ log_file self ∈ FS.denied (fs w) ->
  add_closing_line self now w = w.
Proof.
  intros Hcase. unfold add_closing_line, FS.exists_, FS.append.
  destruct (nonempty (log_file self)); [|done]. cbn [andb].
  case_bool_decide as Hex; [|done].
  destruct Hcase as [Hnone|Hdenied].
  - rewrite Hnone in Hex. by destruct Hex.
  - by rewrite bool_decide_eq_true_2.
Qed.

(** C9 (as stated it fails): the finalizer has no guard against a second
    run.  Run twice on an empty log file, it leaves two footer blocks in
    the file, not one. *)
Lemma add_closing_line_twice_two_footers :
  FS.read Sample.path
    (fs (add_closing_line Sample.logger Sample.clock
           (add_closing_line Sample.logger Sample.clock
              (Sample.world_with []))))
  = footer Sample.clock ++ footer Sample.clock
  /\ footer Sample.clock ++ footer Sample.clock <> footer Sample.clock.
Proof.
  split; [vm_compute; reflexivity|].
  intros H. apply (f_equal length) in H. vm_compute in H. discriminate.
Qed.

(** C9 (amended): every run of the finalizer on a log file that exists and
    can be opened appends exactly one footer block (separator, closing
    line, separator) and touches nothing else; a second run appends a
    second block. *)
Theorem add_closing_line_one_footer_per_run self now1 now2 w :
  log_file self <> [] ->
  is_Some (FS.contents (fs w) !! log_file self) ->
  log_file self ∉ FS.denied (fs w) ->
  FS.read (log_file self) (fs (add_closing_line self now1 w))
  = FS.read (log_file self) (fs w) ++ footer now1
  /\ FS.read (log_file self)
       (fs (add_closing_line self now2 (add_closing_line self now1 w)))
     = FS.read (log_file self) (fs w) ++ footer now1 ++ footer now2.
Proof.
  intros Hpath Hexists Hopen.
  destruct (add_closing_line_appends self now1 w Hpath Hexists Hopen)
    as (Hread & Hex1 & Hden1 & _).
  split; [done|].
  destruct (add_closing_line_appends self now2 (add_closing_line self now1 w))
    as (Hread2 & _); [done | done | by rewrite Hden1 |].
  by rewrite Hread2, Hread, <- app_assoc.
Qed.

Lemma add_closing_line_one_footer_per_run_witness :
  log_file Sample.logger <> []
  /\ is_Some (FS.contents (fs (Sample.world_with [])) !! log_file Sample.logger)
  /\ (log_file Sample.logger ∉ FS.denied (fs (Sample.world_with [])))
  /\ FS.read (log_file Sample.logger)
       (fs (add_closing_line Sample.logger Sample.clock (Sample.world_with [])))
     = FS.read (log_file Sample.logger) (fs (Sample.world_with []))
       ++ footer Sample.clock.
Proof.
  assert (H1 : log_file Sample.logger <> []) by discriminate.
  assert (H2 : is_Some (FS.contents (fs (Sample.world_with []))
                          !! log_file Sample.logger)).
  { exists []. vm_compute. reflexivity. }
  assert (H3 : log_file Sample.logger ∉ FS.denied (fs (Sample.world_with []))).
  { vm_compute. discriminate. }
  split; [exact H1|]. split; [exact H2|]. split; [exact H3|].
  exact (proj1 (add_closing_line_one_footer_per_run Sample.logger Sample.clock
                  Sample.clock (Sample.world_with []) H1 H2 H3)).
Defined.

Lemma log_entry_keeps_handlers self now callers fn msg a b task_name w w' :
  log_entry self now callers fn msg a b task_name w = Ok w' ->
  exit_handlers w' = exit_handlers w.
Proof.
  unfold log_entry.
  destruct (coerce_process_type a) as [p| |]; [|done..].
  destruct (coerce_status b) as [s| |]; [|done..].
  cbn [mbind result_bind].
  destruct (wrap_message msg) as [lines| |]; [|done..].
  cbn [mbind result_bind].
  destruct (FS.append _ _ _) as [f| |]; [|done..].
  cbn [mbind result_bind]. by intros [= <-].
Qed.

Lemma log_info_keeps_handlers self now callers fn msg a w w' :
  log_info self now callers fn msg a w = Ok w' ->
  exit_handlers w' = exit_handlers w.
Proof. apply log_entry_keeps_handlers. Qed.

(** The construction of a writer registers its finalizer once. *)
Lemma setup_logging_registers_once project log_dir stamp now callers w self w' :
  setup_logging project log_dir stamp now callers w = Ok (self, w') ->
  exit_handlers w' = self :: exit_handlers w.
Proof.
  unfold setup_logging.
  generalize (lit "Iniciado logger para " ++ project ++ lit " v" ++ APP_VERSION).
  generalize (path_join log_dir (project ++ lit "_" ++ stamp ++ lit ".log")).
  generalize create_header. generalize (lit "setup_logging").
  intros fn header path msg.
  destruct (FS.overwrite _ _ _) as [f| |]; [|done..].
  cbn [mbind result_bind].
  destruct (log_info _ _ _ _ _ _ _) as [w2| |] eqn:Hinfo; [|done..].
  cbn [mbind result_bind]. intros [= <- <-].
  exact (log_info_keeps_handlers _ _ _ _ _ _ _ _ Hinfo).
Qed.

Lemma log_entry_keeps_file self now callers fn msg a b task_name w w' :
  log_entry self now callers fn msg a b task_name w = Ok w' ->
  is_Some (FS.contents (fs w') !! log_file self)
  /\ FS.denied (fs w') = FS.denied (fs w)
  /\ (log_file self ∉ FS.denied (fs w)).
Proof.
  unfold log_entry.
  destruct (coerce_process_type a) as [p| |]; [|done..].
  destruct (coerce_status b) as [s| |]; [|done..].
  cbn [mbind result_bind].
  destruct (wrap_message msg) as [lines| |]; [|done..].
  cbn [mbind result_bind]. unfold FS.append.
  case_bool_decide as Hden; [done|].
  cbn [mbind result_bind]. intros [= <-].
  change (fs (emit ?l ?t (with_fs w ?f))) with f. cbn [FS.contents FS.denied].
  split; [|done]. eexists. apply lookup_insert_eq.
Qed.

Lemma path_join_nonempty a b : b <> [] -> path_join a b <> [].
Proof.
  intros Hb. unfold path_join.
  destruct (at_is_slash b 0); [done|].
  destruct (_ || _); by destruct a, b.
Qed.

(** A process that builds one writer and then leaves: the finalizer runs
    once and the log file ends with one footer block. *)
Lemma construct_then_exit_one_footer
    project log_dir stamp now callers w self w' now' :
  exit_handlers w = [] ->
  setup_logging project log_dir stamp now callers w = Ok (self, w') ->
  FS.read (log_file self) (fs (process_exit now' w'))
  = FS.read (log_file self) (fs w') ++ footer now'.
Proof.
  intros Hnone Hsetup.
  pose proof (setup_logging_registers_once _ _ _ _ _ _ _ _ Hsetup) as Hreg.
  unfold process_exit. rewrite Hreg, Hnone. cbn [run_exit_handlers].
  revert Hsetup. unfold setup_logging.
  generalize (lit "Iniciado logger para " ++ project ++ lit " v" ++ APP_VERSION).
  generalize create_header. generalize (lit "setup_logging").
  intros fn header msg.
  destruct (FS.overwrite _ _ _) as [f| |]; [|done..].
  cbn [mbind result_bind].
  destruct (log_info _ _ _ _ _ _ _) as [w2| |] eqn:Hinfo; [|done..].
  cbn [mbind result_bind]. intros [= <- <-].
  apply log_entry_keeps_file in Hinfo as (Hex & Hden & Hopen).
  apply add_closing_line_appends; [|done|by rewrite Hden].
  apply path_join_nonempty. by destruct project.
Qed.

End EnhancedLoggingFacts.

(** ** The settings store *)

Module ConfigFacts.
Import Config.

(** C6 (the code departs from it): [load_settings] copies
    [DEFAULT_SETTINGS] one level deep, so an earlier load has written the
    user's theme into the section shared with [DEFAULT_SETTINGS].  Once
    the user removes the key from the file, the next load fills it with
    that value, not with the compiled-in default. *)
Theorem load_settings_fills_from_polluted_defaults :
  lookup_path (store (snd Sample.reloaded)) (VRef (fst Sample.reloaded))
       [lit "general"; lit "theme"]
     = Some (VStr (lit "dark"))
  /\ lookup_path initial_heap (VRef DEFAULT_SETTINGS)
       [lit "general"; lit "theme"]
     = Some (VStr (lit "system")).
Proof. split; vm_compute; reflexivity. Qed.

(** A missing key of a dictionary on the path gives the fallback. *)
Lemma navigate_missing_key h l part rest default_ :
  getitem h l part = None ->
  navigate h (VRef l) (part :: rest) default_ = Ok default_.
Proof.
  intros Hnone. cbn [navigate contains mbind result_bind].
  rewrite Hnone. rewrite bool_decide_eq_false_2; [done|].
  by intros [? ?].
Qed.

Lemma get_setting_nonexistent_path default_ denied :
  fst (get_setting (lit "nonexistent.path") default_ (fresh None denied))
  = Ok default_.
Proof. destruct denied; vm_compute; reflexivity. Qed.

(** With no settings file and a file that can be written, the value set
    at a dotted path is the value read back. *)
Lemma set_then_get_language :
  fst (set_setting (lit "speech_recognition.language") (JStr (lit "en-US"))
         (fresh None false))
  = Ok true
  /\ fst (get_setting (lit "speech_recognition.language") VNone
            (snd (set_setting (lit "speech_recognition.language")
                    (JStr (lit "en-US")) (fresh None false))))
     = Ok (VStr (lit "en-US")).
Proof. split; vm_compute; reflexivity. Qed.

(** C7 (the code departs from it): a path that goes on below a setting
    that is a number does not give the fallback.  [part in current] is
    evaluated on the integer [100] and raises [TypeError], which
    [get_setting] does not catch. *)
Theorem get_setting_below_number_raises default_ denied :
  fst (get_setting (lit "general.max_history_items.x") default_
         (fresh None denied))
  = Raise TypeError.
Proof. destruct denied; vm_compute; reflexivity. Qed.

(** *** The shallow copy: what a load changes in the store *)

Lemma json_induction (P : json -> Prop) :
  P JNull -> (forall b, P (JBool b)) -> (forall n, P (JInt n)) ->
  (forall m e, P (JFloat m e)) -> (forall s, P (JStr s)) ->
  (forall items, P (JList items)) ->
  (forall items, Forall (fun kv => P kv.2) items -> P (JDict items)) ->
  forall j, P j.
Proof.
  intros Hnull Hbool Hint Hfloat Hstr Hlist Hdict.
  fix IH 1.
  intros [|b|n|m e|s|items|items];
    [ exact Hnull | apply Hbool | apply Hint | apply Hfloat | apply Hstr
    | apply Hlist | ].
  apply Hdict. induction items as [|[k j] rest IHrest]; constructor.
  - apply IH.
  - exact IHrest.
Qed.

Lemma dict_get_set_eq key v d : dict_get key (dict_set key v d) = Some v.
Proof.
  induction d as [|[k x] rest IH]; simpl.
  - by rewrite bool_decide_eq_true_2.
  - case_bool_decide as Hk; simpl.
    + by rewrite bool_decide_eq_true_2.
    + by rewrite bool_decide_eq_false_2.
Qed.

Lemma dict_get_set_ne key key' v d :
  key <> key' -> dict_get key' (dict_set key v d) = dict_get key' d.
Proof.
  intros Hne. induction d as [|[k x] rest IH]; simpl.
  - by rewrite bool_decide_eq_false_2.
  - case_bool_decide as Hk; simpl.
    + subst. by rewrite !bool_decide_eq_false_2.
    + case_bool_decide; [done|exact IH].
Qed.

Lemma dict_set_elem key v d k x :
  (k, x) ∈ dict_set key v d -> (k = key /\ x = v) \/ (k, x) ∈ d.
Proof.
  induction d as [|[k0 x0] rest IH]; simpl.
  - intros Hin. apply list_elem_of_singleton in Hin as [= -> ->]. by left.
  - case_bool_decide as Hk.
    + intros Hin. apply elem_of_cons in Hin as [[= -> ->]|Hin]; [by left|].
      right. by apply elem_of_cons; right.
    + intros Hin. apply elem_of_cons in Hin as [[= -> ->]|Hin].
      * right. by apply elem_of_cons; left.
      * destruct (IH Hin) as [?|?]; [by left|].
        right. by apply elem_of_cons; right.
Qed.

Lemma dict_get_elem key v d : dict_get key d = Some v -> (key, v) ∈ d.
Proof.
  induction d as [|[k x] rest IH]; simpl; [done|].
  case_bool_decide as Hk.
  - intros [= ->]. subst. by apply elem_of_cons; left.
  - intros H. apply elem_of_cons; right. by apply IH.
Qed.

Lemma getitem_setitem_eq h l key v :
  l < length h -> getitem (setitem l key v h) l key = Some v.
Proof.
  intros Hl. unfold getitem, setitem.
  destruct (lookup_lt_is_Some_2 h l Hl) as [d Hd]. rewrite Hd.
  rewrite list_lookup_insert_eq by done. apply dict_get_set_eq.
Qed.

Lemma getitem_setitem_ne_key h l key key' v :
  key <> key' -> getitem (setitem l key v h) l key' = getitem h l key'.
Proof.
  intros Hne. unfold getitem, setitem.
  destruct (h !! l) as [d|] eqn:Hd; [|by rewrite Hd].
  rewrite list_lookup_insert_eq by (by eapply lookup_lt_Some).
  by apply dict_get_set_ne.
Qed.

Lemma lookup_setitem_ne h l key v x :
  x <> l -> setitem l key v h !! x = h !! x.
Proof.
  intros Hne. unfold setitem. destruct (h !! l); [|done].
  by apply list_lookup_insert_ne.
Qed.

Lemma lookup_setitem_eq h l key v d :
  h !! l = Some d -> setitem l key v h !! l = Some (dict_set key v d).
Proof.
  intros Hd. unfold setitem. rewrite Hd.
  apply list_lookup_insert_eq. by eapply lookup_lt_Some.
Qed.

Lemma length_setitem h l key v : length (setitem l key v h) = length h.
Proof. unfold setitem. destruct (h !! l); [|done]. apply length_insert. Qed.

Lemma to_value_dict items h :
  to_value (JDict items) h
  = (VRef (length (to_items items h).2),
     (to_items items h).2 ++ [(to_items items h).1]).
Proof.
  cbn [to_value].
  assert (Hfix : forall h,
    (fix build (items : list (str * json)) (h : heap) : pydict * heap :=
       match items with
       | [] => ([], h)
       | (k, j') :: rest =>
           let '(v, h1) := to_value j' h in
           let '(d, h2) := build rest h1 in
           ((k, v) :: d, h2)
       end) items h = to_items items h).
  { induction items as [|[k j] rest IH]; intros h0; [done|].
    cbn [to_items]. destruct (to_value j h0) as [v h1]. by rewrite IH. }
  rewrite Hfix. by destruct (to_items items h) as [d h'].
Qed.

Lemma update_nested_dict_items base items h :
  update_nested_dict base (JDict items) h
  = foldl (fun h kv => update_item base kv.1 kv.2 h) h items.
Proof.
  revert h. induction items as [|[k v] rest IH]; intros h; [done|].
  cbn [foldl fst snd]. rewrite <- IH. reflexivity.
Qed.

Lemma update_nested_dict_other base j h :
  is_dict j = false -> update_nested_dict base j h = h.
Proof. by destruct j. Qed.

Lemma to_value_scalar j h : is_dict j = false -> to_value j h = (scalar_of j, h).
Proof. by destruct j. Qed.

Lemma update_item_cases base key value_ h :
  (exists sub, getitem h base key = Some (VRef sub) /\ is_dict value_ = true
               /\ update_item base key value_ h
                  = update_nested_dict sub value_ h)
  \/ update_item base key value_ h
     = setitem base key (to_value value_ h).1 (to_value value_ h).2.
Proof.
  unfold update_item.
  destruct (getitem h base key) as [[| | | | | |sub]|];
    try (right; by destruct (to_value value_ h)).
  destruct (is_dict value_) eqn:Hd.
  - left. exists sub. by destruct value_.
  - right. destruct value_; try done; by destruct (to_value _ h).
Qed.

Lemma to_items_grows items :
  Forall (fun kv => forall h,
            grows h (to_value kv.2 h).2 (Some (to_value kv.2 h).1)) items ->
  forall h,
    exists extra,
      (to_items items h).2 = h ++ extra
      /\ (forall d x, d ∈ extra -> refers d x ->
            length h <= x /\ x < length h + length extra)
      /\ (forall x, refers (to_items items h).1 x ->
            length h <= x /\ x < length h + length extra).
Proof.
  induction 1 as [|[k j] rest Hj _ IH]; intros h.
  - exists []. cbn. rewrite app_nil_r. split; [done|].
    split; [by intros ? ? ?%elem_of_nil|]. by intros ? [? ?%elem_of_nil].
  - cbn [to_items]. simpl in Hj.
    destruct (Hj h) as (e1 & He1 & Hd1 & Hv1).
    destruct (to_value j h) as [v h1]. simpl in He1, Hv1. subst h1.
    destruct (IH (h ++ e1)) as (e2 & He2 & Hd2 & Hr2).
    destruct (to_items rest (h ++ e1)) as [d h2]. simpl in *. subst h2.
    exists (e1 ++ e2). rewrite app_assoc. split; [done|].
    rewrite length_app in *. split.
    + intros d0 x Hin Hx. apply elem_of_app in Hin as [Hin|Hin].
      * destruct (Hd1 d0 x Hin Hx). lia.
      * destruct (Hd2 d0 x Hin Hx). lia.
    + intros x [k0 Hin]. apply elem_of_cons in Hin as [[= -> <-]|Hin].
      * destruct (Hv1 x eq_refl). lia.
      * destruct (Hr2 x (ex_intro _ k0 Hin)). lia.
Qed.

Lemma to_value_grows j :
  forall h, grows h (to_value j h).2 (Some (to_value j h).1).
Proof.
  induction j as [|b|n|m e|s|items|items IH] using json_induction; intros h;
    try (exists []; cbn; rewrite app_nil_r; split; [done|];
         split; [by intros ? ? ?%elem_of_nil | by intros ? [=]]).
  rewrite to_value_dict. cbn [fst snd].
  destruct (to_items_grows items IH h) as (extra & He & Hd & Hr).
  rewrite He. exists (extra ++ [(to_items items h).1]).
  rewrite app_assoc, !length_app. cbn [length]. split; [done|]. split.
  - intros d x Hin Hx. apply elem_of_app in Hin as [Hin|Hin].
    + destruct (Hd d x Hin Hx). lia.
    + apply list_elem_of_singleton in Hin as ->. destruct (Hr x Hx). lia.
  - intros x [= <-]. lia.
Qed.

Lemma getitem_ext h h' l key :
  h' !! l = h !! l -> getitem h' l key = getitem h l key.
Proof. unfold getitem. by intros ->. Qed.

Lemma getitem_refers h l key x :
  getitem h l key = Some (VRef x) ->
  exists d, h !! l = Some d /\ refers d x.
Proof.
  unfold getitem. destruct (h !! l) as [d|]; [|done].
  intros Hget. exists d. split; [done|]. exists key. by apply dict_get_elem.
Qed.

Section Frame.
Variable P : loc -> Prop.

Lemma closed_grows h h' v :
  bounded P h -> closed P h -> grows h h' v ->
  bounded P h' /\ closed P h' /\ length h <= length h'
  /\ (forall x, x < length h -> h' !! x = h !! x)
  /\ (forall x, v = Some (VRef x) -> ~ P x).
Proof.
  intros Hb Hc (extra & -> & Hd & Hv). rewrite length_app.
  split; [|split; [|split; [lia|split]]].
  - intros x Hx. specialize (Hb x Hx). rewrite length_app. lia.
  - intros l d x Hl HnP Hr.
    destruct (decide (l < length h)) as [Hlt|Hge].
    + rewrite lookup_app_l in Hl by done. by eapply Hc.
    + assert (d ∈ extra) as Hin.
      { rewrite lookup_app_r in Hl by lia.
        apply list_elem_of_lookup. eauto. }
      destruct (Hd d x Hin Hr) as [Hlo _].
      intros HP. specialize (Hb x HP). lia.
  - intros x Hx. by rewrite lookup_app_l.
  - intros x Hx HP. destruct (Hv x Hx) as [Hlo _]. specialize (Hb x HP). lia.
Qed.

Lemma closed_setitem h base key v :
  closed P h -> (~ P base -> forall x, v = VRef x -> ~ P x) ->
  closed P (setitem base key v h).
Proof.
  intros Hc Hv l d x Hl HnP Hr.
  destruct (decide (l = base)) as [->|Hne].
  - destruct (h !! base) as [d0|] eqn:Hb.
    + rewrite (lookup_setitem_eq _ _ _ _ _ Hb) in Hl. injection Hl as <-.
      destruct Hr as [k Hin].
      apply dict_set_elem in Hin as [[_ Heq]|Hin].
      * by eapply Hv.
      * eapply Hc; [exact Hb | done | by exists k].
    + unfold setitem in Hl. rewrite Hb in Hl. congruence.
  - rewrite lookup_setitem_ne in Hl by done. by eapply Hc.
Qed.

(** The branch of [update_item] that stores the value. *)
Lemma store_frame h base key value_ :
  bounded P h -> closed P h ->
  let h' := setitem base key (to_value value_ h).1 (to_value value_ h).2 in
  bounded P h' /\ closed P h' /\ length h <= length h'
  /\ (forall x, x <> base -> x < length h -> h' !! x = h !! x)
  /\ (base < length h ->
      (forall k, k <> key -> getitem h' base k = getitem h base k)
      /\ (forall x, getitem h' base key = Some (VRef x) -> ~ P x)).
Proof.
  intros Hb Hc h'. subst h'.
  destruct (closed_grows h _ _ Hb Hc (to_value_grows value_ h))
    as (Hb1 & Hc1 & Hlen & Hold & Hfresh).
  split; [|split; [|split; [|split]]].
  - intros x Hx. rewrite length_setitem. by apply Hb1.
  - apply closed_setitem; [done|]. intros _ x Hx. apply Hfresh. by rewrite Hx.
  - by rewrite length_setitem.
  - intros x Hne Hlt. rewrite lookup_setitem_ne by done. by apply Hold.
  - intros Hbase. split.
    + intros k Hk. rewrite getitem_setitem_ne_key by done.
      apply getitem_ext. by apply Hold.
    + intros x. rewrite getitem_setitem_eq by lia.
      intros [= Hx]. apply Hfresh. by rewrite Hx.
Qed.

(** A merge below a dictionary outside [P] changes no dictionary of
    [P]. *)
Lemma update_nested_dict_frame j :
  forall base h,
    bounded P h -> closed P h -> ~ P base ->
    bounded P (update_nested_dict base j h)
    /\ closed P (update_nested_dict base j h)
    /\ length h <= length (update_nested_dict base j h)
    /\ (forall x, P x -> update_nested_dict base j h !! x = h !! x).
Proof.
  induction j as [|b|n|m e|s|items|items IH] using json_induction;
    intros base h Hb Hc Hbase;
    try (rewrite update_nested_dict_other by done; repeat split; done).
  rewrite update_nested_dict_items.
  revert h Hb Hc.
  induction IH as [|[k v] rest Hv _ IHrest]; intros h Hb Hc.
  { repeat split; done. }
  cbn [foldl fst snd].
  assert (Hstep : bounded P (update_item base k v h)
                  /\ closed P (update_item base k v h)
                  /\ length h <= length (update_item base k v h)
                  /\ (forall x, P x -> update_item base k v h !! x = h !! x)).
  { destruct (update_item_cases base k v h) as [(sub & Hget & _ & ->)| ->].
    - apply Hv; [done | done |].
      apply getitem_refers in Hget as (d & Hd & Hr). by eapply Hc.
    - destruct (store_frame h base k v Hb Hc) as (? & ? & ? & Hfr & _).
      repeat split; try done.
      intros x Hx. apply Hfr; [by intros -> | by apply Hb]. }
  destruct Hstep as (Hb1 & Hc1 & Hlen1 & Hfr1).
  destruct (IHrest _ Hb1 Hc1) as (Hb2 & Hc2 & Hlen2 & Hfr2).
  repeat split; [done | done | lia |].
  intros x Hx. by rewrite Hfr2, Hfr1.
Qed.

(** The items of a merge into a dictionary of [P], their keys all in
    [K], leave the values at the other keys and the other dictionaries of
    [P] as they are. *)
Lemma merge_keeps base (K : str -> Prop) items :
  forall h,
    bounded P h -> closed P h -> P base ->
    (forall k, k ∈ items.*1 -> K k) ->
    leads_out P base K h ->
    let h' := foldl (fun h kv => update_item base kv.1 kv.2 h) h items in
    bounded P h' /\ closed P h' /\ length h <= length h'
    /\ (forall k0, ~ K k0 -> getitem h' base k0 = getitem h base k0)
    /\ (forall x, P x -> x <> base -> h' !! x = h !! x)
    /\ leads_out P base K h'.
Proof.
  induction items as [|[k v] rest IH]; intros h Hb Hc Hbase Hkeys Hout h'.
  { subst h'. repeat split; done. }
  subst h'. cbn [foldl fst snd].
  assert (Hk : K k).
  { apply Hkeys. rewrite fmap_cons. by apply elem_of_cons; left. }
  assert (Hrest : forall k', k' ∈ rest.*1 -> K k').
  { intros k' Hin. apply Hkeys. rewrite fmap_cons. by apply elem_of_cons; right. }
  assert (Hstep : bounded P (update_item base k v h)
                  /\ closed P (update_item base k v h)
                  /\ length h <= length (update_item base k v h)
                  /\ (forall k0, ~ K k0 ->
                        getitem (update_item base k v h) base k0
                        = getitem h base k0)
                  /\ (forall x, P x -> x <> base ->
                        update_item base k v h !! x = h !! x)
                  /\ leads_out P base K (update_item base k v h)).
  { destruct (update_item_cases base k v h) as [(sub & Hget & _ & ->)| ->].
    - destruct (update_nested_dict_frame v sub h Hb Hc)
        as (Hb1 & Hc1 & Hlen1 & Hfr1); [by eapply Hout|].
      repeat split; try done.
      + intros k0 _. apply getitem_ext. by apply Hfr1.
      + intros x Hx _. by apply Hfr1.
      + intros k' x Hk'. rewrite (getitem_ext h) by (by apply Hfr1).
        by apply Hout.
    - destruct (store_frame h base k v Hb Hc) as (? & ? & ? & Hfr & Hkeys').
      destruct (Hkeys' (Hb base Hbase)) as [Hother Hnew].
      repeat split; try done.
      + intros k0 Hk0. apply Hother. by intros ->.
      + intros x Hx Hxb. apply Hfr; [done | by apply Hb].
      + intros k' x Hk'. destruct (decide (k' = k)) as [->|Hkk].
        * apply Hnew.
        * rewrite Hother by done. by apply Hout. }
  destruct Hstep as (Hb1 & Hc1 & Hlen1 & Hget1 & Hfr1 & Hout1).
  destruct (IH _ Hb1 Hc1 Hbase Hrest Hout1)
    as (Hb2 & Hc2 & Hlen2 & Hget2 & Hfr2 & Hout2).
  repeat split; [done | done | lia | | | done].
  - intros k0 Hk0. by rewrite Hget2, Hget1.
  - intros x Hx Hxb. by rewrite Hfr2, Hfr1.
Qed.

Lemma assoc_split key (v : json) items :
  assoc key items = Some v -> NoDup items.*1 ->
  exists pre post,
    items = pre ++ (key, v) :: post
    /\ (key ∉ pre.*1) /\ (key ∉ post.*1).
Proof.
  induction items as [|[k j] rest IH]; [done|].
  cbn [assoc]. rewrite fmap_cons. cbn [fst]. intros Hassoc Hnd.
  apply NoDup_cons in Hnd as [Hk Hnd].
  case_bool_decide as Hkey.
  - injection Hassoc as ->. subst k. exists [], rest.
    split; [done|]. split; [apply not_elem_of_nil | done].
  - destruct (IH Hassoc Hnd) as (pre & post & -> & Hpre & Hpost).
    exists ((k, j) :: pre), post. split; [done|]. split; [|done].
    rewrite fmap_cons. cbn [fst]. apply not_elem_of_cons. split; [congruence|done].
Qed.

Lemma assoc_none key (items : list (str * json)) :
  assoc key items = None -> key ∉ items.*1.
Proof.
  induction items as [|[k j] rest IH]; [intros _; apply not_elem_of_nil|].
  cbn [assoc]. case_bool_decide as Hkey; [done|]. intros Hnone.
  rewrite fmap_cons. cbn [fst]. apply not_elem_of_cons.
  split; [congruence | by apply IH].
Qed.

(** The merge of a mapping into a dictionary of [P] whose keys all lead
    outside [P]. *)
Lemma section_merge ls sub h :
  bounded P h -> closed P h -> P ls ->
  leads_out P ls (fun _ => True) h ->
  let h' := update_nested_dict ls (JDict sub) h in
  bounded P h' /\ closed P h' /\ length h <= length h'
  /\ (forall x, P x -> x <> ls -> h' !! x = h !! x)
  /\ (forall key, key ∉ sub.*1 -> getitem h' ls key = getitem h ls key)
  /\ (forall key v, NoDup sub.*1 -> assoc key sub = Some v ->
        is_dict v = false -> getitem h' ls key = Some (scalar_of v)).
Proof.
  intros Hb Hc Hls Hout h'. subst h'. rewrite update_nested_dict_items.
  destruct (merge_keeps ls (fun _ => True) sub h Hb Hc Hls) as
    (Hb' & Hc' & Hlen' & _ & Hfr' & _); [done | done |].
  split; [done|]. split; [done|]. split; [done|]. split; [done|]. split.
  - intros key Hkey.
    destruct (merge_keeps ls (fun k => k <> key) sub h Hb Hc Hls) as
      (_ & _ & _ & Hget & _).
    + intros k Hin ->. done.
    + intros k x _. by apply Hout.
    + apply Hget. by intros Hne.
  - intros key v Hnd Hassoc Hv.
    destruct (assoc_split key v sub Hassoc Hnd)
      as (pre & post & -> & Hpre & Hpost).
    rewrite foldl_app. cbn [foldl fst snd].
    destruct (merge_keeps ls (fun k => k <> key) pre h Hb Hc Hls) as
      (Hb1 & Hc1 & Hlen1 & _ & _ & Hout1).
    { intros k Hin ->. done. }
    { intros k x _. by apply Hout. }
    set (h1 := foldl _ h pre) in *.
    assert (Hstore : update_item ls key v h1 = setitem ls key (scalar_of v) h1).
    { destruct (update_item_cases ls key v h1) as [(? & _ & Hd & _)| ->].
      - congruence.
      - by rewrite to_value_scalar. }
    rewrite Hstore.
    destruct (store_frame h1 ls key v Hb1 Hc1) as (Hb2 & Hc2 & _ & _ & Hkeys).
    rewrite to_value_scalar in Hb2, Hc2, Hkeys by done. cbn [fst snd] in *.
    destruct (Hkeys (Hb1 ls Hls)) as [Hother Hnew].
    destruct (merge_keeps ls (fun k => k <> key) post
                (setitem ls key (scalar_of v) h1) Hb2 Hc2 Hls) as
      (_ & _ & _ & Hget & _).
    { intros k Hin ->. done. }
    { intros k x Hk. rewrite Hother by done. by apply Hout1. }
    rewrite Hget by (by intros Hne).
    apply getitem_setitem_eq. by apply Hb1.
Qed.

(** The merge of a document into a dictionary [M] of [P] that shares the
    dictionary [ls] with others: what becomes of [ls]. *)
Lemma top_merge M sec ls items h :
  bounded P h -> closed P h -> P M -> P ls -> ls <> M -> NoDup items.*1 ->
  getitem h M sec = Some (VRef ls) ->
  leads_out P M (fun k => k <> sec) h ->
  leads_out P ls (fun _ => True) h ->
  let h' := update_nested_dict M (JDict items) h in
  (assoc sec items = None ->
     (forall x, P x -> x <> M -> h' !! x = h !! x)
     /\ getitem h' M sec = Some (VRef ls))
  /\ (forall sub, assoc sec items = Some (JDict sub) ->
        (forall x, P x -> x <> M -> x <> ls -> h' !! x = h !! x)
        /\ getitem h' M sec = Some (VRef ls)
        /\ (forall key, key ∉ sub.*1 -> getitem h' ls key = getitem h ls key)
        /\ (forall key v, NoDup sub.*1 -> assoc key sub = Some v ->
              is_dict v = false -> getitem h' ls key = Some (scalar_of v))).
Proof.
  intros Hb Hc HM Hls HlsM Hnd Hsec HoutM Houtls h'. subst h'.
  rewrite update_nested_dict_items. split.
  - intros Hnone.
    destruct (merge_keeps M (fun k => k <> sec) items h Hb Hc HM) as
      (_ & _ & _ & Hget & Hfr & _); [|done|].
    { intros k Hin ->. by apply assoc_none in Hnone. }
    split; [done|]. rewrite Hget; [done|]. by intros Hne.
  - intros sub Hassoc.
    destruct (assoc_split sec _ items Hassoc Hnd)
      as (pre & post & -> & Hpre & Hpost).
    rewrite foldl_app. cbn [foldl fst snd].
    destruct (merge_keeps M (fun k => k <> sec) pre h Hb Hc HM) as
      (Hb1 & Hc1 & Hlen1 & Hget1 & Hfr1 & Hout1); [|done|].
    { intros k Hin ->. done. }
    set (h1 := foldl _ h pre) in *.
    assert (Hsec1 : getitem h1 M sec = Some (VRef ls)).
    { rewrite Hget1; [done|]. by intros Hne. }
    assert (Hmid : update_item M sec (JDict sub) h1
                   = update_nested_dict ls (JDict sub) h1).
    { unfold update_item. by rewrite Hsec1. }
    rewrite Hmid.
    assert (Hls1 : h1 !! ls = h !! ls) by (by apply Hfr1).
    destruct (section_merge ls sub h1 Hb1 Hc1 Hls) as
      (Hb2 & Hc2 & Hlen2 & Hfr2 & Hkeep2 & Hset2).
    { intros k x _. rewrite (getitem_ext h) by done. by apply Houtls. }
    set (h2 := update_nested_dict ls (JDict sub) h1) in *.
    assert (HM2 : h2 !! M = h1 !! M) by (apply Hfr2; [done | congruence]).
    destruct (merge_keeps M (fun k => k <> sec) post h2 Hb2 Hc2 HM) as
      (_ & _ & _ & Hget3 & Hfr3 & _).
    { intros k Hin ->. done. }
    { intros k x Hk. rewrite (getitem_ext h1) by done. by apply Hout1. }
    assert (Hls3 : forall key,
      getitem (foldl (fun h kv => update_item M kv.1 kv.2 h) h2 post) ls key
      = getitem h2 ls key).
    { intros key. apply getitem_ext. by apply Hfr3. }
    split; [|split; [|split]].
    + intros x Hx HxM Hxls. by rewrite Hfr3, Hfr2, Hfr1.
    + rewrite Hget3 by (by intros Hne). by rewrite (getitem_ext h1).
    + intros key Hkey. rewrite Hls3, Hkeep2 by done. by apply getitem_ext.
    + intros key v Hnds Hk Hv. rewrite Hls3. by eapply Hset2.
Qed.

End Frame.

(** *** Soundness of the store is kept *)

Lemma extends_refl h : extends h h.
Proof. split; [done|]. intros x d y Hx Hr. right. eauto. Qed.

Lemma extends_trans h h1 h2 : extends h h1 -> extends h1 h2 -> extends h h2.
Proof.
  intros [Hl1 H1] [Hl2 H2]. split; [lia|].
  intros x d2 y Hx Hr. destruct (H2 x d2 y Hx Hr) as [[? ?]|(d1 & Hx1 & Hr1)].
  - left. lia.
  - destruct (H1 x d1 y Hx1 Hr1) as [[? ?]|?]; [left; lia | by right].
Qed.

Lemma extends_store h base key value_ :
  extends h (setitem base key (to_value value_ h).1 (to_value value_ h).2).
Proof.
  destruct (to_value_grows value_ h) as (extra & He & Hd & Hv).
  rewrite He. split.
  { rewrite length_setitem, length_app. lia. }
  intros x d' y Hx Hr. rewrite length_setitem, length_app.
  assert (Hold : forall d, (h ++ extra) !! x = Some d -> refers d y ->
            (length h <= y /\ y < length h + length extra)
            \/ (exists d0, h !! x = Some d0 /\ refers d0 y)).
  { intros d Hd0 Hr0. destruct (decide (x < length h)) as [Hlt|Hge].
    - rewrite lookup_app_l in Hd0 by done. right. eauto.
    - left. apply (Hd d); [|done].
      rewrite lookup_app_r in Hd0 by lia. apply list_elem_of_lookup. eauto. }
  destruct (decide (x = base)) as [->|Hne].
  - destruct ((h ++ extra) !! base) as [d0|] eqn:Hb.
    + rewrite (lookup_setitem_eq _ _ _ _ _ Hb) in Hx. injection Hx as <-.
      destruct Hr as [k Hin].
      apply dict_set_elem in Hin as [[_ Heq]|Hin].
      * left. apply Hv. by rewrite Heq.
      * apply (Hold d0); [done | by exists k].
    + unfold setitem in Hx. rewrite Hb in Hx. congruence.
  - rewrite lookup_setitem_ne in Hx by done. by apply (Hold d').
Qed.

Lemma extends_update_nested_dict j :
  forall base h, extends h (update_nested_dict base j h).
Proof.
  induction j as [|b|n|m e|s|items|items IH] using json_induction;
    intros base h;
    try (rewrite update_nested_dict_other by done; apply extends_refl).
  rewrite update_nested_dict_items. revert h.
  induction IH as [|[k v] rest Hv _ IHrest]; intros h; [apply extends_refl|].
  cbn [foldl fst snd]. eapply extends_trans; [|apply IHrest].
  destruct (update_item_cases base k v h) as [(sub & _ & _ & ->)| ->].
  - apply Hv.
  - apply extends_store.
Qed.

Lemma is_top_extends h h' x :
  extends h h' -> DEFAULT_SETTINGS <= length h -> is_top h' x -> is_top h x.
Proof.
  intros [_ Hext] Hlen (d' & y & Hx & Hr & Hy).
  destruct (Hext x d' y Hx Hr) as [[? ?]|(d & Hd & Hrd)]; [lia|].
  by exists d, y.
Qed.

Lemma sound_extends h h' :
  sound h -> extends h h' ->
  h' !! DEFAULT_SETTINGS = h !! DEFAULT_SETTINGS -> sound h'.
Proof.
  intros (Htop & Hrefs & Hsec) Hext Hsame.
  assert (Hlen : DEFAULT_SETTINGS <= length h).
  { assert (is_Some (h !! DEFAULT_SETTINGS)) as Hs by (rewrite Htop; eauto).
    apply lookup_lt_is_Some_1 in Hs. lia. }
  split; [by rewrite Hsame|]. split.
  - intros l d' x Hl Hr.
    destruct (proj2 Hext l d' x Hl Hr) as [[Hlo Hhi]|(d & Hd & Hrd)].
    + split; [done|]. intros Ht.
      apply (is_top_extends h) in Ht as (d0 & ? & Hx & _); [|done..].
      apply lookup_lt_Some in Hx. lia.
    + destruct (Hrefs l d x Hd Hrd) as [Hlt Hnt]. split.
      * destruct Hext. lia.
      * intros Ht. apply Hnt. by eapply is_top_extends.
  - intros l Hl Ht. apply (Hsec l Hl). by eapply is_top_extends.
Qed.

Lemma sound_initial : sound initial_heap.
Proof.
  split; [done|]. split.
  - intros l d x Hl Hr.
    assert (l = 5 /\ x < 5) as [-> Hx].
    { destruct Hr as [k Hin].
      do 6 (destruct l as [|l];
            [injection Hl as <-; vm_compute in Hin;
             repeat (apply elem_of_cons in Hin as [[= ? ?]|Hin]; try done);
             try (by apply elem_of_nil in Hin); subst; split; lia|]).
      done. }
    split; [simpl; lia|].
    intros (d0 & y & Hd0 & [k Hin] & Hy).
    do 5 (destruct x as [|x];
          [injection Hd0 as <-; vm_compute in Hin;
           repeat (apply elem_of_cons in Hin as [[= ? ?]|Hin]; try done);
           by apply elem_of_nil in Hin|]).
    lia.
  - intros l Hl (d0 & y & Hd0 & [k Hin] & Hy).
    do 5 (destruct l as [|l];
          [injection Hd0 as <-; vm_compute in Hin;
           repeat (apply elem_of_cons in Hin as [[= ? ?]|Hin]; try done);
           by apply elem_of_nil in Hin|]).
    unfold DEFAULT_SETTINGS in Hl. lia.
Qed.

Lemma default_sections sec v :
  getitem initial_heap DEFAULT_SETTINGS sec = Some v ->
  exists ls, v = VRef ls /\ ls < DEFAULT_SETTINGS
    /\ forall k, getitem initial_heap DEFAULT_SETTINGS k = Some (VRef ls) ->
         k = sec.
Proof.
  unfold getitem.
  change (initial_heap !! DEFAULT_SETTINGS)
    with (Some [(lit "general", VRef 0); (lit "hotkeys", VRef 1);
                (lit "speech_recognition", VRef 2); (lit "ui", VRef 3);
                (lit "advanced", VRef 4)]).
  cbn [dict_get]. intros H.
  repeat case_bool_decide; try discriminate; injection H as <-;
    eexists; (split; [reflexivity|]);
    (split; [unfold DEFAULT_SETTINGS; lia|]);
    intros k; cbn [dict_get]; repeat case_bool_decide; intros [=]; congruence.
Qed.

Lemma is_top_app_old h extra x :
  x < length h -> is_top (h ++ extra) x -> is_top h x.
Proof.
  intros Hx (d & y & Hd & Hr & Hy). rewrite lookup_app_l in Hd by done.
  by exists d, y.
Qed.

Lemma is_top_app h extra x : is_top h x -> is_top (h ++ extra) x.
Proof.
  intros (d & y & Hd & Hr & Hy). exists d, y. split; [|done].
  rewrite lookup_app_l; [done | by eapply lookup_lt_Some].
Qed.

(** [DEFAULT_SETTINGS.copy()] keeps the store sound. *)
Lemma sound_copy h : sound h -> sound (dict_copy DEFAULT_SETTINGS h).2.
Proof.
  intros (Htop & Hrefs & Hsec). unfold dict_copy, alloc. cbn [snd].
  assert (Hd : exists d, h !! DEFAULT_SETTINGS = Some d).
  { rewrite Htop. by eexists. }
  destruct Hd as [top Hd]. rewrite Hd. cbn [default].
  assert (Hlen : DEFAULT_SETTINGS < length h) by (by eapply lookup_lt_Some).
  assert (Hnt : forall x, x < length h -> ~ is_top h x ->
                          ~ is_top (h ++ [top]) x).
  { intros x Hx Hn Ht. by apply Hn, (is_top_app_old h [top]). }
  split; [|split].
  - by rewrite lookup_app_l, Htop.
  - intros l d x Hl Hr. rewrite length_app. cbn [length].
    destruct (decide (l < length h)) as [Hlt|Hge].
    + rewrite lookup_app_l in Hl by done.
      destruct (Hrefs l d x Hl Hr) as [Hx Hn]. split; [lia|]. by apply Hnt.
    + assert (d = top) as ->.
      { rewrite lookup_app_r in Hl by lia.
        destruct (l - length h) as [|n]; [by injection Hl|].
        by destruct n. }
      destruct (Hrefs _ top x Hd Hr) as [Hx Hn]. split; [lia|]. by apply Hnt.
  - intros l Hl. apply Hnt; [lia|]. by apply Hsec.
Qed.

(** The store just after [merged_settings = DEFAULT_SETTINGS.copy()], and
    the set made of the shared section and of the top dictionaries. *)
Lemma copy_setup h sec ls :
  sound h -> getitem h DEFAULT_SETTINGS sec = Some (VRef ls) ->
  let M := length h in
  let h1 := (dict_copy DEFAULT_SETTINGS h).2 in
  let P := fun x => x = ls \/ is_top h1 x in
  (dict_copy DEFAULT_SETTINGS h).1 = M
  /\ sound h1 /\ bounded P h1 /\ closed P h1
  /\ P M /\ P ls /\ P DEFAULT_SETTINGS
  /\ ls <> M /\ DEFAULT_SETTINGS <> M /\ ls <> DEFAULT_SETTINGS
  /\ getitem h1 M sec = Some (VRef ls)
  /\ leads_out P M (fun k => k <> sec) h1
  /\ leads_out P ls (fun _ => True) h1
  /\ (forall x, x < length h -> h1 !! x = h !! x).
Proof.
  intros Hs Hsec M h1 P.
  pose proof (sound_copy h Hs) as Hs1. fold h1 in Hs1.
  destruct Hs as (Htop & Hrefs & Hnsec).
  pose proof Hsec as Hsec0.
  apply getitem_refers in Hsec as (top & Hd & Hr).
  assert (Hlen : DEFAULT_SETTINGS < length h) by (by eapply lookup_lt_Some).
  assert (Hinit : forall k, getitem h DEFAULT_SETTINGS k
                            = getitem initial_heap DEFAULT_SETTINGS k).
  { intros k. by apply getitem_ext. }
  rewrite Hinit in Hsec0.
  destruct (default_sections sec _ Hsec0) as (ls' & [= <-] & Hls & Hinj).
  assert (Hh1 : h1 = h ++ [top]).
  { subst h1. unfold dict_copy, alloc. by rewrite Hd. }
  assert (HM : h1 !! M = Some top).
  { rewrite Hh1. subst M. rewrite lookup_app_r by lia.
    by rewrite Nat.sub_diag. }
  assert (Hold : forall x, x < length h -> h1 !! x = h !! x).
  { intros x Hx. rewrite Hh1. by apply lookup_app_l. }
  assert (HgetM : forall k, getitem h1 M k
                            = getitem initial_heap DEFAULT_SETTINGS k).
  { intros k. rewrite <- Hinit. unfold getitem. by rewrite HM, Hd. }
  destruct Hs1 as (Htop1 & Hrefs1 & Hnsec1).
  assert (HtopM : is_top h1 M) by (by exists top, ls).
  assert (Htop5 : is_top h1 DEFAULT_SETTINGS).
  { exists top, ls. split; [|done]. rewrite Hold; done. }
  split; [done|]. split; [done|]. split; [|split].
  - intros x [->|(d & ? & Hx & _)]; [|by eapply lookup_lt_Some].
    rewrite Hh1, length_app. lia.
  - intros l d x Hl HnP Hrx [->|Ht].
    + apply HnP. right. by exists d, ls.
    + by destruct (Hrefs1 l d x Hl Hrx).
  - split; [by right|]. split; [by left|]. split; [by right|].
    split; [subst M; lia|]. split; [subst M; lia|]. split; [lia|].
    split; [by rewrite HgetM|]. split; [|split; [|done]].
    + intros k x Hk Hget [->|Ht].
      * rewrite HgetM in Hget. by apply Hinj in Hget.
      * apply getitem_refers in Hget as (d & Hdx & Hrx).
        by destruct (Hrefs1 _ d x Hdx Hrx).
    + intros k x _ Hget [->|Ht].
      * apply getitem_refers in Hget as (d & Hdx & Hrx).
        apply (Hnsec1 ls Hls). by exists d, ls.
      * apply getitem_refers in Hget as (d & Hdx & Hrx).
        by destruct (Hrefs1 _ d x Hdx Hrx).
Qed.

Lemma load_settings_document st items :
  config_file st = Some (Document (JDict items)) ->
  config_denied st = false ->
  load_settings st
  = ((dict_copy DEFAULT_SETTINGS (store st)).1,
     with_store st
       (update_nested_dict (dict_copy DEFAULT_SETTINGS (store st)).1
          (JDict items) (dict_copy DEFAULT_SETTINGS (store st)).2)).
Proof.
  intros Hf Hd. unfold load_settings. rewrite Hf, Hd.
  by destruct (dict_copy DEFAULT_SETTINGS (store st)).
Qed.

Lemma lookup_path_two h l sec key x :
  lookup_path h (VRef l) [sec; key] = Some x <->
  exists ls, getitem h l sec = Some (VRef ls) /\ getitem h ls key = Some x.
Proof.
  cbn [lookup_path]. split.
  - destruct (getitem h l sec) as [[| | | | | |ls]|]; try done.
    destruct (getitem h ls key) as [y|] eqn:Hy; [|done].
    intros [= <-]. by exists ls.
  - intros (ls & -> & ->). done.
Qed.

(** A load with a document that sets [key] in the section [sec] to a value
    that is not a mapping: the value lands in the dictionary that
    [DEFAULT_SETTINGS] shares with the result. *)
Lemma load_settings_overrides st items sec sub key v :
  sound (store st) ->
  config_file st = Some (Document (JDict items)) ->
  config_denied st = false ->
  NoDup items.*1 ->
  is_Some (getitem initial_heap DEFAULT_SETTINGS sec) ->
  assoc sec items = Some (JDict sub) -> NoDup sub.*1 ->
  assoc key sub = Some v -> is_dict v = false ->
  lookup_path (store (load_settings st).2) (VRef DEFAULT_SETTINGS) [sec; key]
  = Some (scalar_of v)
  /\ lookup_path (store (load_settings st).2) (VRef (load_settings st).1)
       [sec; key]
     = Some (scalar_of v)
  /\ sound (store (load_settings st).2).
Proof.
  intros Hs Hf Hd Hnd [v0 Hsec] Hassoc Hnds Hkey Hv.
  rewrite (load_settings_document st items Hf Hd). cbn [fst snd store with_store].
  pose proof Hs as (Htop & _).
  assert (Hsec0 : getitem (store st) DEFAULT_SETTINGS sec = Some v0).
  { rewrite <- Hsec. by apply getitem_ext. }
  destruct (default_sections sec v0 Hsec) as (ls & -> & Hls & _).
  destruct (copy_setup (store st) sec ls Hs Hsec0)
    as (-> & Hs1 & Hb & Hc & HM & HPls & HP5 & HlsM & H5M & Hls5 & HgetM
        & HoutM & Houtls & Hold).
  set (h1 := (dict_copy DEFAULT_SETTINGS (store st)).2) in *.
  set (P := fun x => x = ls \/ is_top h1 x) in *.
  destruct (top_merge P (length (store st)) sec ls items h1
              Hb Hc HM HPls HlsM Hnd HgetM HoutM Houtls) as [_ Hcase].
  destruct (Hcase sub Hassoc) as (Hfr & HgetM' & _ & Hset).
  set (h' := update_nested_dict (length (store st)) (JDict items) h1) in *.
  assert (H5 : h' !! DEFAULT_SETTINGS = h1 !! DEFAULT_SETTINGS).
  { apply Hfr; [done | done | congruence]. }
  assert (Hlen5 : DEFAULT_SETTINGS < length (store st)).
  { apply getitem_refers in Hsec0 as (d & Hd0 & _). by eapply lookup_lt_Some. }
  split; [|split].
  - apply lookup_path_two. exists ls. split; [|by eapply Hset].
    rewrite (getitem_ext h1) by done.
    rewrite (getitem_ext (store st)) by (by apply Hold). done.
  - apply lookup_path_two. exists ls. split; [done | by eapply Hset].
  - apply (sound_extends h1); [done | apply extends_update_nested_dict | done].
Qed.

(** A load with a document that does not set [key] in the section [sec]:
    the result holds what the shared dictionary holds at that moment. *)
Lemma load_settings_fills_from_store st items sec key x :
  sound (store st) ->
  config_file st = Some (Document (JDict items)) ->
  config_denied st = false ->
  NoDup items.*1 ->
  lookup_path (store st) (VRef DEFAULT_SETTINGS) [sec; key] = Some x ->
  assoc sec items = None
  \/ (exists sub, assoc sec items = Some (JDict sub) /\ key ∉ sub.*1) ->
  lookup_path (store (load_settings st).2) (VRef (load_settings st).1)
    [sec; key]
  = Some x.
Proof.
  intros Hs Hf Hd Hnd Hpath Hdoc.
  rewrite (load_settings_document st items Hf Hd). cbn [fst snd store with_store].
  apply lookup_path_two in Hpath as (ls & Hsec0 & Hx).
  destruct (copy_setup (store st) sec ls Hs Hsec0)
    as (-> & Hs1 & Hb & Hc & HM & HPls & HP5 & HlsM & H5M & Hls5 & HgetM
        & HoutM & Houtls & Hold).
  set (h1 := (dict_copy DEFAULT_SETTINGS (store st)).2) in *.
  set (P := fun x => x = ls \/ is_top h1 x) in *.
  assert (Hlsold : getitem h1 ls key = Some x).
  { rewrite (getitem_ext (store st)); [done|]. apply Hold.
    unfold getitem in Hx. destruct (store st !! ls) eqn:Hl; [|done].
    by eapply lookup_lt_Some. }
  destruct (top_merge P (length (store st)) sec ls items h1
              Hb Hc HM HPls HlsM Hnd HgetM HoutM Houtls) as [Hnone Hsome].
  apply lookup_path_two. exists ls.
  destruct Hdoc as [Habsent|(sub & Hsub & Hkey)].
  - destruct (Hnone Habsent) as [Hfr HgetM']. split; [done|].
    rewrite (getitem_ext h1); [done|]. by apply Hfr.
  - destruct (Hsome sub Hsub) as (_ & HgetM' & Hkeep & _). split; [done|].
    by rewrite Hkeep.
Qed.

Lemma dump_ref fuel h l :
  dump (S fuel) h (VRef l)
  = match h !! l with
    | Some d => dump_items fuel h d ≫= fun js => Some (JDict js)
    | None => None
    end.
Proof.
  cbn [dump]. destruct (h !! l) as [d|]; [|done]. f_equal.
  induction d as [|[k x] rest IH]; [done|].
  cbn [dump_items]. by rewrite <- IH.
Qed.

Lemma dump_items_lookup fuel h d js k x :
  dump_items fuel h d = Some js -> dict_get k d = Some x ->
  exists j, assoc k js = Some j /\ dump fuel h x = Some j.
Proof.
  revert js. induction d as [|[k0 x0] rest IH]; intros js; [done|].
  cbn [dump_items dict_get].
  destruct (dump fuel h x0) as [j0|] eqn:Hj0; [|done].
  destruct (dump_items fuel h rest) as [js0|]; [|done].
  intros [= <-]. cbn [assoc]. case_bool_decide.
  - intros [= <-]. by exists j0.
  - intros Hget. by apply IH.
Qed.

Lemma dump_scalar fuel h v :
  is_dict v = false -> dump (S fuel) h (scalar_of v) = Some v.
Proof. by destruct v. Qed.

(** [reset_settings] writes what [DEFAULT_SETTINGS] shares at that
    moment. *)
Lemma reset_settings_writes_store st sec key v saved st' :
  lookup_path (store st) (VRef DEFAULT_SETTINGS) [sec; key]
  = Some (scalar_of v) ->
  is_dict v = false ->
  reset_settings st = (saved, st') -> saved = true ->
  exists doc,
    config_file st' = Some (Document doc)
    /\ doc_path doc [sec; key] = Some v.
Proof.
  intros Hpath Hv Hreset ->.
  apply lookup_path_two in Hpath as (ls & Hsec & Hkey).
  unfold reset_settings, dict_copy, alloc, save_settings in Hreset.
  cbn [with_store config_denied store] in Hreset.
  destruct (config_denied st); [done|].
  destruct (getitem_refers _ _ _ _ Hsec) as (top & Htop & _).
  rewrite Htop in Hreset. change (default [] (Some top)) with top in Hreset.
  assert (Hls : ls < length (store st)).
  { unfold getitem in Hkey. destruct (store st !! ls) eqn:Hl; [|done].
    by eapply lookup_lt_Some. }
  assert (Hlen : exists f, length (store st ++ [top]) = S (S f)).
  { rewrite length_app. cbn [length].
    apply lookup_lt_Some in Htop. unfold DEFAULT_SETTINGS in Htop.
    exists (length (store st) - 1). lia. }
  destruct Hlen as [f Hlen]. rewrite Hlen in Hreset.
  rewrite dump_ref in Hreset.
  rewrite lookup_app_r in Hreset by lia. rewrite Nat.sub_diag in Hreset.
  change ([top] !! 0) with (Some top) in Hreset. cbv beta iota in Hreset.
  destruct (dump_items (S (S f)) (store st ++ [top]) top) as [js|] eqn:Hjs;
    cbn [mbind option_bind] in Hreset; [|done].
  injection Hreset as <-.
  exists (JDict js). split; [done|].
  assert (Hsec' : dict_get sec top = Some (VRef ls)).
  { unfold getitem in Hsec. by rewrite Htop in Hsec. }
  destruct (dump_items_lookup _ _ _ _ _ _ Hjs Hsec') as (j & Hj & Hdump).
  cbn [doc_path]. rewrite Hj.
  rewrite dump_ref, lookup_app_l in Hdump by done.
  unfold getitem in Hkey.
  destruct (store st !! ls) as [d|]; [|done].
  destruct (dump_items (S f) (store st ++ [top]) d) as [js'|] eqn:Hjs';
    cbn [mbind option_bind] in Hdump; [|done].
  injection Hdump as <-.
  destruct (dump_items_lookup _ _ _ _ _ _ Hjs' Hkey) as (j' & Hj' & Hdump').
  rewrite Hj'. rewrite dump_scalar in Hdump' by done. by injection Hdump' as <-.
Qed.

(** The first load of a process merges the document into the compiled-in
    defaults: a key of a section that the document does not set keeps its
    default, a key it sets to a value that is not a mapping takes that
    value. *)
Lemma load_settings_first_load items sec key denied :
  NoDup items.*1 ->
  let st := fresh (Some (Document (JDict items))) false in
  (forall x,
     lookup_path initial_heap (VRef DEFAULT_SETTINGS) [sec; key] = Some x ->
     assoc sec items = None
     \/ (exists sub, assoc sec items = Some (JDict sub) /\ key ∉ sub.*1) ->
     lookup_path (store (load_settings st).2) (VRef (load_settings st).1)
       [sec; key] = Some x)
  /\ (forall sub v,
        is_Some (getitem initial_heap DEFAULT_SETTINGS sec) ->
        assoc sec items = Some (JDict sub) -> NoDup sub.*1 ->
        assoc key sub = Some v -> is_dict v = false ->
        lookup_path (store (load_settings st).2) (VRef (load_settings st).1)
          [sec; key] = Some (scalar_of v))
  /\ fst (load_settings (fresh None denied)) = 6
  /\ store (load_settings (fresh None denied)).2
     = initial_heap ++ [default [] (initial_heap !! DEFAULT_SETTINGS)].
Proof.
  intros Hnd st. split; [|split; [|split]].
  - intros x Hx Hdoc.
    by apply (load_settings_fills_from_store st items); try apply sound_initial.
  - intros sub v Hsec Hsub Hnds Hkey Hv.
    by destruct (load_settings_overrides st items sec sub key v
                   sound_initial eq_refl eq_refl Hnd Hsec Hsub Hnds Hkey Hv)
      as (_ & ? & _).
  - by destruct denied.
  - by destruct denied.
Qed.

(** A document that enters the store: a new dictionary refers only to
    new dictionaries allocated before it. *)
Lemma to_items_down items :
  Forall (fun kv => forall h,
            exists extra,
              (to_value kv.2 h).2 = h ++ extra
              /\ (forall i d x, extra !! i = Some d -> refers d x ->
                    length h <= x /\ x < length h + i)
              /\ (forall x, (to_value kv.2 h).1 = VRef x ->
                    length h <= x /\ x < length h + length extra)) items ->
  forall h,
    exists extra,
      (to_items items h).2 = h ++ extra
      /\ (forall i d x, extra !! i = Some d -> refers d x ->
            length h <= x /\ x < length h + i)
      /\ (forall x, refers (to_items items h).1 x ->
            length h <= x /\ x < length h + length extra).
Proof.
  induction 1 as [|[k j] rest Hj _ IH]; intros h.
  - exists []. cbn. rewrite app_nil_r. split; [done|].
    split; [done|]. by intros ? [? ?%elem_of_nil].
  - cbn [to_items]. simpl in Hj.
    destruct (Hj h) as (e1 & He1 & Hd1 & Hv1).
    destruct (to_value j h) as [v h1]. simpl in He1, Hv1. subst h1.
    destruct (IH (h ++ e1)) as (e2 & He2 & Hd2 & Hr2).
    destruct (to_items rest (h ++ e1)) as [d h2]. simpl in *. subst h2.
    exists (e1 ++ e2). rewrite app_assoc. split; [done|].
    rewrite length_app in *. split.
    + intros i d0 x Hi Hx. destruct (decide (i < length e1)) as [Hlt|Hge].
      * rewrite lookup_app_l in Hi by done. by apply (Hd1 i d0).
      * rewrite lookup_app_r in Hi by lia.
        destruct (Hd2 _ d0 x Hi Hx). lia.
    + intros x [k0 Hin]. apply elem_of_cons in Hin as [[= -> <-]|Hin].
      * destruct (Hv1 x eq_refl). lia.
      * destruct (Hr2 x (ex_intro _ k0 Hin)). lia.
Qed.

Lemma to_value_down j :
  forall h,
    exists extra,
      (to_value j h).2 = h ++ extra
      /\ (forall i d x, extra !! i = Some d -> refers d x ->
            length h <= x /\ x < length h + i)
      /\ (forall x, (to_value j h).1 = VRef x ->
            length h <= x /\ x < length h + length extra).
Proof.
  induction j as [|b|n|m e|s|items|items IH] using json_induction; intros h;
    try (exists []; cbn; rewrite app_nil_r; split; [done|];
         split; [done | by intros ? [=]]).
  rewrite to_value_dict. cbn [fst snd].
  destruct (to_items_down items IH h) as (extra & He & Hd & Hr).
  rewrite He. exists (extra ++ [(to_items items h).1]).
  rewrite app_assoc, !length_app. cbn [length]. split; [done|]. split.
  - intros i d x Hi Hx. destruct (decide (i < length extra)) as [Hlt|Hge].
    + rewrite lookup_app_l in Hi by done. by apply (Hd i d).
    + rewrite lookup_app_r in Hi by lia.
      destruct (i - length extra) as [|n] eqn:Hn; [|by destruct n].
      injection Hi as <-. destruct (Hr x Hx). lia.
  - intros x [= <-]. lia.
Qed.

(** [base[key] = value] for a document [value] keeps the store free of
    cycles. *)
Lemma acyclic_store h base key value_ :
  acyclic h -> base < length h ->
  acyclic (setitem base key (to_value value_ h).1 (to_value value_ h).2).
Proof.
  intros (rank & Hbound & Hedge) Hbase.
  destruct (to_value_down value_ h) as (extra & He & Hd & Hv).
  destruct (to_value value_ h) as [v h1]. cbn [fst snd] in *. subst h1.
  set (n := length h) in *. set (K := length extra) in *.
  exists (fun l => if decide (l < n) then rank l + K else l - n).
  rewrite length_setitem, length_app. fold n K. split.
  { intros l Hl. destruct (decide (l < n)) as [Hlt|Hge].
    - specialize (Hbound l Hlt). lia.
    - lia. }
  assert (Hold : forall l d x, (h ++ extra) !! l = Some d -> refers d x ->
            x < n + K
            /\ (if decide (x < n) then rank x + K else x - n)
               < (if decide (l < n) then rank l + K else l - n)).
  { intros l d x Hl Hr. destruct (decide (l < n)) as [Hlt|Hge].
    - rewrite lookup_app_l in Hl by done.
      destruct (Hedge l d x Hl Hr) as [Hx Hrk].
      rewrite decide_True by done. lia.
    - rewrite lookup_app_r in Hl by lia.
      destruct (Hd _ d x Hl Hr) as [Hlo Hhi]. fold n in Hlo, Hhi.
      apply lookup_lt_Some in Hl. fold K in Hl.
      rewrite decide_False by lia. lia. }
  intros l d x Hl Hr.
  destruct (decide (l = base)) as [->|Hne].
  - destruct ((h ++ extra) !! base) as [d0|] eqn:Hb.
    + rewrite (lookup_setitem_eq _ _ _ _ _ Hb) in Hl. injection Hl as <-.
      destruct Hr as [k Hin].
      apply dict_set_elem in Hin as [[_ Heq]|Hin].
      * destruct (Hv x (eq_sym Heq)) as [Hlo Hhi]. fold n K in Hlo, Hhi.
        rewrite (decide_True (P := base < n)) by done.
        rewrite decide_False by lia. lia.
      * apply (Hold base d0); [done | by exists k].
    + unfold setitem in Hl. rewrite Hb in Hl. congruence.
  - rewrite lookup_setitem_ne in Hl by done. by apply (Hold l d).
Qed.

Lemma acyclic_update_nested_dict j :
  forall base h,
    acyclic h -> base < length h -> acyclic (update_nested_dict base j h).
Proof.
  induction j as [|b|n|m e|s|items|items IH] using json_induction;
    intros base h Ha Hbase;
    try (by rewrite update_nested_dict_other by done).
  rewrite update_nested_dict_items. revert h Ha Hbase.
  induction IH as [|[k v] rest Hv _ IHrest]; intros h Ha Hbase; [done|].
  cbn [foldl fst snd].
  assert (Hlen : length h <= length (update_item base k v h)).
  { pose proof (extends_update_nested_dict (JDict [(k, v)]) base h) as [Hl _].
    by rewrite update_nested_dict_items in Hl. }
  apply IHrest; [|lia].
  destruct (update_item_cases base k v h) as [(sub & Hget & _ & ->)| ->].
  - apply Hv; [done|].
    apply getitem_refers in Hget as (d & Hd & Hr).
    destruct Ha as (rank & _ & Hedge). by destruct (Hedge _ _ _ Hd Hr).
  - by apply acyclic_store.
Qed.

Lemma acyclic_copy l h : acyclic h -> acyclic (dict_copy l h).2.
Proof.
  intros (rank & Hbound & Hedge). unfold dict_copy, alloc. cbn [snd].
  set (n := length h).
  exists (fun x => if decide (x < n) then rank x else n).
  rewrite length_app. cbn [length]. fold n. split.
  { intros x Hx. destruct (decide (x < n)) as [Hlt|Hge]; [|lia].
    specialize (Hbound x Hlt). lia. }
  intros x d y Hx Hr. destruct (decide (x < n)) as [Hlt|Hge].
  - rewrite lookup_app_l in Hx by done.
    destruct (Hedge x d y Hx Hr) as [Hy Hrk].
    rewrite decide_True by done. lia.
  - rewrite lookup_app_r in Hx by (fold n; lia). fold n in Hx.
    destruct (x - n) as [|m]; [|by destruct m]. injection Hx as <-.
    destruct (h !! l) as [d0|] eqn:Hl.
    + destruct (Hedge l d0 y Hl Hr) as [Hy Hrk]. fold n in Hy.
      rewrite decide_True by done.
      assert (l < n) by (by eapply lookup_lt_Some).
      specialize (Hbound l ltac:(done)). fold n in Hbound. lia.
    + destruct Hr as [k Hin]. by apply elem_of_nil in Hin.
Qed.

Lemma acyclic_initial : acyclic initial_heap.
Proof.
  exists (fun l => l). split; [done|].
  intros l d x Hl [k Hin].
  do 6 (destruct l as [|l];
        [injection Hl as <-; vm_compute in Hin;
         repeat (apply elem_of_cons in Hin as [[= ? ?]|Hin]; try done);
         try (by apply elem_of_nil in Hin); subst; simpl; lia|]).
  done.
Qed.

(** In a store free of cycles [json.dump] does not run out of depth. *)
Lemma dump_total h (rank : loc -> nat) :
  (forall l d x, h !! l = Some d -> refers d x ->
     x < length h /\ rank x < rank l) ->
  forall fuel v,
    1 <= fuel ->
    (forall l, v = VRef l -> l < length h /\ rank l + 2 <= fuel) ->
    is_Some (dump fuel h v).
Proof.
  intros Hedge. induction fuel as [|fuel IH]; intros v Hfuel Hv; [lia|].
  destruct v as [| | | | | |l]; try (by eexists).
  destruct (Hv l eq_refl) as [Hl Hrk]. rewrite dump_ref.
  destruct (lookup_lt_is_Some_2 h l Hl) as [d Hd]. rewrite Hd.
  assert (Hitems : forall d', (forall k x, (k, x) ∈ d' -> (k, x) ∈ d) ->
            is_Some (dump_items fuel h d')).
  { induction d' as [|[k x] rest IHd]; intros Hsub; [by eexists|].
    cbn [dump_items].
    destruct (IH x) as [j Hj]; [lia| |].
    { intros l' ->.
      destruct (Hedge l d l' Hd) as [? ?]; [|lia].
      exists k. apply Hsub. by left. }
    rewrite Hj. destruct IHd as [js Hjs].
    { intros k' x' Hin. apply Hsub. by right. }
    rewrite Hjs. by eexists. }
  destruct (Hitems d) as [js Hjs]; [done|]. rewrite Hjs. by eexists.
Qed.

(** [save_settings] succeeds on a file that can be opened. *)
Lemma save_settings_succeeds settings st :
  acyclic (store st) -> config_denied st = false ->
  settings < length (store st) ->
  exists doc,
    dump (S (length (store st))) (store st) (VRef settings) = Some doc
    /\ save_settings settings st = (true, with_file st (Document doc)).
Proof.
  intros (rank & Hbound & Hedge) Hden Hlen. unfold save_settings.
  rewrite Hden.
  destruct (dump_total (store st) rank Hedge (S (length (store st)))
              (VRef settings)) as [doc Hdoc]; [lia| |].
  { intros l [= <-]. split; [done|]. specialize (Hbound settings Hlen). lia. }
  exists doc. by rewrite Hdoc.
Qed.

Lemma acyclic_load_settings st :
  acyclic (store st) -> acyclic (store (load_settings st).2).
Proof.
  intros Ha. unfold load_settings.
  destruct (config_file st) as [c|].
  - destruct (config_denied st), c as [user_settings|];
      try (destruct (dict_copy DEFAULT_SETTINGS (store st)) as [l h1] eqn:Hc;
           cbn [snd with_store store];
           change h1 with (l, h1).2; rewrite <- Hc; by apply acyclic_copy).
    destruct (dict_copy DEFAULT_SETTINGS (store st)) as [merged h1] eqn:Hc.
    assert (Ha1 : acyclic h1).
    { change h1 with (merged, h1).2. rewrite <- Hc. by apply acyclic_copy. }
    destruct (is_dict user_settings).
    + cbn [snd with_store store]. apply acyclic_update_nested_dict; [done|].
      unfold dict_copy, alloc in Hc. injection Hc as <- <-.
      rewrite length_app. simpl. lia.
    + destruct (dict_copy DEFAULT_SETTINGS h1) as [l h2] eqn:Hc2.
      cbn [snd with_store store].
      change h2 with (l, h2).2. rewrite <- Hc2. by apply acyclic_copy.
  - destruct (save_settings DEFAULT_SETTINGS st) as [saved st1] eqn:Hsave.
    assert (Hstore : store st1 = store st).
    { unfold save_settings in Hsave. destruct (config_denied st).
      - by injection Hsave as _ <-.
      - destruct (dump _ _ _); by injection Hsave as _ <-. }
    destruct (dict_copy DEFAULT_SETTINGS (store st1)) as [l h1] eqn:Hc.
    cbn [snd with_store store].
    change h1 with (l, h1).2. rewrite <- Hc, Hstore. by apply acyclic_copy.
Qed.

(** [json.dump] reads the dictionaries it reaches and no other. *)
Lemma dump_ext (S : loc -> Prop) h h' :
  (forall y, S y -> h' !! y = h !! y) ->
  (forall y d z, S y -> h !! y = Some d -> refers d z -> S z) ->
  forall fuel v, (forall l, v = VRef l -> S l) ->
    dump fuel h' v = dump fuel h v.
Proof.
  intros Hsame Hclosed. induction fuel as [|fuel IH]; intros v Hv; [done|].
  destruct v as [| | | | | |l]; try done.
  rewrite !dump_ref. rewrite (Hsame l) by (by apply Hv).
  destruct (h !! l) as [d|] eqn:Hd; [|done]. f_equal.
  assert (Hitems : forall d', (forall k x, (k, x) ∈ d' -> (k, x) ∈ d) ->
            dump_items fuel h' d' = dump_items fuel h d').
  { induction d' as [|[k x] rest IHd]; intros Hsub; [done|].
    cbn [dump_items]. rewrite IH, IHd; [done| |].
    - intros k' x' Hin. apply Hsub. by right.
    - intros l' ->. apply (Hclosed l d); [by apply Hv | done |].
      exists k. apply Hsub. by left. }
  by apply Hitems.
Qed.

(** Every reference of the store leads to a dictionary of the store. *)
Lemma scoped_extends h h' :
  (forall l d x, h !! l = Some d -> refers d x -> x < length h) ->
  extends h h' ->
  forall l d x, h' !! l = Some d -> refers d x -> x < length h'.
Proof.
  intros Hsc [Hlen Hext] l d x Hl Hr.
  destruct (Hext l d x Hl Hr) as [[_ ?]|(d0 & Hd0 & Hr0)]; [done|].
  specialize (Hsc l d0 x Hd0 Hr0). lia.
Qed.

Lemma scoped_grows h h' v :
  (forall l d x, h !! l = Some d -> refers d x -> x < length h) ->
  grows h h' v ->
  forall l d x, h' !! l = Some d -> refers d x -> x < length h'.
Proof.
  intros Hsc (extra & -> & Hd & _) l d x Hl Hr. rewrite length_app.
  destruct (decide (l < length h)) as [Hlt|Hge].
  - rewrite lookup_app_l in Hl by done. specialize (Hsc l d x Hl Hr). lia.
  - rewrite lookup_app_r in Hl by lia.
    apply (Hd d x); [|done]. apply list_elem_of_lookup. eauto.
Qed.

Lemma dump_app h extra fuel v :
  (forall l d x, h !! l = Some d -> refers d x -> x < length h) ->
  (forall l, v = VRef l -> l < length h) ->
  dump fuel (h ++ extra) v = dump fuel h v.
Proof.
  intros Hsc Hv. apply (dump_ext (fun y => y < length h)); [| |done].
  - intros y Hy. by apply lookup_app_l.
  - intros y d z _ Hd Hr. by eapply Hsc.
Qed.

Lemma to_items_app items h :
  exists extra, (to_items items h).2 = h ++ extra.
Proof.
  revert h. induction items as [|[k j] rest IH]; intros h.
  - exists []. cbn. by rewrite app_nil_r.
  - cbn [to_items]. destruct (to_value_grows j h) as (e1 & He1 & _).
    destruct (to_value j h) as [v h1]. cbn [snd] in He1. subst h1.
    destruct (IH (h ++ e1)) as (e2 & He2).
    destruct (to_items rest (h ++ e1)) as [d h2]. cbn [snd] in *. subst h2.
    exists (e1 ++ e2). by rewrite app_assoc.
Qed.

(** What [json.dump] writes for a document that entered the store is the
    document. *)
Lemma to_value_dump j :
  forall h fuel j',
    (forall l d x, h !! l = Some d -> refers d x -> x < length h) ->
    dump fuel (to_value j h).2 (to_value j h).1 = Some j' -> j' = j.
Proof.
  induction j as [|b|n|m e|s|items|items IH] using json_induction;
    intros h fuel j' Hsc;
    try (destruct fuel; [done|]; by intros [= <-]).
  rewrite to_value_dict. cbn [fst snd].
  destruct fuel as [|fuel]; [done|]. rewrite dump_ref.
  rewrite lookup_app_r by done. rewrite Nat.sub_diag. cbn [lookup list_lookup].
  set (hfin := (to_items items h).2 ++ [(to_items items h).1]).
  assert (Hitems : forall h0 more js,
    (forall l d x, h0 !! l = Some d -> refers d x -> x < length h0) ->
    hfin = (to_items items h0).2 ++ more ->
    dump_items fuel hfin (to_items items h0).1 = Some js -> js = items).
  { clear Hsc. clearbody hfin. clear h.
    induction IH as [|[k j] rest Hj _ IHrest]; intros h0 more js Hsc Hfin.
    { cbn. by intros [= <-]. }
    cbn [to_items] in *. simpl in Hj.
    pose proof (to_value_grows j h0) as Hg.
    pose proof (scoped_grows _ _ _ Hsc Hg) as Hsc1.
    destruct Hg as (e1 & He1 & _ & Hv1).
    specialize (Hj h0 fuel).
    destruct (to_value j h0) as [v h1]. cbn [fst snd] in *. subst h1.
    destruct (to_items_app rest (h0 ++ e1)) as (e2 & He2).
    specialize (IHrest (h0 ++ e1) more).
    destruct (to_items rest (h0 ++ e1)) as [d h2]. cbn [fst snd] in *.
    subst h2. cbn [dump_items].
    destruct (dump fuel hfin v) as [j1|] eqn:Hj1; [|done].
    destruct (dump_items fuel hfin d) as [js1|] eqn:Hjs1; [|done].
    intros [= <-]. f_equal.
    - f_equal. apply Hj; [done|].
      rewrite <- Hj1, Hfin, <- app_assoc. symmetry. apply dump_app; [done|].
      intros l ->. destruct (Hv1 l eq_refl). rewrite length_app. lia.
    - by apply IHrest. }
  destruct (dump_items fuel hfin (to_items items h).1) as [js|] eqn:Hjs;
    [|done].
  cbn [mbind option_bind]. intros [= <-]. f_equal.
  by apply (Hitems h [(to_items items h).1] js).
Qed.

(** Two runs of [json.dump] that end write the same. *)
Lemma dump_det h v :
  forall fuel fuel' j j',
    dump fuel h v = Some j -> dump fuel' h v = Some j' -> j = j'.
Proof.
  intros fuel. revert v.
  induction fuel as [|fuel IH]; intros v fuel' j j'; [done|].
  destruct fuel' as [|fuel']; [done|].
  destruct v as [| | | | | |l]; try (by intros [= <-] [= <-]).
  rewrite !dump_ref. destruct (h !! l) as [d|]; [|done].
  destruct (dump_items fuel h d) as [js|] eqn:Hjs; [|done].
  destruct (dump_items fuel' h d) as [js'|] eqn:Hjs'; [|done].
  cbn [mbind option_bind]. intros [= <-] [= <-]. f_equal.
  revert js js' Hjs Hjs'.
  induction d as [|[k x] rest IHd]; intros js js'.
  { cbn. by intros [= <-] [= <-]. }
  cbn [dump_items].
  destruct (dump fuel h x) as [j1|] eqn:Hj1; [|done].
  destruct (dump_items fuel h rest) as [js1|]; [|done].
  destruct (dump fuel' h x) as [j2|] eqn:Hj2; [|done].
  destruct (dump_items fuel' h rest) as [js2|]; [|done].
  intros [= <-] [= <-]. f_equal.
  - f_equal. by eapply IH.
  - by apply IHd.
Qed.

Lemma foldl_update_item_extends base items h :
  extends h (foldl (fun h kv => update_item base kv.1 kv.2 h) h items).
Proof.
  rewrite <- update_nested_dict_items. apply extends_update_nested_dict.
Qed.

(** The merge of a document into a dictionary [M] of [P] that shares the
    dictionary [ls] with others, when the document sets [key] of that
    dictionary to a mapping [v] and the dictionary holds no dictionary at
    [key]: the mapping enters the store and [ls] refers to it. *)
Lemma top_merge_mapping (P : loc -> Prop) M sec ls items sub key v h :
  bounded P h -> closed P h -> P M -> P ls -> ls <> M -> NoDup items.*1 ->
  (forall l d x, h !! l = Some d -> refers d x -> x < length h) ->
  getitem h M sec = Some (VRef ls) ->
  leads_out P M (fun k => k <> sec) h ->
  leads_out P ls (fun _ => True) h ->
  assoc sec items = Some (JDict sub) -> NoDup sub.*1 ->
  assoc key sub = Some v -> is_dict v = true ->
  (forall y, getitem h ls key <> Some (VRef y)) ->
  let h' := update_nested_dict M (JDict items) h in
  exists x,
    getitem h' ls key = Some (VRef x)
    /\ forall fuel j', dump fuel h' (VRef x) = Some j' -> j' = v.
Proof.
  intros Hb Hc HM Hls HlsM Hnd Hsc Hsec HoutM Houtls Hassoc Hnds Hkey Hv Hnoref
    h'. subst h'.
  rewrite update_nested_dict_items.
  destruct (assoc_split sec _ items Hassoc Hnd)
    as (pre & post & -> & Hpre & Hpost).
  rewrite foldl_app. cbn [foldl fst snd].
  destruct (merge_keeps P M (fun k => k <> sec) pre h Hb Hc HM) as
    (Hb1 & Hc1 & Hlen1 & Hget1 & Hfr1 & Hout1); [|done|].
  { intros k Hin ->. done. }
  pose proof (scoped_extends _ _ Hsc (foldl_update_item_extends M pre h))
    as Hsc1.
  set (ha := foldl _ h pre) in *.
  assert (Hsec1 : getitem ha M sec = Some (VRef ls)).
  { rewrite Hget1; [done|]. by intros Hne. }
  assert (Hmid : update_item M sec (JDict sub) ha
                 = update_nested_dict ls (JDict sub) ha).
  { unfold update_item. by rewrite Hsec1. }
  rewrite Hmid, update_nested_dict_items.
  assert (Hlsa : ha !! ls = h !! ls) by (by apply Hfr1).
  destruct (assoc_split key _ sub Hkey Hnds)
    as (pre' & post' & -> & Hpre' & Hpost').
  rewrite foldl_app. cbn [foldl fst snd].
  destruct (merge_keeps P ls (fun k => k <> key) pre' ha Hb1 Hc1 Hls) as
    (Hb2 & Hc2 & Hlen2 & Hget2 & Hfr2 & Hout2).
  { intros k Hin ->. done. }
  { intros k x _. rewrite (getitem_ext h) by done. by apply Houtls. }
  pose proof (scoped_extends _ _ Hsc1 (foldl_update_item_extends ls pre' ha))
    as Hsc2.
  set (hb := foldl _ ha pre') in *.
  assert (Hkeyb : forall y, getitem hb ls key <> Some (VRef y)).
  { intros y. rewrite Hget2 by (by intros Hne).
    rewrite (getitem_ext h) by done. apply Hnoref. }
  assert (Hstore : update_item ls key v hb
                   = setitem ls key (to_value v hb).1 (to_value v hb).2).
  { destruct (update_item_cases ls key v hb) as [(y & Hy & _)|Heq]; [|done].
    by destruct (Hkeyb y). }
  rewrite Hstore.
  pose proof (to_value_dump v hb) as Hdump.
  destruct (to_value_grows v hb) as (extra & He & Hd & Hvx).
  destruct (to_value v hb) as [vx hc] eqn:Htv. cbn [fst snd] in *. subst hc.
  assert (Hx : exists x, vx = VRef x).
  { destruct v; try done. rewrite to_value_dict in Htv.
    injection Htv as <- _. by eexists. }
  destruct Hx as [x ->].
  destruct (Hvx x eq_refl) as [Hxlo Hxhi].
  set (T := fun y => length hb <= y /\ y < length hb + length extra).
  set (P' := fun y => P y \/ T y).
  set (hd := setitem ls key (VRef x) (hb ++ extra)).
  assert (Hlsb : ls < length hb) by (by apply Hb2).
  assert (HMb : M < length hb) by (by apply Hb2).
  assert (Hold : forall y, y < length hb -> y <> ls -> hd !! y = hb !! y).
  { intros y Hy Hne. subst hd. rewrite lookup_setitem_ne by done.
    by apply lookup_app_l. }
  assert (Hb3 : bounded P' hd).
  { intros y [Hy|[_ Hy]]; subst hd; rewrite length_setitem, length_app.
    - specialize (Hb2 y Hy). lia.
    - done. }
  assert (Hc3 : closed P' hd).
  { intros l d z Hl HnP Hr [Hz|Hz].
    - assert (l <> ls) as Hne by (intros ->; apply HnP; by left).
      assert (l < length hb) as Hlt.
      { destruct (decide (l < length hb)) as [|Hge]; [done|].
        destruct HnP. right. split; [lia|].
        apply lookup_lt_Some in Hl. subst hd.
        by rewrite length_setitem, length_app in Hl. }
      rewrite Hold in Hl by done.
      apply (Hc2 l d z Hl); [|done|done]. intros HP. apply HnP. by left.
    - assert (l <> ls) as Hne by (intros ->; apply HnP; by left).
      assert (l < length hb) as Hlt.
      { destruct (decide (l < length hb)) as [|Hge]; [done|].
        destruct HnP. right. split; [lia|].
        apply lookup_lt_Some in Hl. subst hd.
        by rewrite length_setitem, length_app in Hl. }
      rewrite Hold in Hl by done.
      specialize (Hsc2 l d z Hl Hr). destruct Hz. lia. }
  assert (Hother : forall k, k <> key -> getitem hd ls k = getitem hb ls k).
  { intros k Hk. subst hd. rewrite getitem_setitem_ne_key by done.
    apply getitem_ext. by apply lookup_app_l. }
  destruct (merge_keeps P' ls (fun k => k <> key) post' hd Hb3 Hc3) as
    (Hb4 & Hc4 & Hlen4 & Hget4 & Hfr4 & Hout4).
  { by left. }
  { intros k Hin ->. done. }
  { intros k z Hk Hget. rewrite Hother in Hget by done. intros [Hz|Hz].
    - by apply (Hout2 k z Hk Hget).
    - apply getitem_refers in Hget as (d & Hd0 & Hr0).
      specialize (Hsc2 ls d z Hd0 Hr0). destruct Hz. lia. }
  set (he := foldl _ hd post') in *.
  assert (HMe : he !! M = ha !! M).
  { rewrite Hfr4; [|by left|done]. rewrite Hold by done.
    apply Hfr2; [done | congruence]. }
  destruct (merge_keeps P' M (fun k => k <> sec) post he Hb4 Hc4) as
    (_ & _ & _ & _ & Hfr5 & _).
  { by left. }
  { intros k Hin ->. done. }
  { intros k z Hk Hget. rewrite (getitem_ext ha) in Hget by done.
    intros [Hz|Hz].
    - by apply (Hout1 k z Hk Hget).
    - apply getitem_refers in Hget as (d & Hd0 & Hr0).
      specialize (Hsc1 M d z Hd0 Hr0). destruct Hz. lia. }
  set (hf := foldl _ he post) in *.
  assert (Htree : forall y, T y -> hf !! y = (hb ++ extra) !! y).
  { intros y Hy. destruct Hy as [Hylo Hyhi].
    rewrite Hfr5; [|right; by split|lia].
    rewrite Hfr4; [|right; by split|lia].
    subst hd. apply lookup_setitem_ne. lia. }
  exists x. split.
  - rewrite (getitem_ext he) by (apply Hfr5; [by left | done]).
    rewrite Hget4 by (by intros Hne).
    subst hd. apply getitem_setitem_eq. rewrite length_app. lia.
  - intros fuel j' Hj'. apply (Hdump fuel j'); [done|].
    rewrite <- Hj'. symmetry. apply (dump_ext T); [done| |].
    + intros y d z [Hylo Hyhi] Hy Hr.
      rewrite lookup_app_r in Hy by done.
      apply (Hd d z); [|done]. apply list_elem_of_lookup. eauto.
    + intros l [= <-]. by split.
Qed.

(** [reset_settings] on a file that can be opened returns [True] and
    writes what [DEFAULT_SETTINGS] shares at that moment. *)
Lemma reset_settings_writes_value st sec key ls x v :
  acyclic (store st) -> config_denied st = false ->
  getitem (store st) DEFAULT_SETTINGS sec = Some (VRef ls) ->
  getitem (store st) ls key = Some x ->
  dump (S (length (store st))) (store st) x = Some v ->
  fst (reset_settings st) = true
  /\ exists doc,
       config_file (snd (reset_settings st)) = Some (Document doc)
       /\ doc_path doc [sec; key] = Some v.
Proof.
  intros Ha Hden Hsec Hkey Hx.
  pose proof (acyclic_copy DEFAULT_SETTINGS _ Ha) as Ha1.
  unfold reset_settings. unfold dict_copy, alloc in *. cbn [snd] in Ha1.
  destruct (getitem_refers _ _ _ _ Hsec) as (top & Htop & _).
  rewrite Htop in *. change (default [] (Some top)) with top in *.
  set (h := store st) in *. set (h1 := h ++ [top]) in *.
  destruct (save_settings_succeeds (length h) (with_store st h1))
    as (doc & Hdoc & ->); [done | done | |].
  { cbn [store with_store]. subst h1. rewrite length_app. simpl. lia. }
  cbn [fst snd with_file config_file store with_store] in *.
  split; [done|]. exists doc. split; [done|].
  assert (Hsc : forall l d y, h !! l = Some d -> refers d y -> y < length h).
  { destruct Ha as (rank & _ & Hedge). intros l d y Hl Hr.
    by destruct (Hedge l d y Hl Hr). }
  assert (Hls : ls < length h).
  { unfold getitem in Hkey. destruct (h !! ls) eqn:Hl; [|done].
    by eapply lookup_lt_Some. }
  assert (Hlen1 : length h1 = S (length h)).
  { subst h1. rewrite length_app. simpl. lia. }
  rewrite dump_ref in Hdoc.
  assert (Hnew : h1 !! length h = Some top).
  { subst h1. rewrite lookup_app_r by done. by rewrite Nat.sub_diag. }
  rewrite Hnew in Hdoc.
  destruct (dump_items (length h1) h1 top) as [js|] eqn:Hjs;
    cbn [mbind option_bind] in Hdoc; [|done].
  injection Hdoc as <-.
  assert (Hsec' : dict_get sec top = Some (VRef ls)).
  { unfold getitem in Hsec. by rewrite Htop in Hsec. }
  destruct (dump_items_lookup _ _ _ _ _ _ Hjs Hsec') as (j & Hj & Hdump).
  cbn [doc_path]. rewrite Hj.
  rewrite Hlen1, dump_ref in Hdump.
  assert (Hlsd : h1 !! ls = h !! ls) by (subst h1; by apply lookup_app_l).
  rewrite Hlsd in Hdump. unfold getitem in Hkey.
  destruct (h !! ls) as [d|]; [|done].
  destruct (dump_items (length h) h1 d) as [js'|] eqn:Hjs';
    cbn [mbind option_bind] in Hdump; [|done].
  injection Hdump as <-.
  destruct (dump_items_lookup _ _ _ _ _ _ Hjs' Hkey) as (j' & Hj' & Hdump').
  rewrite Hj'. f_equal.
  subst h1. rewrite dump_app in Hdump'; [|done|].
  - by eapply dump_det.
  - intros l ->. apply (Hsc ls d l); [|exists key; by apply dict_get_elem].
    by rewrite <- Hlsd, lookup_app_l.
Qed.

(** A load that does not merge a mapping (no file, a file that cannot be
    opened, text that is not a document, a document that is not a
    mapping) returns what [DEFAULT_SETTINGS] shares at that moment. *)
Lemma load_settings_keeps_default st sec key ls x :
  getitem (store st) DEFAULT_SETTINGS sec = Some (VRef ls) ->
  getitem (store st) ls key = Some x ->
  config_file st = None \/ config_denied st = true
  \/ config_file st = Some Garbage
  \/ (exists j, config_file st = Some (Document j) /\ is_dict j = false) ->
  lookup_path (store (load_settings st).2) (VRef (load_settings st).1)
    [sec; key]
  = Some x.
Proof.
  intros Hsec Hkey Hcase.
  destruct (getitem_refers _ _ _ _ Hsec) as (top & Htop & _).
  assert (Hsec' : dict_get sec top = Some (VRef ls)).
  { unfold getitem in Hsec. by rewrite Htop in Hsec. }
  assert (Hls : ls < length (store st)).
  { unfold getitem in Hkey. destruct (store st !! ls) eqn:Hl; [|done].
    by eapply lookup_lt_Some. }
  assert (Hlen : DEFAULT_SETTINGS < length (store st))
    by (by eapply lookup_lt_Some).
  assert (Hcopy : forall extra,
    lookup_path ((store st ++ extra) ++ [top])
      (VRef (length (store st ++ extra))) [sec; key] = Some x).
  { intros extra. apply lookup_path_two. exists ls. split.
    - unfold getitem. rewrite lookup_app_r by done.
      by rewrite Nat.sub_diag.
    - rewrite <- Hkey. apply getitem_ext.
      rewrite <- app_assoc. by apply lookup_app_l. }
  assert (Hone : forall st0 : state,
    store st0 = store st ->
    (let '(l, h1) := dict_copy DEFAULT_SETTINGS (store st0) in
     lookup_path (store (with_store st0 h1)) (VRef l) [sec; key]) = Some x).
  { intros st0 Hst0. unfold dict_copy, alloc. rewrite Hst0, Htop.
    cbn [default store with_store]. specialize (Hcopy []).
    by rewrite app_nil_r in Hcopy. }
  unfold load_settings.
  destruct (config_file st) as [c|] eqn:Hf.
  - destruct (config_denied st) eqn:Hden.
    + specialize (Hone st eq_refl).
      destruct c; by destruct (dict_copy DEFAULT_SETTINGS (store st)).
    + destruct c as [j|].
      * destruct Hcase as [?|[?|[?|(j0 & [= <-] & Hj)]]]; try done.
        unfold dict_copy, alloc. rewrite Htop. cbn [default]. rewrite Hj.
        rewrite lookup_app_l, Htop by done. cbn [default fst snd store
          with_store]. apply (Hcopy [top]).
      * specialize (Hone st eq_refl).
        by destruct (dict_copy DEFAULT_SETTINGS (store st)).
  - destruct (save_settings DEFAULT_SETTINGS st) as [saved st1] eqn:Hsave.
    assert (Hstore : store st1 = store st).
    { unfold save_settings in Hsave. destruct (config_denied st).
      - by injection Hsave as _ <-.
      - destruct (dump _ _ _); by injection Hsave as _ <-. }
    specialize (Hone st1 Hstore).
    by destruct (dict_copy DEFAULT_SETTINGS (store st1)).
Qed.

(** A load whose document sets [key] in the section [sec] of the
    defaults: the section is merged into the dictionary that
    [DEFAULT_SETTINGS] shares with the result, and the value lands
    there. *)
Lemma load_settings_shares st items sec sub key v :
  sound (store st) -> acyclic (store st) ->
  config_file st = Some (Document (JDict items)) ->
  config_denied st = false ->
  NoDup items.*1 ->
  is_Some (getitem initial_heap DEFAULT_SETTINGS sec) ->
  assoc sec items = Some (JDict sub) -> NoDup sub.*1 ->
  assoc key sub = Some v ->
  let settings := (load_settings st).1 in
  let h' := store (load_settings st).2 in
  exists ls,
    getitem h' DEFAULT_SETTINGS sec = Some (VRef ls)
    /\ getitem h' settings sec = Some (VRef ls)
    /\ settings <> DEFAULT_SETTINGS
    /\ sound h' /\ acyclic h'
    /\ (is_dict v = false
        \/ (forall y, lookup_path (store st) (VRef DEFAULT_SETTINGS) [sec; key]
                      <> Some (VRef y)) ->
        exists x,
          getitem h' ls key = Some x
          /\ dump (S (length h')) h' x = Some v
          /\ (is_dict v = false -> x = scalar_of v)).
Proof.
  intros Hs Ha Hf Hd Hnd [v0 Hsec] Hassoc Hnds Hkey.
  pose proof (acyclic_load_settings st Ha) as Ha'.
  cbv zeta. rewrite (load_settings_document st items Hf Hd) in *.
  cbn [fst snd store with_store] in *.
  pose proof Hs as (Htop & _).
  assert (Hsec0 : getitem (store st) DEFAULT_SETTINGS sec = Some v0).
  { rewrite <- Hsec. by apply getitem_ext. }
  destruct (default_sections sec v0 Hsec) as (ls & -> & Hls & _).
  destruct (copy_setup (store st) sec ls Hs Hsec0)
    as (HM0 & Hs1 & Hb & Hc & HM & HPls & HP5 & HlsM & H5M & Hls5 & HgetM
        & HoutM & Houtls & Hold).
  rewrite HM0 in *.
  set (h1 := (dict_copy DEFAULT_SETTINGS (store st)).2) in *.
  set (P := fun x => x = ls \/ is_top h1 x) in *.
  destruct (top_merge P (length (store st)) sec ls items h1
              Hb Hc HM HPls HlsM Hnd HgetM HoutM Houtls) as [_ Hmerge].
  destruct (Hmerge sub Hassoc) as (Hfr & HgetM' & _ & Hset).
  set (h' := update_nested_dict (length (store st)) (JDict items) h1) in *.
  assert (H5 : h' !! DEFAULT_SETTINGS = h1 !! DEFAULT_SETTINGS).
  { apply Hfr; [done | done | congruence]. }
  assert (Hlen5 : DEFAULT_SETTINGS < length (store st)).
  { apply getitem_refers in Hsec0 as (d & Hd0 & _). by eapply lookup_lt_Some. }
  assert (Hget5 : getitem h' DEFAULT_SETTINGS sec = Some (VRef ls)).
  { rewrite (getitem_ext h1) by done.
    by rewrite (getitem_ext (store st)) by (by apply Hold). }
  assert (Hs' : sound h').
  { apply (sound_extends h1); [done | apply extends_update_nested_dict | done]. }
  exists ls. split; [done|]. split; [done|]. split; [lia|].
  split; [done|]. split; [done|]. intros Hcase.
  destruct (is_dict v) eqn:Hv.
  - destruct Hcase as [?|Hnoref]; [done|].
    destruct (top_merge_mapping P (length (store st)) sec ls items sub key v h1
                Hb Hc HM HPls HlsM Hnd) as (x & Hx & Hdump); try done.
    { destruct Hs1 as (_ & Hrefs & _). intros l d y Hl Hr.
      by destruct (Hrefs l d y Hl Hr). }
    { intros y Hy. apply (Hnoref y). apply lookup_path_two. exists ls.
      split; [done|]. rewrite <- Hy. symmetry. apply getitem_ext.
      apply Hold. lia. }
    fold h' in Hx, Hdump.
    exists (VRef x). split; [done|]. split; [|done].
    destruct Ha' as (rank & Hbound & Hedge).
    assert (Hxl : x < length h').
    { apply getitem_refers in Hx as (d & Hdl & Hr).
      by destruct (Hedge ls d x Hdl Hr). }
    destruct (dump_total h' rank Hedge (S (length h')) (VRef x)) as [j Hj];
      [lia| |].
    { intros l [= <-]. split; [done|]. specialize (Hbound x Hxl). lia. }
    rewrite Hj. f_equal. by apply (Hdump _ _ Hj).
  - exists (scalar_of v).
    split; [by eapply Hset|]. split; [by apply dump_scalar | done].
Qed.

(** C10: in a sound store free of cycles, a load whose document sets
    [key] in the section [sec] of the defaults merges that section into
    the dictionary [ls] that [DEFAULT_SETTINGS] shares with the copy the
    load returns: after the load both refer to [ls] at [sec], so that
    every path below [sec] leads from [DEFAULT_SETTINGS] to what it leads
    to from the result, and the store stays sound and free of cycles.
    When the value [v] of the document is not a mapping, or the defaults
    hold no dictionary at that place, [ls] then holds at [key] a value
    that [json.dump] writes as [v], the value itself when [v] is not a
    mapping.  Every later load on this store returns that value for the
    key, whatever the settings file has become, unless the file is then a
    mapping that sets the key again or sets [sec] to something that is
    not a mapping; and [reset_settings], called later on this store
    whatever the settings file holds by then, returns [True] when the
    file can be opened and writes a document with [v] at [sec.key]. *)
Theorem load_settings_pollutes_defaults st items sec sub key v :
  sound (store st) -> acyclic (store st) ->
  config_file st = Some (Document (JDict items)) ->
  config_denied st = false ->
  NoDup items.*1 ->
  is_Some (getitem initial_heap DEFAULT_SETTINGS sec) ->
  assoc sec items = Some (JDict sub) -> NoDup sub.*1 ->
  assoc key sub = Some v ->
  let settings := (load_settings st).1 in
  let st1 := (load_settings st).2 in
  exists ls,
    getitem (store st1) DEFAULT_SETTINGS sec = Some (VRef ls)
    /\ getitem (store st1) settings sec = Some (VRef ls)
    /\ settings <> DEFAULT_SETTINGS
    /\ (forall below,
          lookup_path (store st1) (VRef DEFAULT_SETTINGS) (sec :: below)
          = lookup_path (store st1) (VRef settings) (sec :: below))
    /\ sound (store st1) /\ acyclic (store st1)
    /\ (is_dict v = false
        \/ (forall y, lookup_path (store st) (VRef DEFAULT_SETTINGS) [sec; key]
                      <> Some (VRef y)) ->
        exists x,
          getitem (store st1) ls key = Some x
          /\ dump (S (length (store st1))) (store st1) x = Some v
          /\ (is_dict v = false -> x = scalar_of v)
          /\ (forall st2,
                store st2 = store st1 ->
                (forall items2,
                   config_file st2 = Some (Document (JDict items2)) ->
                   config_denied st2 = false ->
                   NoDup items2.*1
                   /\ (assoc sec items2 = None
                       \/ (exists sub2, assoc sec items2 = Some (JDict sub2)
                                        /\ key ∉ sub2.*1))) ->
                lookup_path (store (load_settings st2).2)
                  (VRef (load_settings st2).1) [sec; key]
                = Some x)
          /\ (forall st2,
                store st2 = store st1 -> config_denied st2 = false ->
                fst (reset_settings st2) = true
                /\ exists doc,
                     config_file (snd (reset_settings st2))
                     = Some (Document doc)
                     /\ doc_path doc [sec; key] = Some v)).
Proof.
  intros Hs Ha Hf Hd Hnd Hsec Hassoc Hnds Hkey.
  destruct (load_settings_shares st items sec sub key v
              Hs Ha Hf Hd Hnd Hsec Hassoc Hnds Hkey)
    as (ls & Hg5 & HgM & Hne & Hs1 & Ha1 & Hvalue).
  cbv zeta. exists ls.
  split; [done|]. split; [done|]. split; [done|]. split.
  { intros below. cbn [lookup_path]. by rewrite Hg5, HgM. }
  split; [done|]. split; [done|]. intros Hcase.
  destruct (Hvalue Hcase) as (x & Hx & Hdump & Hscalar).
  exists x. split; [done|]. split; [done|]. split; [done|]. split.
  - intros st2 Hstore Hdoc2.
    destruct (config_file st2) as [[j|]|] eqn:Hf2;
      [destruct (config_denied st2) eqn:Hd2; [|destruct (is_dict j) eqn:Hj]|
      |];
      try (apply (load_settings_keeps_default st2 sec key ls x);
           rewrite ?Hstore; [done | done |]; rewrite ?Hf2; by eauto 6).
    destruct j as [| | | | | |items2]; try done.
    destruct (Hdoc2 items2 eq_refl eq_refl) as [Hnd2 Hsub2].
    apply (load_settings_fills_from_store st2 items2); rewrite ?Hstore;
      try done.
    apply lookup_path_two. by exists ls.
  - intros st2 Hstore Hden2.
    apply (reset_settings_writes_value st2 sec key ls x v);
      by rewrite ?Hstore.
Qed.

Lemma load_settings_pollutes_defaults_witness :
  let st := fresh (Some (Document Sample.dark_theme)) false in
  let st1 := (load_settings st).2 in
  getitem (store st1) DEFAULT_SETTINGS (lit "general") = Some (VRef 0)
  /\ getitem (store st1) 0 (lit "theme") = Some (VStr (lit "dark"))
  /\ fst (reset_settings (with_file st1 Garbage)) = true
  /\ exists doc,
       config_file (snd (reset_settings (with_file st1 Garbage)))
       = Some (Document doc)
       /\ doc_path doc [lit "general"; lit "theme"]
          = Some (JStr (lit "dark")).
Proof.
  cbv zeta.
  destruct (load_settings_pollutes_defaults
              (fresh (Some (Document Sample.dark_theme)) false)
              [(lit "general", JDict [(lit "theme", JStr (lit "dark"))])]
              (lit "general") [(lit "theme", JStr (lit "dark"))]
              (lit "theme") (JStr (lit "dark")))
    as (ls & Hg5 & _ & _ & _ & _ & _ & Hvalue).
  - exact sound_initial.
  - exact acyclic_initial.
  - reflexivity.
  - reflexivity.
  - apply NoDup_singleton.
  - exists (VRef 0). vm_compute. reflexivity.
  - vm_compute. reflexivity.
  - apply NoDup_singleton.
  - vm_compute. reflexivity.
  - destruct (Hvalue (or_introl eq_refl))
      as (x & Hx & _ & Hscalar & _ & Hreset).
    assert (Hls : ls = 0).
    { vm_compute in Hg5. by injection Hg5. }
    subst ls. rewrite (Hscalar eq_refl) in Hx.
    split; [vm_compute; reflexivity|]. split; [exact Hx|].
    exact (Hreset
             (with_file
                (load_settings
                   (fresh (Some (Document Sample.dark_theme)) false)).2
                Garbage) eq_refl eq_refl).
Defined.

(** A sample load whose document sets a key of a section to a mapping:
    [DEFAULT_SETTINGS] then holds the mapping at that place. *)
Lemma load_mapping_override_sample :
  let doc :=
    JDict [(lit "general",
            JDict [(lit "theme", JDict [(lit "mode", JStr (lit "dark"))])])] in
  let h := store (load_settings (fresh (Some (Document doc)) false)).2 in
  exists x,
    lookup_path h (VRef DEFAULT_SETTINGS) [lit "general"; lit "theme"]
    = Some x
    /\ dump (S (length h)) h x = Some (JDict [(lit "mode", JStr (lit "dark"))]).
Proof. eexists. split; vm_compute; reflexivity. Qed.

(** After the sample load, [reset_settings] succeeds and writes the user's
    theme as the default. *)
Lemma reset_after_load_writes_override :
  exists doc,
    reset_settings Sample.imported
    = (true, with_file (snd (reset_settings Sample.imported)) (Document doc))
    /\ doc_path doc [lit "general"; lit "theme"] = Some (JStr (lit "dark")).
Proof. eexists. split; vm_compute; reflexivity. Qed.

End ConfigFacts.

(** ** The log writer: further properties *)

Module WrappingFacts.
Import Textwrap TextwrapFacts.

Lemma join_nonempty (cs : list str) :
  cs <> [] -> Forall (fun c => c <> []) cs -> join cs <> [].
Proof.
  destruct cs as [|c cs]; [done|]. intros _ Hne. inversion Hne; subst.
  unfold join. simpl. by destruct c.
Qed.

Lemma drop_trailing_ws_nonempty_chunks cur_line :
  Forall (fun c => c <> []) cur_line ->
  Forall (fun c => c <> []) (drop_trailing_ws cur_line).
Proof.
  intros Hne. destruct (drop_trailing_ws_prefix cur_line) as [d Hd].
  rewrite Hd in Hne. by apply Forall_app in Hne as [? _].
Qed.

Lemma drop_trailing_ws_piece cur_line piece :
  Forall (fun c => c <> []) cur_line ->
  Forall (fun c => c <> []) (drop_trailing_ws (cur_line ++ [piece])).
Proof.
  intros Hne. destruct piece as [|a piece].
  - unfold drop_trailing_ws. rewrite last_snoc. cbn [strip_is_empty forallb].
    by rewrite removelast_last.
  - apply drop_trailing_ws_nonempty_chunks, Forall_app. split; [done|].
    by constructor.
Qed.

(** One pass of the outer loop adds no empty line. *)
Lemma wrap_step_nonempty_lines width lines chunks lines' chunks' :
  Forall (fun c => c <> []) chunks ->
  Forall (fun l => l <> []) lines ->
  wrap_step width lines chunks = (lines', chunks') ->
  Forall (fun l => l <> []) lines'.
Proof.
  intros Hne Hlines. unfold wrap_step.
  set (chunks1 := match chunks with
                  | c :: rest =>
                      if strip_is_empty c && nonempty lines then rest else chunks
                  | [] => chunks
                  end).
  assert (Hne1 : Forall (fun c => c <> []) chunks1).
  { subst chunks1. destruct chunks as [|c rest]; [done|].
    destruct (_ && _); [by inversion Hne | done]. }
  destruct (fill_line width 0 chunks1) as [[cur_line cur_len] chunks2] eqn:Hfill.
  apply fill_line_spec in Hfill as (Hsplit & _).
  rewrite Hsplit in Hne1. apply Forall_app in Hne1 as [Hcur Hrest].
  assert (Hfinish : forall cur_line1 chunks3,
    Forall (fun c => c <> []) (drop_trailing_ws cur_line1) ->
    (if nonempty (drop_trailing_ws cur_line1)
     then lines ++ [join (drop_trailing_ws cur_line1)] else lines, chunks3)
    = (lines', chunks') -> Forall (fun l => l <> []) lines').
  { intros cl ch Hcl [= <- _].
    destruct (drop_trailing_ws cl) as [|c0 cl0] eqn:Hd; [done|].
    cbn [nonempty]. apply Forall_app. split; [done|].
    constructor; [|done]. by apply join_nonempty. }
  destruct chunks2 as [|c2 r2].
  - apply Hfinish. by apply drop_trailing_ws_nonempty_chunks.
  - destruct (width <? length c2).
    + unfold handle_long_word. apply Hfinish.
      by apply drop_trailing_ws_piece.
    + apply Hfinish. by apply drop_trailing_ws_nonempty_chunks.
Qed.

Lemma wrap_loop_nonempty_lines fuel width lines chunks out :
  1 <= width ->
  Forall (fun c => c <> []) chunks ->
  Forall (fun l => l <> []) lines ->
  wrap_loop fuel width lines chunks = Some out ->
  Forall (fun l => l <> []) out.
Proof.
  intros Hw. revert lines chunks.
  induction fuel as [|fuel IH]; intros lines chunks Hne Hlines.
  - destruct chunks; simpl; [by intros [= <-] | done].
  - destruct chunks as [|c rest]; simpl; [by intros [= <-]|].
    destruct (wrap_step width lines (c :: rest)) as [lines' chunks'] eqn:Hstep.
    pose proof (wrap_step_nonempty_lines _ _ _ _ _ Hne Hlines Hstep) as Hl'.
    apply wrap_step_spec in Hstep as (_ & Hne' & _); [|done..].
    by apply IH.
Qed.

(** [textwrap.wrap] returns no empty line. *)
Lemma wrap_nonempty_lines text width lines :
  1 <= width -> wrap text width = Ok lines ->
  Forall (fun l => l <> []) lines.
Proof.
  intros Hw. unfold wrap, wrap_chunks.
  rewrite (proj2 (Nat.leb_gt width 0)) by lia.
  destruct (wrap_loop _ _ _ _) as [out|] eqn:Hloop; [|done].
  intros [= <-].
  eapply wrap_loop_nonempty_lines; [done | apply split_from_nonempty | done | done].
Qed.

(** *** A message of whitespace only *)

Lemma run_all p s : forallb p s = true -> run p s = length s.
Proof.
  induction s as [|c s IH]; [done|]. simpl.
  intros H. apply andb_prop in H as [-> H]. by rewrite IH.
Qed.

Lemma expandtabs_from_ws tabsize col s :
  forallb is_ws s = true -> forallb is_ws (expandtabs_from tabsize col s) = true.
Proof.
  revert col. induction s as [|c s IH]; intros col; [done|]. simpl.
  intros H. apply andb_prop in H as [Hc H].
  destruct (is_char tab c).
  - destruct (0 <? tabsize); [|by apply IH].
    rewrite forallb_app, forallb_replicate by reflexivity. by apply IH.
  - simpl. rewrite Hc. by apply IH.
Qed.

Lemma munge_whitespace_ws s :
  forallb is_ws s = true -> forallb is_ws (munge_whitespace s) = true.
Proof.
  intros H. unfold munge_whitespace, expandtabs.
  apply (expandtabs_from_ws 8 0) in H. revert H.
  generalize (expandtabs_from 8 0 s). intros t.
  induction t as [|c t IH]; [done|]. simpl.
  intros H. apply andb_prop in H as [Hc H].
  by rewrite translate_is_ws, Hc, IH.
Qed.

Lemma split_ws t :
  t <> [] -> forallb is_ws t = true -> split t = [t].
Proof.
  intros Hne Hws. unfold split. destruct t as [|c r]; [done|].
  cbn [length split_from]. unfold match_len.
  pose proof Hws as Hall. simpl in Hws. apply andb_prop in Hws as [Hc _].
  rewrite Hc, (run_all _ _ Hall).
  rewrite firstn_all, skipn_all. by destruct (length r).
Qed.

Lemma rfind_hyphen_from_ws i s stop :
  forallb is_ws s = true -> rfind_hyphen_from i s stop = None.
Proof.
  revert i stop. induction s as [|c s IH]; intros i [|stop]; try done.
  simpl. intros H. apply andb_prop in H as [Hc H]. rewrite IH by done.
  assert (is_hyphen c = false) as ->; [|done].
  unfold is_hyphen, is_char. case_bool_decide as Hh; [|done].
  subst c. by vm_compute in Hc.
Qed.

Lemma strip_is_empty_ws c : forallb is_ws c = true -> strip_is_empty c = true.
Proof.
  unfold strip_is_empty. induction c as [|a c IH]; [done|]. simpl.
  intros H. apply andb_prop in H as [Ha H].
  by rewrite (is_ws_isspace _ Ha), IH.
Qed.

Lemma wrap_loop_ws width fuel c :
  1 <= width -> c <> [] -> forallb is_ws c = true -> length c < fuel ->
  wrap_loop fuel width [] [c] = Some [].
Proof.
  intros Hw. revert c.
  induction fuel as [|fuel IH]; intros c Hne Hws Hfuel; [lia|].
  cbn [wrap_loop]. unfold wrap_step.
  rewrite (strip_is_empty_ws c Hws). cbn [nonempty andb fill_line].
  destruct (0 + length c <=? width) eqn:Hfit.
  - cbn [drop_trailing_ws]. unfold drop_trailing_ws. cbn [last].
    rewrite (strip_is_empty_ws c Hws). cbn [removelast nonempty].
    by destruct fuel.
  - apply Nat.leb_gt in Hfit.
    rewrite (proj2 (Nat.ltb_lt width (length c))) by lia.
    unfold handle_long_word, long_word_cut.
    rewrite (proj2 (Nat.ltb_ge width 1)) by lia.
    rewrite Nat.sub_0_r.
    rewrite (proj2 (Nat.ltb_lt width (length c))) by lia.
    unfold rfind_hyphen. rewrite rfind_hyphen_from_ws by done.
    cbn [app]. unfold drop_trailing_ws. cbn [last].
    rewrite strip_is_empty_ws by (by apply forallb_take).
    cbn [removelast nonempty].
    apply IH.
    + intros Hnil. apply (f_equal length) in Hnil.
      rewrite length_drop in Hnil. simpl in Hnil. lia.
    + by apply forallb_drop.
    + rewrite length_drop. lia.
Qed.

(** [textwrap.wrap] of a text made of whitespace only is the empty
    list. *)
Lemma wrap_ws text width :
  1 <= width -> forallb is_ws text = true -> wrap text width = Ok [].
Proof.
  intros Hw Hws. unfold wrap, wrap_chunks, split_chunks.
  rewrite (proj2 (Nat.leb_gt width 0)) by lia.
  apply munge_whitespace_ws in Hws. revert Hws.
  generalize (munge_whitespace text). intros t Hws.
  destruct t as [|c r]; [done|].
  rewrite split_ws by done.
  rewrite wrap_loop_ws; [done | done | done | done |].
  unfold total_len. simpl. rewrite app_nil_r. lia.
Qed.

End WrappingFacts.

Module EnhancedLoggingMore.
Import Textwrap EnhancedLogging EnhancedLoggingFacts Table.

(** X1: [wrap_message] returns for every message: at least one line, no
    line longer than the 50 characters of the message column, and no empty
    line except as the only one.  A message made of whitespace only (the
    empty message too) gives exactly one empty line. *)
Theorem wrap_message_lines msg :
  exists lines,
    wrap_message msg = Ok lines
    /\ lines <> []
    /\ Forall (fun l => length l <= 50) lines
    /\ (lines = [[]] \/ Forall (fun l => l <> []) lines)
    /\ (forallb is_ws msg = true -> lines = [[]]).
Proof.
  destruct (wrap_message_returns msg) as (wrapped & Hwrap & Hmsg & Hlen).
  pose proof (WrappingFacts.wrap_nonempty_lines msg 50 wrapped ltac:(lia) Hwrap)
    as Hne.
  eexists. split; [exact Hmsg|].
  destruct wrapped as [|l ls]; cbn [nonempty].
  - split; [done|]. split; [by repeat constructor|]. split; [by left | done].
  - split; [done|]. split; [done|]. split; [by right|].
    intros Hws. rewrite (WrappingFacts.wrap_ws msg 50) in Hwrap by (lia || done).
    discriminate.
Qed.

(** *** The bars of the rows stand below the crosses of the separator *)

Lemma aligned_segments (bodies segments : list str) :
  Forall2 (fun b d => length b = length d /\ "+"%char ∉ d) bodies segments ->
  forall i,
    concat (map (fun d => d ++ plus) segments) !! i = Some "+"%char ->
    concat (map (fun b => b ++ bar) bodies) !! i = Some "|"%char.
Proof.
  induction 1 as [|b d bodies segments [Hlen Hno] _ IH]; intros i; [done|].
  cbn [map concat].
  destruct (decide (i < length d)) as [Hlt|Hge].
  - rewrite !lookup_app_l by (rewrite ?length_app; simpl; lia).
    intros Hd. destruct Hno. by eapply list_elem_of_lookup_2.
  - destruct (decide (i = length d)) as [->|Hne].
    + intros _. rewrite lookup_app_l by (rewrite length_app; simpl; lia).
      rewrite lookup_app_r by lia. by rewrite Hlen, Nat.sub_diag.
    + rewrite !lookup_app_r by (rewrite length_app; simpl; lia).
      rewrite !length_app, Hlen. apply IH.
Qed.

Lemma aligned_lines (bodies segments : list str) :
  Forall2 (fun b d => length b = length d /\ "+"%char ∉ d) bodies segments ->
  forall i,
    (plus ++ concat (map (fun d => d ++ plus) segments)) !! i = Some "+"%char ->
    (bar ++ concat (map (fun b => b ++ bar) bodies)) !! i = Some "|"%char.
Proof.
  intros H [|i]; [done|]. cbn. by apply aligned_segments.
Qed.

Lemma plus_not_in_dashes n : "+"%char ∉ dashes n.
Proof. unfold dashes. intros H. by apply elem_of_replicate in H as [[=] _]. Qed.

(** The part of a cell before its bar. *)
Lemma cell_body content width :
  (len content <= width)%Z ->
  exists body, cell content width = body ++ bar
    /\ length body = length (dashes (width + padding * 2)).
Proof.
  intros Hfit. exists (spaces padding ++ content ++ spaces (width - len content + padding)).
  split; [unfold cell; by rewrite <- !app_assoc|].
  rewrite !length_app, !length_spaces, length_dashes.
  unfold padding, len in *. lia.
Qed.

Lemma blank_cell_body width :
  exists body, blank_cell width = body ++ bar
    /\ length body = length (dashes (width + padding * 2)).
Proof.
  exists (spaces (width + padding * 2)). split; [done|].
  by rewrite length_spaces, length_dashes.
Qed.

Lemma create_separator_line_segments :
  create_separator_line
  = plus ++ concat (map (fun d => d ++ plus) separator_segments).
Proof. reflexivity. Qed.

Lemma format_row_aligned values i :
  (forall name, (len (values name) <= width_of name)%Z) ->
  create_separator_line !! i = Some "+"%char ->
  format_row values !! i = Some "|"%char.
Proof.
  intros Hfit. rewrite create_separator_line_segments, format_row_eq.
  destruct (cell_body (values timestamp) 25 (Hfit timestamp)) as (b1 & -> & H1).
  destruct (cell_body (values task) 15 (Hfit task)) as (b2 & -> & H2).
  destruct (cell_body (values function) 30 (Hfit function)) as (b3 & -> & H3).
  destruct (cell_body (values file) 25 (Hfit file)) as (b4 & -> & H4).
  destruct (cell_body (values message) 50 (Hfit message)) as (b5 & -> & H5).
  destruct (cell_body (values process_type) 15 (Hfit process_type)) as (b6 & -> & H6).
  destruct (cell_body (values status) 15 (Hfit status)) as (b7 & -> & H7).
  intros Hsep.
  pose proof (aligned_lines [b1; b2; b3; b4; b5; b6; b7] separator_segments)
    as Hal.
  cbn [map concat] in Hal. rewrite <- !app_assoc in Hal. rewrite app_nil_r in Hal.
  rewrite <- !app_assoc.
  apply Hal; [|exact Hsep].
  unfold separator_segments. cbn [map col_widths].
  repeat (constructor; [split; [done | apply plus_not_in_dashes]|]).
  constructor.
Qed.

Lemma continuation_row_aligned content i :
  length content <= 50 ->
  create_separator_line !! i = Some "+"%char ->
  continuation_row content !! i = Some "|"%char.
Proof.
  intros Hfit. rewrite create_separator_line_segments, continuation_row_eq.
  destruct (blank_cell_body 25) as (b1 & -> & H1).
  destruct (blank_cell_body 15) as (b2 & -> & H2).
  destruct (blank_cell_body 30) as (b3 & -> & H3).
  destruct (cell_body content 50) as (b5 & -> & H5); [unfold len; lia|].
  intros Hsep.
  pose proof (aligned_lines [b1; b2; b3; b1; b5; b2; b2] separator_segments)
    as Hal.
  cbn [map concat] in Hal. rewrite <- !app_assoc in Hal. rewrite app_nil_r in Hal.
  rewrite <- !app_assoc.
  apply Hal; [|exact Hsep].
  unfold separator_segments. cbn [map col_widths].
  repeat (constructor; [split; [done | apply plus_not_in_dashes]|]).
  constructor.
Qed.

(** X2: the table is aligned.  The header is the separator, the title
    line and the separator again; the title line, the first row of a
    record and each of its continuation rows have a bar at every offset at
    which the separator has a cross (the separator and the rows are 197
    characters wide). *)
Theorem rows_align_with_separator
    self now callers fn p s task_name lines (r : str) (i : nat) :
  Forall (fun l => length l <= 50) lines ->
  r ∈ header_line
      :: format_row (values_of self now callers fn p s task_name lines)
      :: map continuation_row (tail lines) ->
  create_separator_line !! i = Some "+"%char ->
  r !! i = Some "|"%char
  /\ length r = length create_separator_line
  /\ create_header
     = lines_text [create_separator_line; header_line; create_separator_line].
Proof.
  intros Hlines Hr Hsep. split; [|split; [|reflexivity]].
  - apply elem_of_cons in Hr as [->|Hr].
    + revert Hsep. rewrite create_separator_line_segments.
      replace header_line with
        (bar ++ concat (map (fun b => b ++ bar)
               [lit "         TIMESTAMP         ";
                lit "       TASK      ";
                lit "            FUNCTION            ";
                lit "            FILE           ";
                lit "                       MESSAGE                      ";
                lit "   PROCESS_TYPE  ";
                lit "      STATUS     "]))
        by (vm_compute; reflexivity).
      apply (aligned_lines
               [lit "         TIMESTAMP         ";
                lit "       TASK      ";
                lit "            FUNCTION            ";
                lit "            FILE           ";
                lit "                       MESSAGE                      ";
                lit "   PROCESS_TYPE  ";
                lit "      STATUS     "]
               separator_segments).
      unfold separator_segments. cbn [map col_widths].
      repeat (constructor; [split; [done | apply plus_not_in_dashes]|]).
      constructor.
    + apply elem_of_cons in Hr as [->|Hr].
      * apply format_row_aligned; [|done]. intros name. by apply values_of_fit.
      * apply list_elem_of_fmap in Hr as (l & -> & Hl).
        apply continuation_row_aligned; [|done].
        apply (proj1 (Forall_forall _ _) Hlines).
        destruct lines; [by apply elem_of_nil in Hl | by right].
  - rewrite create_separator_line_length.
    apply elem_of_cons in Hr as [->|Hr]; [reflexivity|].
    apply elem_of_cons in Hr as [->|Hr].
    + apply length_format_row. intros name. by apply values_of_fit.
    + apply list_elem_of_fmap in Hr as (l & -> & Hl).
      apply length_continuation_row.
      apply (proj1 (Forall_forall _ _) Hlines).
      destruct lines; [by apply elem_of_nil in Hl | by right].
Qed.

Lemma rows_align_with_separator_witness :
  Forall (fun l => length l <= 50) [lit "hello"]
  /\ create_separator_line !! 28 = Some "+"%char
  /\ format_row (values_of Sample.logger Sample.clock Sample.stack (lit "main")
                   UI INFO None [lit "hello"]) !! 28
     = Some "|"%char.
Proof.
  assert (H1 : Forall (fun l => length l <= 50) [lit "hello"]).
  { constructor; [vm_compute; lia | constructor]. }
  assert (H2 : create_separator_line !! 28 = Some "+"%char) by reflexivity.
  split; [exact H1|]. split; [exact H2|].
  refine (proj1 (rows_align_with_separator Sample.logger Sample.clock
                   Sample.stack (lit "main") UI INFO None [lit "hello"] _ 28
                   H1 _ H2)).
  apply elem_of_cons; right; apply elem_of_cons; by left.
Defined.

Lemma log_entry_frame self now callers fn msg a b task_name w w' :
  log_entry self now callers fn msg a b task_name w = Ok w' ->
  (forall path, path <> log_file self ->
     FS.contents (fs w') !! path = FS.contents (fs w) !! path)
  /\ FS.denied (fs w') = FS.denied (fs w)
  /\ exit_handlers w' = exit_handlers w
  /\ exists s,
       coerce_status b = Ok s
       /\ console w'
          = console w
            ++ [(get_log_level s,
                 default (project_name self) task_name ++ lit " - " ++ fn
                   ++ lit ": " ++ msg)].
Proof.
  unfold log_entry.
  destruct (coerce_process_type a) as [p| |]; [|done..].
  destruct (coerce_status b) as [s| |]; [|done..].
  cbn [mbind result_bind].
  destruct (wrap_message msg) as [lines| |]; [|done..].
  cbn [mbind result_bind]. unfold FS.append.
  case_bool_decide as Hden; [done|].
  cbn [mbind result_bind]. intros [= <-].
  change (fs (emit ?l ?t (with_fs w ?f))) with f. cbn [FS.contents FS.denied].
  split; [|split; [done|split; [done|]]].
  - intros path Hpath. by rewrite lookup_insert_ne.
  - by exists s.
Qed.

(** X3: a call of [log_entry] that returns has changed one file only, its
    log file, has left the registered finalizers as they were, and has
    sent one record to [logging]: the level is the one of the coerced
    status and the text holds the task, the function and the whole
    message, neither wrapped nor cut. *)
Theorem log_entry_effects self now callers fn msg a b task_name w w' :
  log_entry self now callers fn msg a b task_name w = Ok w' ->
  (forall path, path <> log_file self ->
     FS.contents (fs w') !! path = FS.contents (fs w) !! path)
  /\ FS.denied (fs w') = FS.denied (fs w)
  /\ exit_handlers w' = exit_handlers w
  /\ exists s,
       coerce_status b = Ok s
       /\ console w'
          = console w
            ++ [(get_log_level s,
                 default (project_name self) task_name ++ lit " - " ++ fn
                   ++ lit ": " ++ msg)].
Proof. apply log_entry_frame. Qed.

Lemma log_entry_effects_witness :
  exists w',
    log_entry Sample.logger Sample.clock Sample.stack (lit "main") (lit "hello")
      (Member UI) (Text (lit "Critical")) None (Sample.world_with []) = Ok w'
    /\ console w'
       = [(50%Z, lit "app - main: hello")].
Proof.
  assert (H : exists w',
    log_entry Sample.logger Sample.clock Sample.stack (lit "main") (lit "hello")
      (Member UI) (Text (lit "Critical")) None (Sample.world_with []) = Ok w').
  { eexists. vm_compute. reflexivity. }
  destruct H as [w' H]. exists w'. split; [exact H|].
  destruct (log_entry_effects _ _ _ _ _ _ _ _ _ _ H)
    as (_ & _ & _ & s & Hs & Hc).
  rewrite Hc. vm_compute in Hs. injection Hs as <-. reflexivity.
Defined.

Lemma add_closing_line_frame self now w :
  (forall path, path <> log_file self ->
     FS.contents (fs (add_closing_line self now w)) !! path
     = FS.contents (fs w) !! path)
  /\ FS.denied (fs (add_closing_line self now w)) = FS.denied (fs w)
  /\ console (add_closing_line self now w) = console w
  /\ exit_handlers (add_closing_line self now w) = exit_handlers w
  /\ (FS.contents (fs w) !! log_file self = None ->
      add_closing_line self now w = w)
  /\ (log_file self ∈ FS.denied (fs w) -> add_closing_line self now w = w).
Proof.
  split; [|split; [|split; [|split; [|split]]]];
    try (intros H; apply add_closing_line_swallows; by auto).
  all: unfold add_closing_line, FS.append.
  all: destruct (nonempty (log_file self) && FS.exists_ (log_file self) (fs w));
    [|done].
  all: case_bool_decide; [done|].
  all: change (fs (with_fs w ?f)) with f; cbn [FS.contents FS.denied]; try done.
  intros path Hpath. by rewrite lookup_insert_ne.
Qed.

(** X4: the finalizer changes at most one file, its log file, sends
    nothing to [logging] and registers nothing; when the log file is
    missing or cannot be opened it changes nothing at all: it does not
    create the file. *)
Theorem add_closing_line_effects self now w :
  (forall path, path <> log_file self ->
     FS.contents (fs (add_closing_line self now w)) !! path
     = FS.contents (fs w) !! path)
  /\ FS.denied (fs (add_closing_line self now w)) = FS.denied (fs w)
  /\ console (add_closing_line self now w) = console w
  /\ exit_handlers (add_closing_line self now w) = exit_handlers w
  /\ (FS.contents (fs w) !! log_file self = None ->
      add_closing_line self now w = w)
  /\ (log_file self ∈ FS.denied (fs w) -> add_closing_line self now w = w).
Proof. apply add_closing_line_frame. Qed.

(** *** The construction of a writer *)

Lemma basename_from_split acc path :
  exists dir,
    acc ++ path = dir ++ basename_from acc path
    /\ (dir = [] \/ last dir = Some slash).
Proof.
  revert acc. induction path as [|c r IH]; intros acc.
  - exists []. split; [by rewrite app_nil_r | by left].
  - cbn [basename_from]. unfold is_char. case_bool_decide as Hc.
    + subst c. destruct (IH []) as (dir & Hdir & Hlast).
      exists (acc ++ slash :: dir). split.
      * cbn [app] in Hdir. rewrite <- app_assoc. cbn [app]. by rewrite <- Hdir.
      * right. destruct Hlast as [->|Hlast].
        -- by rewrite last_snoc.
        -- rewrite last_app, last_cons, Hlast. done.
    + destruct (IH (acc ++ [c])) as (dir & Hdir & Hlast).
      exists dir. split; [|done]. by rewrite <- Hdir, <- app_assoc.
Qed.

Lemma basename_from_no_slash acc path :
  slash ∉ acc -> slash ∉ basename_from acc path.
Proof.
  revert acc. induction path as [|c r IH]; intros acc Hacc; [done|].
  cbn [basename_from]. unfold is_char. case_bool_decide as Hc.
  - apply IH. apply not_elem_of_nil.
  - apply IH. rewrite elem_of_app. intros [?|Hin]; [done|].
    apply elem_of_cons in Hin as [?|Hin]; [congruence | by apply elem_of_nil in Hin].
Qed.

(** X5: the source file that a record reports.  [_get_caller_info] walks
    three frames up from its own: for a call of [log_entry] itself that
    is the caller of the caller (the caller when the stack ends there),
    and for a call of a severity method it is the caller of the method.
    What is reported is the base name of that frame's file: the part of
    the path after its last slash. *)
Theorem source_file_of_frames :
  (forall c, source_file_of [c] = basename (frame_filename c))
  /\ (forall c1 c2 rest,
        source_file_of (c1 :: c2 :: rest) = basename (frame_filename c2))
  /\ (forall method c rest,
        source_file_of (frame_of method :: c :: rest)
        = basename (frame_filename c))
  /\ (forall callers, slash ∉ source_file_of callers)
  /\ (forall path, exists dir,
        path = dir ++ basename path
        /\ (dir = [] \/ last dir = Some slash)).
Proof.
  split; [done|]. split; [done|]. split; [done|]. split.
  - intros callers. unfold source_file_of, get_caller_info. cbn [fst].
    apply basename_from_no_slash, not_elem_of_nil.
  - intros path. apply (basename_from_split [] path).
Qed.

Lemma setup_logging_cells self now callers lines :
  let values :=
    values_of self now
      (frame_of "log_info" :: frame_of "setup_logging" :: callers)
      (lit "setup_logging") SYSTEM INFO None lines in
  values function = lit "setup_logging"
  /\ values status = lit "information"
  /\ values file = lit "enhanced_logging_service."
  /\ values message = default [] (head lines).
Proof. repeat split; vm_compute; reflexivity. Qed.

(** X6: the construction of a writer.  When the log file cannot be
    created the construction raises [OSError].  Otherwise the writer
    holds the path [log_dir/project_stamp.log] and has the debug mode on,
    its finalizer is registered, and the file holds the header followed by
    the record of the start, whatever the file held before; that record
    reports the function [setup_logging], the status [information] and the
    file of the module itself, cut to the 25 characters of the column. *)
Theorem setup_logging_starts_file project log_dir stamp now callers w :
  let path := path_join log_dir (project ++ lit "_" ++ stamp ++ lit ".log") in
  let self :=
    {| project_name := project; log_file := path; debug_mode := true |} in
  (path ∈ FS.denied (fs w) ->
   setup_logging project log_dir stamp now callers w = Raise OSError)
  /\ (path ∉ FS.denied (fs w) ->
      exists w' lines values,
        setup_logging project log_dir stamp now callers w = Ok (self, w')
        /\ wrap_message
             (lit "Iniciado logger para " ++ project ++ lit " v" ++ APP_VERSION)
           = Ok lines
        /\ FS.read path (fs w')
           = create_header ++ entry_text values lines INFO
        /\ values function = lit "setup_logging"
        /\ values status = lit "information"
        /\ values file = lit "enhanced_logging_service."
        /\ values message = default [] (head lines)
        /\ exit_handlers w' = self :: exit_handlers w).
Proof.
  cbv zeta. unfold setup_logging, log_info, FS.overwrite. cbn [log_file].
  destruct (wrap_message_returns
              (lit "Iniciado logger para " ++ project ++ lit " v" ++ APP_VERSION))
    as (wrapped & _ & Hlines & _).
  revert Hlines.
  generalize (if nonempty wrapped then wrapped else [[]]).
  generalize (lit "Iniciado logger para " ++ project ++ lit " v" ++ APP_VERSION).
  generalize (path_join log_dir (project ++ lit "_" ++ stamp ++ lit ".log")).
  generalize create_header.
  intros header path msg lines Hlines. split.
  - intros Hden. by rewrite bool_decide_eq_true_2.
  - intros Hopen. rewrite bool_decide_eq_false_2 by done.
    cbn [mbind result_bind].
    set (self := {| project_name := project; log_file := path;
                    debug_mode := true |}).
    set (w1 := atexit_register self _).
    destruct (log_entry_appends self now
                (frame_of "log_info" :: frame_of "setup_logging" :: callers)
                (lit "setup_logging") msg (Member SYSTEM) (Member INFO) None w1
                SYSTEM INFO lines Hopen eq_refl eq_refl Hlines)
      as (w' & Hcall & Hread & _ & Hh).
    rewrite Hcall. cbn [mbind result_bind].
    exists w', lines,
      (values_of self now
         (frame_of "log_info" :: frame_of "setup_logging" :: callers)
         (lit "setup_logging") SYSTEM INFO None lines).
    split; [reflexivity|]. split; [exact Hlines|].
    split; [|split; [|split; [|split; [|split]]]];
      try apply setup_logging_cells; [|exact Hh].
    change (log_file self) with path in Hread. rewrite Hread. f_equal.
    apply read_written.
Qed.

End EnhancedLoggingMore.

(** ** The functions of the module [enhanced_logging_service] *)

Module EnhancedLoggingModuleFacts.
Import Textwrap EnhancedLogging EnhancedLoggingFacts EnhancedLoggingModule.

(** X7: the functions [info], [debug], [success], [warning], [error] and
    [critical] of the module write, through the global writer, a record
    of the status that goes with their name ([error] writes [failure]).
    Whoever calls them, the record reports the file of the module itself,
    cut to the 25 characters of the column: the frame three levels up is
    the one of the function of the module.  [debug] writes when the debug
    mode of the writer is on. *)
Theorem module_functions_report_own_file
    helper st now callers fn msg pt (s : session) :
  (helper, st) ∈ [(info, INFO); (debug, DEBUG); (success, SUCCESS);
                  (warning, WARNING); (error, FAILURE); (critical, CRITICAL)] ->
  log_file (fst s) ∉ FS.denied (fs (snd s)) ->
  (st = DEBUG -> debug_mode (fst s) = true) ->
  exists w' p lines values,
    helper now callers fn msg pt s = Ok (fst s, w')
    /\ coerce_process_type pt = Ok p
    /\ wrap_message msg = Ok lines
    /\ FS.read (log_file (fst s)) (fs w')
       = FS.read (log_file (fst s)) (fs (snd s)) ++ entry_text values lines st
    /\ values file = lit "enhanced_logging_service."
    /\ values function = take 30 fn
    /\ values status = take 15 (LogStatus_value st)
    /\ values process_type = take 15 (ProcessType_value p)
    /\ values message = default [] (head lines).
Proof.
  intros Hin Hopen Hdebug. destruct s as [g w]. cbn [fst snd] in *.
  destruct (coerce_process_type_returns pt) as [p Hp].
  destruct (wrap_message_returns msg) as (wrapped & _ & Hlines & _).
  revert Hlines. generalize (if nonempty wrapped then wrapped else [[]]).
  intros lines Hlines.
  assert (Hgen : forall method helper_name,
    exists w' values,
      (w1 ← log_entry g now (frame_of method :: frame_of helper_name :: callers)
              fn msg pt (Member st) None w; Ok (g, w1)) = Ok (g, w')
      /\ FS.read (log_file g) (fs w')
         = FS.read (log_file g) (fs w) ++ entry_text values lines st
      /\ values file = lit "enhanced_logging_service."
      /\ values function = take 30 fn
      /\ values status = take 15 (LogStatus_value st)
      /\ values process_type = take 15 (ProcessType_value p)
      /\ values message = default [] (head lines)).
  { intros method helper_name.
    destruct (log_entry_appends g now
                (frame_of method :: frame_of helper_name :: callers)
                fn msg pt (Member st) None w p st lines Hopen Hp eq_refl Hlines)
      as (w' & Hcall & Hread & _).
    exists w'. eexists. rewrite Hcall. split; [reflexivity|].
    split; [exact Hread|].
    repeat split. }
  repeat (apply elem_of_cons in Hin as [[= -> ->]|Hin]);
    [ | | | | | | by apply elem_of_nil in Hin ].
  - destruct (Hgen "log_info" "info") as (w' & values & H & Hrest).
    by exists w', p, lines, values.
  - destruct (Hgen "log_debug" "debug") as (w' & values & H & Hrest).
    exists w', p, lines, values. split; [|done].
    unfold debug, forward, log_debug. cbn [fst snd].
    by rewrite (Hdebug eq_refl).
  - destruct (Hgen "log_success" "success") as (w' & values & H & Hrest).
    by exists w', p, lines, values.
  - destruct (Hgen "log_warning" "warning") as (w' & values & H & Hrest).
    by exists w', p, lines, values.
  - destruct (Hgen "log_error" "error") as (w' & values & H & Hrest).
    by exists w', p, lines, values.
  - destruct (Hgen "log_critical" "critical") as (w' & values & H & Hrest).
    by exists w', p, lines, values.
Qed.

Lemma module_functions_report_own_file_witness :
  exists w' values,
    info Sample.clock Sample.stack (lit "main") (lit "hello") (Member UI)
      (Sample.logger, Sample.world_with [])
    = Ok (Sample.logger, w')
    /\ FS.read Sample.path (fs w')
       = entry_text values [lit "hello"] INFO
    /\ values file = lit "enhanced_logging_service.".
Proof.
  assert (H1 : (info, INFO) ∈ [(info, INFO); (debug, DEBUG); (success, SUCCESS);
                  (warning, WARNING); (error, FAILURE); (critical, CRITICAL)])
    by (apply elem_of_cons; by left).
  assert (H2 : log_file (fst (Sample.logger, Sample.world_with []))
               ∉ FS.denied (fs (snd (Sample.logger, Sample.world_with [])))).
  { vm_compute. discriminate. }
  destruct (module_functions_report_own_file info INFO Sample.clock Sample.stack
              (lit "main") (lit "hello") (Member UI)
              (Sample.logger, Sample.world_with []) H1 H2)
    as (w' & p & lines & values & Hcall & _ & Hl & Hread & Hfile & _);
    [discriminate|].
  vm_compute in Hl. injection Hl as <-.
  exact (ex_intro _ w' (ex_intro _ values (conj Hcall (conj Hread Hfile)))).
Defined.

Lemma debug_mode_text_line enabled :
  wrap_message (debug_mode_text enabled) = Ok [debug_mode_text enabled].
Proof. destruct enabled; vm_compute; reflexivity. Qed.

(** X8: [set_debug] sets the debug mode of the global writer and leaves
    its file and its project as they are.  When the log file can be
    opened it appends one row of status [information] for the function
    [set_debug_mode], whose message tells the new mode; when it cannot,
    the mode is changed all the same and [OSError] is raised.  After
    [set_debug(False)], [debug] returns without writing anything and
    without opening the file, whatever the world; after [set_debug(True)]
    it does what [log_entry] does for the status [DEBUG]. *)
Theorem set_debug_switches_debug_records enabled now callers (s : session) :
  let g' := fst (set_debug enabled now callers s) in
  g' = {| project_name := project_name (fst s); log_file := log_file (fst s);
          debug_mode := enabled |}
  /\ (log_file (fst s) ∈ FS.denied (fs (snd s)) ->
      snd (set_debug enabled now callers s) = Raise OSError)
  /\ (log_file (fst s) ∉ FS.denied (fs (snd s)) ->
      exists w' values,
        snd (set_debug enabled now callers s) = Ok w'
        /\ FS.read (log_file (fst s)) (fs w')
           = FS.read (log_file (fst s)) (fs (snd s))
             ++ format_row values ++ nl
        /\ values message = debug_mode_text enabled
        /\ values function = lit "set_debug_mode"
        /\ values status = lit "information")
  /\ (forall now' callers' fn msg pt w,
        debug now' callers' fn msg pt (g', w)
        = if enabled
          then w' ← log_entry g' now'
                      (frame_of "log_debug" :: frame_of "debug" :: callers')
                      fn msg pt (Member DEBUG) None w;
               Ok (g', w')
          else Ok (g', w)).
Proof.
  destruct s as [g w]. cbv zeta. unfold set_debug, set_debug_mode.
  cbn [fst snd]. unfold log_info.
  pose proof (debug_mode_text_line enabled) as Hlines. revert Hlines.
  generalize (debug_mode_text enabled). intros msg Hlines.
  set (g' := {| project_name := project_name g; log_file := log_file g;
                debug_mode := enabled |}).
  split; [done|]. split; [|split].
  - intros Hden. by apply log_entry_denied.
  - intros Hopen.
    destruct (log_entry_appends g' now
                (frame_of "log_info" :: frame_of "set_debug_mode"
                 :: frame_of "set_debug" :: callers)
                (lit "set_debug_mode") msg (Member SYSTEM) (Member INFO) None w
                SYSTEM INFO [msg] Hopen eq_refl eq_refl Hlines)
      as (w' & Hcall & Hread & _).
    exists w'. eexists. split; [exact Hcall|]. split.
    + change (log_file g') with (log_file g) in Hread. rewrite Hread.
      unfold entry_text. cbn [tail map concat].
      rewrite bool_decide_eq_false_2 by discriminate.
      by rewrite !app_nil_r.
    + repeat split.
  - intros now' callers' fn msg' pt w0. unfold debug, forward, log_debug.
    cbn [fst snd]. change (debug_mode g') with enabled.
    by destruct enabled.
Qed.

(** *** Two writers in one process *)

Lemma setup_logging_inv project log_dir stamp now callers w self w' :
  setup_logging project log_dir stamp now callers w = Ok (self, w') ->
  self = {| project_name := project;
            log_file := path_join log_dir
                          (project ++ lit "_" ++ stamp ++ lit ".log");
            debug_mode := true |}
  /\ log_file self <> []
  /\ is_Some (FS.contents (fs w') !! log_file self)
  /\ (log_file self ∉ FS.denied (fs w'))
  /\ FS.denied (fs w') = FS.denied (fs w)
  /\ (forall path, path <> log_file self ->
        FS.contents (fs w') !! path = FS.contents (fs w) !! path)
  /\ exit_handlers w' = self :: exit_handlers w.
Proof.
  intros Hsetup.
  pose proof (setup_logging_registers_once _ _ _ _ _ _ _ _ Hsetup) as Hreg.
  assert (Hne : path_join log_dir (project ++ lit "_" ++ stamp ++ lit ".log")
                <> []).
  { apply path_join_nonempty. by destruct project. }
  revert Hsetup Hne. unfold setup_logging, log_info, FS.overwrite.
  cbn [log_file].
  generalize (lit "Iniciado logger para " ++ project ++ lit " v" ++ APP_VERSION).
  generalize (path_join log_dir (project ++ lit "_" ++ stamp ++ lit ".log")).
  generalize create_header. generalize (lit "setup_logging").
  intros fn header path msg.
  case_bool_decide as Hden; [done|]. cbn [mbind result_bind].
  destruct (log_entry _ _ _ _ _ _ _ _ _) as [w2| |] eqn:Hentry; [|done..].
  cbn [mbind result_bind]. intros [= <- <-] Hne.
  pose proof (log_entry_keeps_file _ _ _ _ _ _ _ _ _ _ Hentry)
    as (Hex & Hden2 & Hopen).
  destruct (EnhancedLoggingMore.log_entry_frame _ _ _ _ _ _ _ _ _ _ Hentry)
    as (Hfr & _).
  cbn [log_file] in *.
  split; [done|]. split; [done|]. split; [done|].
  split; [by rewrite Hden2|]. split; [done|]. split; [|done].
  intros p Hp. rewrite Hfr by done.
  change (fs (atexit_register ?h (with_fs w ?f))) with f.
  cbn [FS.contents]. by rewrite lookup_insert_ne.
Qed.

Lemma read_frame path f f' :
  FS.contents f' !! path = FS.contents f !! path ->
  FS.read path f' = FS.read path f.
Proof. unfold FS.read. by intros ->. Qed.

(** X9: a process that builds a second writer with [setup] keeps the
    finalizer of the first one registered: both run when the process
    leaves, the second writer's first.  When the two log files differ,
    each ends with one footer block.  When the second writer has the name
    and the time stamp of the first (the same second), the two share one
    file: the second construction has emptied it, and the file ends with
    two footer blocks. *)
Theorem setup_keeps_first_finalizer
    log_dir stamp1 stamp2 project now1 now2 now3 callers1 callers2 w
    (s1 s2 : session) :
  exit_handlers w = [] ->
  import_module log_dir stamp1 now1 callers1 w = Ok s1 ->
  setup project log_dir stamp2 now2 callers2 s1 = Ok s2 ->
  let final := process_exit now3 (snd s2) in
  exit_handlers (snd s2) = [fst s2; fst s1]
  /\ (get_log_file s2 <> get_log_file s1 ->
      FS.read (get_log_file s2) (fs final)
      = FS.read (get_log_file s2) (fs (snd s2)) ++ footer now3
      /\ FS.read (get_log_file s1) (fs final)
         = FS.read (get_log_file s1) (fs (snd s1)) ++ footer now3)
  /\ (get_log_file s2 = get_log_file s1 ->
      FS.read (get_log_file s2) (fs final)
      = FS.read (get_log_file s2) (fs (snd s2)) ++ footer now3 ++ footer now3)
  /\ (project = APP_NAME -> stamp2 = stamp1 ->
      get_log_file s2 = get_log_file s1).
Proof.
  destruct s1 as [g1 w1], s2 as [g2 w2]. unfold import_module, setup, construct.
  cbn [fst snd get_log_file]. intros Hnone H1 H2.
  apply setup_logging_inv in H1 as (Hg1 & Hne1 & Hex1 & Hop1 & Hd1 & Hfr1 & Hh1).
  apply setup_logging_inv in H2 as (Hg2 & Hne2 & Hex2 & Hop2 & Hd2 & Hfr2 & Hh2).
  rewrite Hnone in Hh1. rewrite Hh1 in Hh2.
  cbv zeta. unfold process_exit. rewrite Hh2. cbn [run_exit_handlers].
  change (get_log_file (g1, w1)) with (log_file g1).
  change (get_log_file (g2, w2)) with (log_file g2).
  destruct (add_closing_line_appends g2 now3 w2 Hne2 Hex2 Hop2)
    as (HrA & HexA & HdA & _).
  destruct (EnhancedLoggingMore.add_closing_line_frame g2 now3 w2)
    as (HfrA & _).
  set (wA := add_closing_line g2 now3 w2) in *.
  assert (HexA1 : is_Some (FS.contents (fs wA) !! log_file g1)).
  { destruct (decide (log_file g1 = log_file g2)) as [->|Hdiff]; [done|].
    rewrite HfrA by done. by rewrite Hfr2. }
  assert (HopA1 : log_file g1 ∉ FS.denied (fs wA)).
  { by rewrite HdA, Hd2. }
  destruct (add_closing_line_appends g1 now3 wA Hne1 HexA1 HopA1)
    as (HrB & _).
  destruct (EnhancedLoggingMore.add_closing_line_frame g1 now3 wA)
    as (HfrB & _).
  split; [done|]. split; [|split].
  - intros Hdiff. split.
    + rewrite (read_frame _ _ _ (HfrB _ Hdiff)). exact HrA.
    + rewrite HrB. f_equal.
      rewrite (read_frame _ (fs w2) (fs wA)) by (apply HfrA; congruence).
      apply read_frame, Hfr2. congruence.
  - intros Hsame. rewrite Hsame, HrB, <- Hsame, HrA. by rewrite <- app_assoc.
  - intros -> ->. by rewrite Hg1, Hg2.
Qed.

Lemma setup_keeps_first_finalizer_witness :
  import_module Sample.log_dir Sample.stamp EnhancedLogging.Sample.clock []
    Sample.start = Ok Sample.imported
  /\ setup APP_NAME Sample.log_dir Sample.stamp EnhancedLogging.Sample.clock []
       Sample.imported = Ok Sample.again
  /\ exit_handlers (snd Sample.again)
     = [fst Sample.again; fst Sample.imported].
Proof.
  assert (H1 : import_module Sample.log_dir Sample.stamp
                 EnhancedLogging.Sample.clock [] Sample.start
               = Ok Sample.imported) by (vm_compute; reflexivity).
  assert (H2 : setup APP_NAME Sample.log_dir Sample.stamp
                 EnhancedLogging.Sample.clock [] Sample.imported
               = Ok Sample.again) by (vm_compute; reflexivity).
  split; [exact H1|]. split; [exact H2|].
  exact (proj1 (setup_keeps_first_finalizer Sample.log_dir Sample.stamp
                  Sample.stamp APP_NAME EnhancedLogging.Sample.clock
                  EnhancedLogging.Sample.clock EnhancedLogging.Sample.clock
                  [] [] Sample.start Sample.imported Sample.again
                  eq_refl H1 H2)).
Defined.

End EnhancedLoggingModuleFacts.

(** ** [logging_service.py] *)

Module LoggingServiceFacts.
Import Textwrap EnhancedLogging EnhancedLoggingFacts LoggingService.

Lemma lookup_name_not_a_level name :
  lookup_name name logging_attributes = Some NotALevel
  <-> name = lit "BASIC_FORMAT" \/ name = lit "_STYLES".
Proof.
  unfold logging_attributes. cbn [lookup_name].
  repeat (case_bool_decide;
          [ subst name; split;
            [ first [ by intros [=] | intros _; by left | intros _; by right ]
            | first [ done | intros [Heq|Heq]; vm_compute in Heq; discriminate ] ]
          | ]).
  split; [done|]. intros [-> | ->]; congruence.
Qed.

(** X10: [log_enhanced] while no tabular writer is set up.  It returns
    [False], writes to no file and sends one record, [function: message],
    to the root logger.  The level of the record is found by the upper
    case of the level name among the attributes of [logging], so the name
    is matched whatever its case; [success] and every unknown name give
    [INFO].  The call raises [TypeError] exactly when the upper case of
    the name is [BASIC_FORMAT] or [_STYLES], attributes of [logging] that
    are not levels. *)
Theorem log_enhanced_without_writer now callers fn msg level pt w :
  (log_enhanced None now callers fn msg level pt w = Raise TypeError
   \/ exists n,
        log_enhanced None now callers fn msg level pt w
        = Ok (false, emit n (fn ++ lit ": " ++ msg) w)
        /\ level_attribute level = Level n)
  /\ (log_enhanced None now callers fn msg level pt w = Raise TypeError
      <-> upper level = Some (lit "BASIC_FORMAT")
          \/ upper level = Some (lit "_STYLES"))
  /\ (forall level', level <> lit "success" -> level' <> lit "success" ->
        upper level = upper level' ->
        level_attribute level = level_attribute level')
  /\ (forall name,
        upper level = Some name ->
        lookup_name name logging_attributes = None ->
        level_attribute level = Level logging_INFO)
  /\ level_attribute (lit "success") = Level logging_INFO
  /\ level_attribute (lit "info") = Level logging_INFO
  /\ level_attribute (lit "debug") = Level logging_DEBUG
  /\ level_attribute (lit "warning") = Level logging_WARNING
  /\ level_attribute (lit "error") = Level logging_ERROR
  /\ level_attribute (lit "critical") = Level logging_CRITICAL.
Proof.
  assert (Hcall : log_enhanced None now callers fn msg level pt w
                  = match level_attribute level with
                    | Level n => Ok (false, emit n (fn ++ lit ": " ++ msg) w)
                    | NotALevel => Raise TypeError
                    end).
  { unfold log_enhanced, root_log. by destruct (level_attribute level). }
  assert (Hraise : level_attribute level = NotALevel
                   <-> upper level = Some (lit "BASIC_FORMAT")
                       \/ upper level = Some (lit "_STYLES")).
  { unfold level_attribute. case_bool_decide as Hs.
    - subst level. split; [done|]. intros [H|H]; vm_compute in H; discriminate.
    - destruct (upper level) as [name|]; cbn [mbind option_bind].
      + destruct (lookup_name name logging_attributes) as [[n|]|] eqn:Hl.
        * split; [done|]. intros [[= ->]|[= ->]]; vm_compute in Hl; discriminate.
        * split; [|done]. intros _.
          apply lookup_name_not_a_level in Hl as [-> | ->]; auto.
        * split; [done|]. intros [[= ->]|[= ->]]; vm_compute in Hl; discriminate.
      + split; [done|]. by intros [?|?]. }
  split; [|split; [|split; [|split]]].
  - rewrite Hcall. destruct (level_attribute level) as [n|]; [right|by left].
    by exists n.
  - rewrite Hcall, <- Hraise.
    destruct (level_attribute level); split; done.
  - intros level' Hs Hs' Hup. unfold level_attribute.
    rewrite !bool_decide_eq_false_2 by done. by rewrite Hup.
  - intros name Hup Hnone. unfold level_attribute.
    case_bool_decide; [done|]. rewrite Hup. cbn [mbind option_bind].
    by rewrite Hnone.
  - repeat split; vm_compute; reflexivity.
Qed.

(** X11: [log_enhanced] once the tabular writer is set up and its file can
    be opened.  For the six level names it returns [True] and appends a
    record of the status that goes with the name: [info] gives
    [information], [error] gives [failure], [debug] takes the debug mode
    of the writer to be on.  Whoever the caller is, the record reports the
    file [logging_service.py]: the frame three levels up is the one of
    [log_enhanced]. *)
Theorem log_enhanced_writes_status level st el now callers fn msg pt w :
  (level, st) ∈ [(lit "info", INFO); (lit "debug", DEBUG);
                 (lit "success", SUCCESS); (lit "warning", WARNING);
                 (lit "error", FAILURE); (lit "critical", CRITICAL)] ->
  log_file el ∉ FS.denied (fs w) ->
  (st = DEBUG -> debug_mode el = true) ->
  exists w' p lines values,
    log_enhanced (Some el) now callers fn msg level pt w = Ok (true, w')
    /\ coerce_process_type pt = Ok p
    /\ wrap_message msg = Ok lines
    /\ FS.read (log_file el) (fs w')
       = FS.read (log_file el) (fs w) ++ entry_text values lines st
    /\ values file = lit "logging_service.py"
    /\ values function = take 30 fn
    /\ values status = take 15 (LogStatus_value st)
    /\ values process_type = take 15 (ProcessType_value p)
    /\ values message = default [] (head lines).
Proof.
  intros Hin Hopen Hdebug.
  destruct (coerce_process_type_returns pt) as [p Hp].
  destruct (wrap_message_returns msg) as (wrapped & _ & Hlines & _).
  revert Hlines. generalize (if nonempty wrapped then wrapped else [[]]).
  intros lines Hlines.
  assert (Hgen : forall method,
    exists w' values,
      (w1 ← log_entry el now
              (EnhancedLogging.frame_of method
               :: LoggingService.frame_of "log_enhanced" :: callers)
              fn msg pt (Member st) None w; Ok (true, w1)) = Ok (true, w')
      /\ FS.read (log_file el) (fs w')
         = FS.read (log_file el) (fs w) ++ entry_text values lines st
      /\ values file = lit "logging_service.py"
      /\ values function = take 30 fn
      /\ values status = take 15 (LogStatus_value st)
      /\ values process_type = take 15 (ProcessType_value p)
      /\ values message = default [] (head lines)).
  { intros method.
    destruct (log_entry_appends el now
                (EnhancedLogging.frame_of method
                 :: LoggingService.frame_of "log_enhanced" :: callers)
                fn msg pt (Member st) None w p st lines Hopen Hp eq_refl Hlines)
      as (w' & Hcall & Hread & _).
    exists w'. eexists. rewrite Hcall. split; [reflexivity|].
    split; [exact Hread|].
    repeat split. }
  repeat (apply elem_of_cons in Hin as [[= -> ->]|Hin]);
    [ | | | | | | by apply elem_of_nil in Hin ].
  - destruct (Hgen "log_info") as (w' & values & H & Hrest).
    by exists w', p, lines, values.
  - destruct (Hgen "log_debug") as (w' & values & H & Hrest).
    exists w', p, lines, values. split; [|done].
    unfold log_enhanced.
    change (lookup_name _ log_attributes) with (Some (Method log_debug)).
    cbv beta iota. unfold log_debug. by rewrite (Hdebug eq_refl).
  - destruct (Hgen "log_success") as (w' & values & H & Hrest).
    by exists w', p, lines, values.
  - destruct (Hgen "log_warning") as (w' & values & H & Hrest).
    by exists w', p, lines, values.
  - destruct (Hgen "log_error") as (w' & values & H & Hrest).
    by exists w', p, lines, values.
  - destruct (Hgen "log_critical") as (w' & values & H & Hrest).
    by exists w', p, lines, values.
Qed.

Lemma log_enhanced_writes_status_witness :
  exists w' values,
    log_enhanced (Some Sample.logger) Sample.clock Sample.stack (lit "main")
      (lit "hello") (lit "error") (Text (lit "system")) (Sample.world_with [])
    = Ok (true, w')
    /\ FS.read Sample.path (fs w') = entry_text values [lit "hello"] FAILURE
    /\ values file = lit "logging_service.py"
    /\ values status = lit "failure".
Proof.
  assert (H1 : (lit "error", FAILURE)
               ∈ [(lit "info", INFO); (lit "debug", DEBUG);
                  (lit "success", SUCCESS); (lit "warning", WARNING);
                  (lit "error", FAILURE); (lit "critical", CRITICAL)]).
  { do 4 (apply elem_of_cons; right). apply elem_of_cons. by left. }
  assert (H2 : log_file Sample.logger ∉ FS.denied (fs (Sample.world_with []))).
  { vm_compute. discriminate. }
  destruct (log_enhanced_writes_status (lit "error") FAILURE Sample.logger
              Sample.clock Sample.stack (lit "main") (lit "hello")
              (Text (lit "system")) (Sample.world_with []) H1 H2)
    as (w' & p & lines & values & Hcall & _ & Hl & Hread & Hfile & _ & Hst & _);
    [discriminate|].
  vm_compute in Hl. injection Hl as <-.
  exact (ex_intro _ w' (ex_intro _ values
           (conj Hcall (conj Hread (conj Hfile Hst))))).
Defined.

Lemma lookup_name_None {A} name (table : list (str * A)) :
  name ∉ table.*1 -> lookup_name name table = None.
Proof.
  induction table as [|[k a] table IH]; [done|]. cbn [lookup_name fmap list_fmap].
  intros Hno. apply not_elem_of_cons in Hno as [Hk Hno].
  rewrite bool_decide_eq_false_2 by (cbn in Hk; congruence). by apply IH.
Qed.

(** X12: the other level names, once the tabular writer is set up.  A name
    that is none of the nine attributes of the writer that start with
    [log_] is handled as [info] is, whatever its case: [ERROR] in capitals
    writes a record of status [information].  The names [dir] and [file]
    find the attributes [log_dir] and [log_file], which cannot be called:
    the call raises [TypeError].  The name [entry] finds [log_entry]
    itself. *)
Theorem log_enhanced_other_levels el now callers fn msg level pt w :
  level ∉ [lit "dir"; lit "file"; lit "entry"; lit "info"; lit "debug";
           lit "success"; lit "warning"; lit "error"; lit "critical"] ->
  log_enhanced (Some el) now callers fn msg level pt w
  = log_enhanced (Some el) now callers fn msg (lit "info") pt w
  /\ log_enhanced (Some el) now callers fn msg (lit "dir") pt w
     = Raise TypeError
  /\ log_enhanced (Some el) now callers fn msg (lit "file") pt w
     = Raise TypeError
  /\ log_enhanced (Some el) now callers fn msg (lit "entry") pt w
     = (w' ← log_entry el now (LoggingService.frame_of "log_enhanced" :: callers)
               fn msg pt (Member INFO) None w;
        Ok (true, w')).
Proof.
  intros Hno. split; [|by repeat split].
  unfold log_enhanced. rewrite (lookup_name_None level log_attributes Hno).
  reflexivity.
Qed.

Lemma log_enhanced_other_levels_witness :
  (lit "ERROR" ∉ [lit "dir"; lit "file"; lit "entry"; lit "info"; lit "debug";
                  lit "success"; lit "warning"; lit "error"; lit "critical"])
  /\ log_enhanced (Some Sample.logger) Sample.clock Sample.stack (lit "main")
       (lit "hello") (lit "ERROR") (Text (lit "system")) (Sample.world_with [])
     = log_enhanced (Some Sample.logger) Sample.clock Sample.stack (lit "main")
         (lit "hello") (lit "info") (Text (lit "system"))
         (Sample.world_with []).
Proof.
  assert (H : lit "ERROR"
              ∉ [lit "dir"; lit "file"; lit "entry"; lit "info"; lit "debug";
                 lit "success"; lit "warning"; lit "error"; lit "critical"]).
  { repeat (apply not_elem_of_cons; split; [discriminate|]).
    apply not_elem_of_nil. }
  split; [exact H|].
  exact (proj1 (log_enhanced_other_levels Sample.logger Sample.clock
                  Sample.stack (lit "main") (lit "hello") (lit "ERROR")
                  (Text (lit "system")) (Sample.world_with []) H)).
Defined.

End LoggingServiceFacts.

(** ** The log directory *)

Module LogDirectoryFacts.
Import LoggingService.

Lemma insert_by_mtime_perm x l : insert_by_mtime x l ≡ₚ x :: l.
Proof.
  induction l as [|y l IH]; [done|]. simpl.
  destruct (_ <? _)%Z; [|done]. rewrite IH. apply perm_swap.
Qed.

Lemma sorted_by_mtime_perm l : sorted_by_mtime l ≡ₚ l.
Proof.
  induction l as [|x l IH]; [done|]. unfold sorted_by_mtime in *. simpl.
  by rewrite insert_by_mtime_perm, IH.
Qed.

Lemma insert_by_mtime_head x l :
  Forall (fun z => (entry_mtime z <= entry_mtime x)%Z) l ->
  insert_by_mtime x l = x :: l.
Proof.
  destruct l as [|y l]; [done|]. intros H. inversion H; subst. simpl.
  by rewrite (proj2 (Z.ltb_ge _ _)).
Qed.

Lemma insert_by_mtime_sorted x l :
  StronglySorted (fun a b => (entry_mtime b <= entry_mtime a)%Z) l ->
  StronglySorted (fun a b => (entry_mtime b <= entry_mtime a)%Z)
    (insert_by_mtime x l).
Proof.
  induction 1 as [|y l Hs IH Hall]; [by repeat constructor|]. simpl.
  destruct (Z.ltb_spec (entry_mtime x) (entry_mtime y)) as [Hlt|Hge].
  - constructor; [done|]. apply Forall_forall. intros z Hz.
    rewrite insert_by_mtime_perm in Hz.
    apply elem_of_cons in Hz as [->|Hz]; [lia|].
    by apply (proj1 (Forall_forall _ _) Hall).
  - constructor; [by constructor|]. constructor; [done|].
    eapply Forall_impl; [exact Hall|]. intros z Hz. simpl in Hz. lia.
Qed.

Lemma sorted_by_mtime_sorted l :
  StronglySorted (fun a b => (entry_mtime b <= entry_mtime a)%Z)
    (sorted_by_mtime l).
Proof.
  induction l as [|x l IH]; [constructor|].
  by apply insert_by_mtime_sorted.
Qed.

Lemma filter_insert_by_mtime (P : dir_entry -> Prop) `{HdecP : !forall x, Decision (P x)}
    x l :
  StronglySorted (fun a b => (entry_mtime b <= entry_mtime a)%Z) l ->
  filter P (insert_by_mtime x l)
  = if decide (P x) then insert_by_mtime x (filter P l) else filter P l.
Proof.
  induction 1 as [|y l Hs IH Hall]; simpl.
  - rewrite filter_cons, filter_nil. by destruct (decide (P x)).
  - destruct (Z.ltb_spec (entry_mtime x) (entry_mtime y)) as [Hlt|Hge].
    + rewrite !filter_cons, IH.
      destruct (decide (P y)), (decide (P x)); try done.
      simpl. by rewrite (proj2 (Z.ltb_lt _ _) Hlt).
    + rewrite (filter_cons _ x). destruct (decide (P x)); [|done].
      rewrite insert_by_mtime_head; [done|].
      apply Forall_forall. intros z Hz.
      apply list_elem_of_filter in Hz as [_ Hz].
      apply elem_of_cons in Hz as [->|Hz]; [done|].
      apply (proj1 (Forall_forall _ _) Hall) in Hz. simpl in Hz. lia.
Qed.

(** Sorting and filtering commute: the order of the entries kept is the
    one they have among all the entries. *)
Lemma filter_sorted_by_mtime (P : dir_entry -> Prop)
    `{HdecP : !forall x, Decision (P x)} l :
  filter P (sorted_by_mtime l) = sorted_by_mtime (filter P l).
Proof.
  induction l as [|x l IH]; [done|].
  change (sorted_by_mtime (x :: l))
    with (insert_by_mtime x (sorted_by_mtime l)).
  rewrite filter_insert_by_mtime by apply sorted_by_mtime_sorted.
  rewrite filter_cons, IH. by destruct (decide (P x)).
Qed.

Lemma sorted_by_mtime_same t l :
  Forall (fun e => entry_mtime e = t) l -> sorted_by_mtime l = l.
Proof.
  induction 1 as [|x l Hx Hl IH]; [done|].
  change (sorted_by_mtime (x :: l))
    with (insert_by_mtime x (sorted_by_mtime l)).
  rewrite IH. apply insert_by_mtime_head.
  eapply Forall_impl; [exact Hl|]. intros z Hz. simpl in Hz. lia.
Qed.

Lemma starts_with_spec p s :
  Config.starts_with p s = true <-> exists r, s = p ++ r.
Proof.
  revert s. induction p as [|a p IH]; intros s; simpl.
  - split; [by exists s | done].
  - destruct s as [|b s].
    + split; [done | by intros [r ?]].
    + rewrite andb_true_iff, bool_decide_eq_true, IH. split.
      * intros [-> [r ->]]. by exists r.
      * intros [r [= -> ->]]. split; [done | by exists r].
Qed.

(** The names that the pattern [ubuntu-dictation-*.log] matches. *)
Lemma matches_glob_spec name :
  matches_glob name = true
  <-> exists middle, name = glob_prefix ++ middle ++ glob_suffix.
Proof.
  unfold matches_glob. rewrite !andb_true_iff, !starts_with_spec, Nat.leb_le.
  split.
  - intros [[[r Hr] [r2 Hr2]] Hlen].
    apply (f_equal reverse) in Hr2.
    rewrite reverse_involutive, reverse_app, reverse_involutive in Hr2.
    set (a := reverse r2) in *.
    exists (take (length a - length glob_prefix) r).
    assert (Hlen2 : length name = length a + length glob_suffix).
    { rewrite Hr2. by rewrite length_app. }
    assert (Ha : a = take (length a) (glob_prefix ++ r)).
    { rewrite <- Hr, Hr2. by rewrite take_app_length. }
    rewrite take_app, take_ge in Ha by lia.
    rewrite Hr2. rewrite Ha at 1. by rewrite <- app_assoc.
  - intros [middle ->]. split; [split|].
    + by eexists.
    + exists (reverse middle ++ reverse glob_prefix).
      by rewrite !reverse_app, <- app_assoc.
    + rewrite !length_app. lia.
Qed.

(** X13: [list_log_files] returns nothing when the log directory does not
    exist.  Otherwise it returns the entries whose name is
    [ubuntu-dictation-] followed by anything and [.log], each once, the
    latest first; entries that have the same time keep the order in which
    the directory lists them. *)
Theorem list_log_files_sorted entries :
  list_log_files None = []
  /\ list_log_files (Some entries)
     ≡ₚ filter (fun e => matches_glob (entry_name e) = true) entries
  /\ (forall e,
        e ∈ list_log_files (Some entries)
        <-> e ∈ entries
            /\ exists middle,
                 entry_name e = glob_prefix ++ middle ++ glob_suffix)
  /\ StronglySorted (fun a b => (entry_mtime b <= entry_mtime a)%Z)
       (list_log_files (Some entries))
  /\ (forall t,
        filter (fun e => entry_mtime e = t) (list_log_files (Some entries))
        = filter (fun e => entry_mtime e = t)
            (filter (fun e => matches_glob (entry_name e) = true) entries)).
Proof.
  split; [done|]. split; [apply sorted_by_mtime_perm|]. split; [|split].
  - intros e. unfold list_log_files. rewrite sorted_by_mtime_perm.
    rewrite list_elem_of_filter, matches_glob_spec. tauto.
  - apply sorted_by_mtime_sorted.
  - intros t. unfold list_log_files. rewrite filter_sorted_by_mtime.
    apply (sorted_by_mtime_same t). apply Forall_forall. intros e He.
    by apply list_elem_of_filter in He as [? _].
Qed.

(** *** [purge_old_logs] *)

Lemma filter_all {A} (P : A -> Prop) `{HdecP : !forall x, Decision (P x)} (l : list A) :
  (forall x, x ∈ l -> P x) -> filter P l = l.
Proof.
  induction l as [|x l IH]; [done|]. intros H.
  rewrite filter_cons_True by (apply H; by left).
  f_equal. apply IH. intros y Hy. apply H. by right.
Qed.

Lemma filter_ext_in {A} (P Q : A -> Prop) `{HdecP : !forall x, Decision (P x)}
    `{HdecQ : !forall x, Decision (Q x)} (l : list A) :
  (forall x, x ∈ l -> P x <-> Q x) -> filter P l = filter Q l.
Proof.
  induction l as [|x l IH]; [done|]. intros H.
  rewrite !filter_cons, IH by (intros y Hy; apply H; by right).
  destruct (decide (P x)) as [HP|HP], (decide (Q x)) as [HQ|HQ]; try done.
  - destruct HQ. apply H; [by left | done].
  - destruct HP. apply H; [by left | done].
Qed.

Lemma names_inj (l : list dir_entry) x y :
  NoDup (entry_name <$> l) -> x ∈ l -> y ∈ l ->
  entry_name x = entry_name y -> x = y.
Proof.
  induction l as [|e l IH]; [by intros _ H; apply elem_of_nil in H|].
  rewrite fmap_cons, NoDup_cons. intros [Hno Hnd] Hx Hy Heq.
  apply elem_of_cons in Hx as [->|Hx]; apply elem_of_cons in Hy as [->|Hy].
  - done.
  - destruct Hno. rewrite Heq. by apply list_elem_of_fmap_2.
  - destruct Hno. rewrite <- Heq. by apply list_elem_of_fmap_2.
  - by apply IH.
Qed.

Lemma find_by_name f entries :
  NoDup (entry_name <$> entries) -> f ∈ entries ->
  find (fun e => bool_decide (entry_name e = entry_name f)) entries = Some f.
Proof.
  induction entries as [|e entries IH]; [by intros _ H; apply elem_of_nil in H|].
  rewrite fmap_cons, NoDup_cons. intros [Hno Hnd] Hf. cbn [find].
  apply elem_of_cons in Hf as [->|Hf].
  - by rewrite bool_decide_eq_true_2.
  - rewrite bool_decide_eq_false_2; [by apply IH|].
    intros Heq. destruct Hno. rewrite Heq. by apply list_elem_of_fmap_2.
Qed.

Lemma names_filter_NoDup (P : dir_entry -> Prop) `{HdecP : !forall x, Decision (P x)}
    (l : list dir_entry) :
  NoDup (entry_name <$> l) -> NoDup (entry_name <$> filter P l).
Proof.
  intros H. eapply sublist_NoDup; [exact H|].
  apply fmap_sublist, sublist_filter.
Qed.

(** The loop of [purge_old_logs], for files taken from the directory. *)
Lemma remove_files_spec files entries removed warned :
  NoDup (entry_name <$> entries) -> NoDup (entry_name <$> files) ->
  (forall f, f ∈ files -> f ∈ entries) ->
  remove_files files entries removed warned
  = (filter (fun e => entry_name e
                      ∉ entry_name
                        <$> filter (fun f => entry_locked f = false) files)
       entries,
     (removed
      + Z.of_nat (length (filter (fun f => entry_locked f = false) files)))%Z,
     warned
     ++ (entry_name <$> filter (fun f => entry_locked f = true) files)).
Proof.
  revert entries removed warned.
  induction files as [|f files IH]; intros entries removed warned Hnd Hndf Hin.
  - cbn [remove_files]. rewrite !filter_nil. cbn [fmap list_fmap length].
    rewrite filter_all by (intros; apply not_elem_of_nil).
    by rewrite Z.add_0_r, app_nil_r.
  - cbn [remove_files]. unfold unlink.
    rewrite find_by_name by (try done; apply Hin; by left).
    rewrite fmap_cons, NoDup_cons in Hndf. destruct Hndf as [Hnof Hndf].
    destruct (entry_locked f) eqn:Hl.
    + rewrite IH; [|done|done|intros g Hg; apply Hin; by right].
      rewrite (filter_cons_False _ f) by congruence.
      rewrite (filter_cons_True (fun f => entry_locked f = true) f) by done.
      rewrite fmap_cons. by rewrite <- app_assoc.
    + rewrite IH; [|by apply names_filter_NoDup|done|].
      * rewrite (filter_cons_True (fun f => entry_locked f = false) f) by done.
        rewrite (filter_cons_False (fun f => entry_locked f = true) f)
          by congruence.
        rewrite list_filter_filter, fmap_cons. cbn [length].
        f_equal. f_equal; [|lia].
        apply filter_ext_in. intros e He. rewrite not_elem_of_cons. tauto.
      * intros g Hg. apply list_elem_of_filter. split; [|apply Hin; by right].
        intros Heq. destruct Hnof. rewrite <- Heq.
        by apply list_elem_of_fmap_2.
Qed.

Lemma slice_from_suffix {A} (k : Z) (l : list A) :
  slice_from k l = drop (length l - length (slice_from k l)) l.
Proof.
  assert (H : forall m, drop m l = drop (length l - length (drop m l)) l).
  { intros m. rewrite length_drop.
    destruct (decide (m <= length l)) as [Hle|Hgt].
    - f_equal. lia.
    - rewrite drop_ge by lia. rewrite drop_ge; [done|lia]. }
  unfold slice_from. destruct (k <? 0)%Z; apply H.
Qed.

Lemma slice_from_sublist {A} (k : Z) (l : list A) : slice_from k l `sublist_of` l.
Proof. unfold slice_from. destruct (k <? 0)%Z; apply sublist_drop. Qed.

Lemma list_log_files_names entries :
  NoDup (entry_name <$> entries) ->
  NoDup (entry_name <$> list_log_files (Some entries))
  /\ forall f, f ∈ list_log_files (Some entries) -> f ∈ entries.
Proof.
  intros Hnd. unfold list_log_files. split.
  - rewrite sorted_by_mtime_perm. by apply names_filter_NoDup.
  - intros f. rewrite sorted_by_mtime_perm, list_elem_of_filter. tauto.
Qed.

(** X14: [purge_old_logs], in a directory whose entries have distinct
    names.  The argument [max_age_days] plays no part.  While the log
    files are no more than [max_files], nothing is removed, however old
    they are.  Otherwise the files beyond the first [max_files] of the
    listing (the latest first) are unlinked one by one: the number
    returned counts the ones removed, a warning is logged for each one
    that cannot be removed, and afterwards the directory lists the
    [max_files] latest log files followed by the ones that could not be
    removed; entries that are not log files are left alone.  For a
    negative [max_files] the files unlinked are the [-max_files]
    oldest. *)
Theorem purge_old_logs_keeps_latest max_age_days max_files entries :
  NoDup (entry_name <$> entries) ->
  let files := list_log_files (Some entries) in
  let old := slice_from max_files files in
  ((Z.of_nat (length files) <= max_files)%Z ->
   purge_old_logs max_age_days max_files (Some entries)
   = (0%Z, Some entries, []))
  /\ ((max_files < Z.of_nat (length files))%Z ->
      exists entries',
        purge_old_logs max_age_days max_files (Some entries)
        = (Z.of_nat (length (filter (fun f => entry_locked f = false) old)),
           Some entries',
           entry_name <$> filter (fun f => entry_locked f = true) old)
        /\ (forall e,
              e ∈ entries'
              <-> e ∈ entries /\ ~ (e ∈ old /\ entry_locked e = false))
        /\ list_log_files (Some entries')
           = take (length files - length old) files
             ++ filter (fun f => entry_locked f = true) old
        /\ ((0 <= max_files)%Z ->
            old = drop (Z.to_nat max_files) files
            /\ length files - length old = Z.to_nat max_files)
        /\ ((max_files < 0)%Z ->
            old = drop (length files - Z.to_nat (- max_files)) files)).
Proof.
  intros Hnd files old.
  destruct (list_log_files_names entries Hnd) as [Hndf Hsub].
  fold files in Hndf, Hsub.
  unfold purge_old_logs. fold files. fold old. split.
  - intros Hle. by rewrite (proj2 (Z.leb_le _ _) Hle).
  - intros Hgt. rewrite (proj2 (Z.leb_gt _ _) Hgt).
    assert (Hold_sub : old `sublist_of` files) by apply slice_from_sublist.
    assert (Hold_in : forall f, f ∈ old -> f ∈ entries).
    { intros f Hf. apply Hsub. by eapply elem_of_sublist. }
    assert (Hold_nd : NoDup (entry_name <$> old)).
    { eapply sublist_NoDup; [exact Hndf|]. by apply fmap_sublist. }
    change (default [] (Some entries)) with entries.
    rewrite (remove_files_spec old entries 0 [] Hnd Hold_nd Hold_in).
    cbn [fmap option_fmap option_map app]. rewrite Z.add_0_l.
    set (keep := fun e : dir_entry =>
           entry_name e
           ∉ entry_name <$> filter (fun f => entry_locked f = false) old).
    assert (Hkeep : forall e, e ∈ entries ->
              keep e <-> ~ (e ∈ old /\ entry_locked e = false)).
    { intros e He. unfold keep. split.
      - intros Hno [Hin Hl]. apply Hno. apply list_elem_of_fmap_2.
        by apply list_elem_of_filter.
      - intros Hno Hin. apply Hno.
        apply list_elem_of_fmap in Hin as (g & Heq & Hg).
        apply list_elem_of_filter in Hg as [Hl Hg].
        assert (e = g) as ->; [|done].
        apply (names_inj entries); auto. }
    eexists. split; [reflexivity|]. split; [|split; [|split]].
    + intros e. rewrite list_elem_of_filter. split.
      * intros [Hk He]. split; [done|]. by apply Hkeep.
      * intros [He Hk]. split; [|done]. by apply Hkeep.
    + unfold list_log_files.
      rewrite list_filter_filter.
      rewrite (filter_ext_in _
                 (fun e => keep e /\ matches_glob (entry_name e) = true))
        by (intros; tauto).
      rewrite <- list_filter_filter, <- filter_sorted_by_mtime.
      change (sorted_by_mtime
                (filter (fun e => matches_glob (entry_name e) = true) entries))
        with files.
      assert (Hsplit : files = take (length files - length old) files ++ old).
      { pose proof (slice_from_suffix max_files files) as Hs. fold old in Hs.
        rewrite Hs at 2. by rewrite take_drop. }
      rewrite Hsplit at 1. rewrite filter_app. f_equal.
      * apply filter_all. intros e He. apply Hkeep.
        { apply Hsub. eapply elem_of_sublist; [exact He | apply sublist_take]. }
        intros [Hin _].
        rewrite Hsplit, fmap_app in Hndf.
        apply NoDup_app in Hndf as (_ & Hdisj & _).
        apply (Hdisj (entry_name e)); by apply list_elem_of_fmap_2.
      * apply filter_ext_in. intros e He.
        rewrite (Hkeep e) by (by apply Hold_in).
        destruct (entry_locked e); split; try done.
        -- by intros _ [_ ?].
        -- intros Hno. by destruct Hno.
    + intros Hpos. unfold old, slice_from.
      rewrite (proj2 (Z.ltb_ge _ _) Hpos). split; [done|].
      rewrite length_drop. lia.
    + intros Hneg. unfold old, slice_from.
      rewrite (proj2 (Z.ltb_lt _ _) Hneg). f_equal. lia.
Qed.

Lemma purge_old_logs_keeps_latest_witness :
  NoDup (entry_name <$> Sample.directory)
  /\ exists entries',
       purge_old_logs 30 1 (Some Sample.directory) = (2%Z, Some entries', [])
       /\ list_log_files (Some entries')
          = [Sample.entry "ubuntu-dictation-2024-01-03.log" 300].
Proof.
  assert (H : NoDup (entry_name <$> Sample.directory)).
  { apply (bool_decide_unpack _). vm_compute. exact I. }
  split; [exact H|].
  destruct (proj2 (purge_old_logs_keeps_latest 30 1 Sample.directory H))
    as (entries' & Hcall & _ & Hlist & _).
  { vm_compute. reflexivity. }
  exact (ex_intro _ entries' (conj Hcall Hlist)).
Defined.

End LogDirectoryFacts.

(** ** [LogCapture.write] *)

Module LogCaptureFacts.
Import LoggingService.

Lemma rstrip_spec s :
  exists tail,
    s = rstrip s ++ tail
    /\ forallb isspace tail = true
    /\ forall z, last (rstrip s) = Some z -> isspace z = false.
Proof.
  induction s as [|c r (tail & Hr & Htail & Hlast)].
  - by exists [].
  - cbn [rstrip]. destruct (rstrip r) as [|a r'] eqn:Hrs.
    + destruct (isspace c) eqn:Hc.
      * exists (c :: r). split; [done|]. split; [|done].
        cbn [app] in Hr. subst r. cbn [forallb]. by rewrite Hc.
      * exists tail. split; [by rewrite Hr|]. split; [done|].
        by intros z [= <-].
    + exists tail. split; [by rewrite Hr at 1|]. split; [done|].
      intros z Hz. apply Hlast. exact Hz.
Qed.

Lemma rstrip_blank s : forallb isspace s = true -> rstrip s = [].
Proof.
  induction s as [|c r IH]; [done|]. cbn [forallb rstrip].
  intros H. apply andb_prop in H as [Hc Hr]. by rewrite IH, Hc.
Qed.

Lemma linebreak_isspace c : is_linebreak c = true -> isspace c = true.
Proof.
  unfold is_linebreak, isspace, between.
  rewrite !orb_true_iff, !andb_true_iff, !Nat.leb_le. lia.
Qed.

(** The lines of a text: none holds a line break, and together they hold
    the characters of the text that are not line breaks, in order. *)
Lemma splitlines_from_spec n : forall cur s,
  length s <= n ->
  (forallb (fun c => negb (is_linebreak c)) cur = true ->
   Forall (fun l => forallb (fun c => negb (is_linebreak c)) l = true)
     (splitlines_from cur s))
  /\ concat (splitlines_from cur s)
     = cur ++ filter (fun c => is_linebreak c = false) s
  /\ (forall z, last (cur ++ s) = Some z -> is_linebreak z = false ->
      exists ls l, splitlines_from cur s = ls ++ [l] /\ last l = Some z).
Proof.
  induction n as [|n IH]; intros cur s Hlen.
  - destruct s; [|simpl in Hlen; lia]. cbn [splitlines_from].
    rewrite app_nil_r. destruct cur as [|a cur]; cbn [Textwrap.nonempty].
    + split; [by constructor|]. split; [done|]. by intros z [=].
    + split; [by repeat constructor|]. split; [cbn [concat]; by rewrite app_nil_r|].
      intros z Hz _. rewrite app_nil_r in Hz. by exists [], (a :: cur).
  - destruct s as [|c r].
    { apply IH. simpl. lia. }
    cbn [splitlines_from]. cbn [length] in Hlen.
    destruct (is_linebreak c) eqn:Hc.
    + rewrite filter_cons_False by congruence.
      assert (Hrest : exists r0,
        length r0 <= n
        /\ match r with
           | c' :: r' =>
               if is_char creturn c && is_char newline c'
               then splitlines_from [] r' else splitlines_from [] r
           | [] => splitlines_from [] r
           end = splitlines_from [] r0
        /\ filter (fun c => is_linebreak c = false) r
           = filter (fun c => is_linebreak c = false) r0
        /\ (forall z, last (cur ++ c :: r) = Some z -> is_linebreak z = false ->
            last r0 = Some z)).
      { assert (Hplain : forall z, last (cur ++ c :: r) = Some z ->
                  is_linebreak z = false -> last r = Some z).
        { intros z Hz Hnb. rewrite last_app, last_cons in Hz.
          destruct (last r) as [y|]; [done|]. congruence. }
        destruct r as [|c' r'].
        { exists []. split; [simpl; lia|]. by repeat split. }
        destruct (is_char creturn c && is_char newline c') eqn:Hcrlf.
        - exists r'. split; [simpl in *; lia|]. split; [done|].
          apply andb_prop in Hcrlf as [_ Hn].
          apply bool_decide_eq_true in Hn. subst c'.
          split; [by rewrite filter_cons_False by (by vm_compute)|].
          intros z Hz Hnb. specialize (Hplain z Hz Hnb).
          rewrite last_cons in Hplain. destruct (last r') as [y|]; [done|].
          injection Hplain as <-. by vm_compute in Hnb.
        - exists (c' :: r'). split; [simpl in *; lia|]. by repeat split. }
      destruct Hrest as (r0 & Hlen0 & -> & -> & Hl0).
      destruct (IH [] r0 Hlen0) as (Hno & Hcat & Hlast).
      split; [|split].
      * intros Hcur. constructor; [done|]. by apply Hno.
      * cbn [concat]. by rewrite Hcat.
      * intros z Hz Hnb. destruct (Hlast z (Hl0 z Hz Hnb) Hnb) as (ls & l & -> & Hl).
        by exists (cur :: ls), l.
    + rewrite filter_cons_True by done.
      destruct (IH (cur ++ [c]) r ltac:(lia)) as (Hno & Hcat & Hlast).
      split; [|split].
      * intros Hcur. apply Hno. rewrite forallb_app, Hcur. cbn. by rewrite Hc.
      * by rewrite Hcat, <- app_assoc.
      * intros z Hz Hnb. apply Hlast; [|done]. by rewrite <- app_assoc.
Qed.

(** X15: [LogCapture.write].  A message that is empty or made of
    whitespace only is dropped.  Any other message is cut at its line
    breaks once the whitespace at its end is removed, and each line is
    logged at the level of the capture: no line logged holds a line break,
    the lines together hold every character of the message that is
    neither a line break nor part of the whitespace at its end, in order,
    and the last line ends with a character that is not whitespace. *)
Theorem write_logs_lines level message_ :
  (forallb isspace message_ = true -> write level message_ = [])
  /\ (forallb isspace message_ = false ->
      exists tail records text z,
        message_ = rstrip message_ ++ tail
        /\ forallb isspace tail = true
        /\ write level message_ = records ++ [(level, text)]
        /\ last text = Some z /\ isspace z = false
        /\ Forall (fun r => fst r = level
                            /\ forallb (fun c => negb (is_linebreak c)) (snd r)
                               = true)
             (write level message_)
        /\ concat (snd <$> write level message_)
           = filter (fun c => is_linebreak c = false) (rstrip message_)).
Proof.
  unfold write. split.
  - intros ->. by rewrite andb_false_r.
  - intros Hns. rewrite Hns. replace (Textwrap.nonempty message_) with true
      by (by destruct message_).
    cbn [andb negb].
    destruct (rstrip_spec message_) as (tail & Hsplit & Htail & Hlast).
    destruct (last (rstrip message_)) as [z|] eqn:Hz.
    2:{ apply last_None in Hz. rewrite Hz in Hsplit. cbn [app] in Hsplit.
        subst tail. congruence. }
    specialize (Hlast z eq_refl).
    assert (Hnb : is_linebreak z = false).
    { destruct (is_linebreak z) eqn:Hb; [|done].
      apply linebreak_isspace in Hb. congruence. }
    destruct (splitlines_from_spec (length (rstrip message_)) []
                (rstrip message_) ltac:(done)) as (Hno & Hcat & Hl).
    destruct (Hl z Hz Hnb) as (ls & l & Hls & Hlz).
    exists tail, (map (fun line => (level, line)) ls), l, z.
    unfold splitlines. rewrite Hls in *.
    split; [done|]. split; [done|]. split; [by rewrite map_app|].
    split; [done|]. split; [done|]. split.
    + apply Forall_map. eapply Forall_impl; [exact (Hno eq_refl)|].
      by intros x Hx.
    + cbn [app] in Hcat. rewrite <- Hcat. f_equal.
      generalize (ls ++ [l]). intros lines.
      induction lines as [|x lines IH]; [done|]. cbn. by rewrite IH.
Qed.

End LogCaptureFacts.

(** ** The settings: further properties *)

Module ConfigMore.
Import Config ConfigFacts.

Lemma navigate_found h v parts default_ x :
  lookup_path h v parts = Some x -> navigate h v parts default_ = Ok x.
Proof.
  revert v. induction parts as [|part rest IH]; intros v.
  - by intros [= ->].
  - cbn [lookup_path navigate]. destruct v as [| | | | | |l]; try done.
    destruct (getitem h l part) as [next|] eqn:Hget; [|done].
    intros Hrest. cbn [contains subscript mbind result_bind].
    rewrite Hget. rewrite bool_decide_eq_true_2 by (by eexists).
    cbn [mbind result_bind]. by apply IH.
Qed.

Lemma navigate_missing h v prefix part rest l default_ :
  lookup_path h v prefix = Some (VRef l) -> getitem h l part = None ->
  navigate h v (prefix ++ part :: rest) default_ = Ok default_.
Proof.
  revert v. induction prefix as [|p prefix IH]; intros v.
  - intros [= ->] Hnone. by apply navigate_missing_key.
  - cbn [lookup_path app navigate]. destruct v as [| | | | | |l0]; try done.
    destruct (getitem h l0 p) as [next|] eqn:Hget; [|done].
    intros Hrest Hnone. cbn [contains subscript mbind result_bind].
    rewrite Hget. rewrite bool_decide_eq_true_2 by (by eexists).
    cbn [mbind result_bind]. by apply IH.
Qed.

(** X16: [get_setting] loads the settings, cuts the path at its dots and
    walks the parts.  When every part is a key of the mapping reached so
    far, the value at the end of the path is returned; when a part is
    missing from the mapping reached so far, the fallback is returned,
    whatever follows in the path.  The call leaves the process in the
    state the load leaves it in. *)
Theorem get_setting_follows_path path default_ st :
  let loaded := load_settings st in
  let parts := split_on dot path in
  snd (get_setting path default_ st) = snd loaded
  /\ (forall x,
        lookup_path (store (snd loaded)) (VRef (fst loaded)) parts = Some x ->
        fst (get_setting path default_ st) = Ok x)
  /\ (forall prefix part rest l,
        parts = prefix ++ part :: rest ->
        lookup_path (store (snd loaded)) (VRef (fst loaded)) prefix
        = Some (VRef l) ->
        getitem (store (snd loaded)) l part = None ->
        fst (get_setting path default_ st) = Ok default_).
Proof.
  cbv zeta. unfold get_setting. destruct (load_settings st) as [settings st1].
  cbn [fst snd]. split; [done|]. split.
  - intros x Hx. by apply navigate_found.
  - intros prefix part rest l -> Hl Hnone. by eapply navigate_missing.
Qed.

Lemma split_on_cons sep c s :
  split_on sep (c :: s)
  = if is_char sep c then [] :: split_on sep s
    else match split_on sep s with
         | w :: ws => (c :: w) :: ws
         | [] => [[c]]
         end.
Proof. reflexivity. Qed.

Lemma split_on_nonempty sep s : split_on sep s <> [].
Proof.
  induction s as [|c s IH]; [done|]. rewrite split_on_cons.
  destruct (is_char sep c); [done|]. by destruct (split_on sep s).
Qed.

Lemma split_on_plain sep p : sep ∉ p -> split_on sep p = [p].
Proof.
  induction p as [|c p IH]; [done|]. intros Hno.
  apply not_elem_of_cons in Hno as [Hc Hp]. cbn [split_on].
  unfold is_char. rewrite bool_decide_eq_false_2 by congruence.
  by rewrite IH.
Qed.

Lemma split_on_sep sep p s :
  sep ∉ p -> split_on sep (p ++ sep :: s) = p :: split_on sep s.
Proof.
  induction p as [|c p IH]; intros Hno.
  - cbn [app split_on]. unfold is_char. by rewrite bool_decide_eq_true_2.
  - apply not_elem_of_cons in Hno as [Hc Hp]. cbn [app split_on].
    unfold is_char. rewrite bool_decide_eq_false_2 by congruence.
    by rewrite IH.
Qed.

(** X17: how a dotted path is cut.  A path that holds no dot is one part;
    a dot ends a part, so that the parts of [p.s], where [p] holds no dot,
    are [p] followed by the parts of [s]: an empty path is one empty part,
    two dots in a row enclose an empty part.  No part holds a dot, and
    there is one more part than there are dots. *)
Theorem split_on_parts sep :
  (forall p, sep ∉ p -> split_on sep p = [p])
  /\ (forall p s, sep ∉ p -> split_on sep (p ++ sep :: s) = p :: split_on sep s)
  /\ (forall s, Forall (fun p => sep ∉ p) (split_on sep s))
  /\ (forall s,
        length (split_on sep s) = S (length (filter (fun c => c = sep) s))).
Proof.
  assert (Hchar : forall c, is_char sep c = true <-> c = sep).
  { intros c. unfold is_char. by rewrite bool_decide_eq_true. }
  split; [|split; [|split]].
  - apply split_on_plain.
  - apply split_on_sep.
  - induction s as [|c s IH]; [repeat constructor; apply not_elem_of_nil|].
    rewrite split_on_cons. destruct (is_char sep c) eqn:Hsc.
    + constructor; [apply not_elem_of_nil | done].
    + assert (Hc : sep <> c).
      { intros <-. by rewrite (proj2 (Hchar sep) eq_refl) in Hsc. }
      destruct (split_on sep s) as [|w ws]; inversion IH; subst.
      * repeat constructor. intros Hin.
        apply elem_of_cons in Hin as [?|Hin]; [done|by apply elem_of_nil in Hin].
      * constructor; [|done]. intros Hin.
        by apply elem_of_cons in Hin as [?|Hin].
  - induction s as [|c s IH]; [done|]. rewrite split_on_cons, filter_cons.
    destruct (is_char sep c) eqn:Hsc.
    + apply Hchar in Hsc. rewrite decide_True by done. cbn [length].
      by rewrite IH.
    + rewrite decide_False
        by (intros ->; by rewrite (proj2 (Hchar sep) eq_refl) in Hsc).
      rewrite <- IH. pose proof (split_on_nonempty sep s).
      by destruct (split_on sep s).
Qed.

Lemma lookup_path_app h extra v parts :
  (forall l d x, h !! l = Some d -> refers d x -> x < length h) ->
  (forall l, v = VRef l -> l < length h) ->
  lookup_path (h ++ extra) v parts = lookup_path h v parts.
Proof.
  intros Hrefs. revert v. induction parts as [|part rest IH]; intros v Hv; [done|].
  cbn [lookup_path]. destruct v as [| | | | | |l]; try done.
  specialize (Hv l eq_refl).
  rewrite (getitem_ext h (h ++ extra)) by (by apply lookup_app_l).
  destruct (getitem h l part) as [next|] eqn:Hget; [|done].
  apply IH. intros x ->.
  apply getitem_refers in Hget as (d & Hd & Hr). by eapply Hrefs.
Qed.

(** X18: the loads that fall back on the defaults.  When the settings
    file exists but cannot be opened, or holds text that is not a
    document, or holds a document that is not a mapping, [load_settings]
    returns a new dictionary with the items of [DEFAULT_SETTINGS], so that
    every path leads to what it leads to in [DEFAULT_SETTINGS] at that
    moment; no dictionary of the store is changed and the file is left as
    it is.  When there is no file, the first load of a process creates it
    with the defaults of the module text, unless it cannot be written. *)
Theorem load_settings_falls_back st :
  sound (store st) ->
  config_file st = Some Garbage
  \/ (is_Some (config_file st) /\ config_denied st = true)
  \/ (exists j, config_file st = Some (Document j) /\ is_dict j = false) ->
  let loaded := load_settings st in
  config_file (snd loaded) = config_file st
  /\ config_denied (snd loaded) = config_denied st
  /\ fst loaded <> DEFAULT_SETTINGS
  /\ store (snd loaded) !! fst loaded = store st !! DEFAULT_SETTINGS
  /\ (forall x, x < length (store st) ->
        store (snd loaded) !! x = store st !! x)
  /\ (forall part rest,
        lookup_path (store (snd loaded)) (VRef (fst loaded)) (part :: rest)
        = lookup_path (store st) (VRef DEFAULT_SETTINGS) (part :: rest))
  /\ config_file (snd (load_settings (fresh None false)))
     = Some (Document DEFAULT_SETTINGS_doc)
  /\ config_file (snd (load_settings (fresh None true))) = None.
Proof.
  intros Hs Hcase. cbv zeta.
  pose proof Hs as (Htop & Hrefs & _).
  assert (Hd : exists top, store st !! DEFAULT_SETTINGS = Some top).
  { rewrite Htop. by eexists. }
  destruct Hd as [top Hd].
  assert (Hlen : DEFAULT_SETTINGS < length (store st))
    by (by eapply lookup_lt_Some).
  assert (Hbound : forall l d x,
            store st !! l = Some d -> refers d x -> x < length (store st)).
  { intros l d x Hl Hr. by destruct (Hrefs l d x Hl Hr). }
  assert (Hshape : exists extra,
    load_settings st
    = (length (store st ++ extra), with_store st ((store st ++ extra) ++ [top]))).
  { unfold load_settings, dict_copy, alloc.
    destruct Hcase as [Hf|[[[c Hf] Hden]|(j & Hf & Hj)]]; rewrite Hf.
    - exists []. rewrite app_nil_r, Hd. by destruct (config_denied st).
    - exists []. rewrite app_nil_r, Hd, Hden. by destruct c.
    - exists (if config_denied st then [] else [top]).
      rewrite Hd. cbn [default]. rewrite Hj.
      destruct (config_denied st); [by rewrite app_nil_r|].
      by rewrite lookup_app_l, Hd by done. }
  destruct Hshape as [extra ->]. cbn [fst snd with_store store config_file
                                       config_denied].
  split; [done|]. split; [done|]. split.
  { rewrite length_app. unfold DEFAULT_SETTINGS in *. lia. }
  split.
  { rewrite lookup_app_r by done. by rewrite Nat.sub_diag, Hd. }
  split.
  { intros x Hx. rewrite <- app_assoc. by apply lookup_app_l. }
  split; [|split; vm_compute; reflexivity].
  intros part rest. cbn [lookup_path].
  assert (Hnew : getitem ((store st ++ extra) ++ [top])
                   (length (store st ++ extra)) part
                 = getitem (store st) DEFAULT_SETTINGS part).
  { unfold getitem. rewrite lookup_app_r by done.
    by rewrite Nat.sub_diag, Hd. }
  rewrite Hnew.
  destruct (getitem (store st) DEFAULT_SETTINGS part) as [next|] eqn:Hget;
    [|done].
  rewrite <- app_assoc. apply lookup_path_app; [done|].
  intros x ->. apply getitem_refers in Hget as (d & Hdx & Hr).
  by eapply Hbound.
Qed.

Lemma load_settings_falls_back_witness :
  sound (store (fresh (Some Garbage) false))
  /\ config_file (snd (load_settings (fresh (Some Garbage) false)))
     = config_file (fresh (Some Garbage) false).
Proof.
  split; [exact sound_initial|].
  exact (proj1 (load_settings_falls_back (fresh (Some Garbage) false)
                  sound_initial (or_introl eq_refl))).
Defined.

End ConfigMore.

(** ** The settings: a value set is the value read back *)

Module ConfigRoundTrip.
Import Config ConfigFacts ConfigMore.

Lemma dict_set_keys key v d : NoDup d.*1 -> NoDup (dict_set key v d).*1.
Proof.
  induction d as [|[k x] rest IH]; cbn [dict_set].
  - intros _. cbn. apply NoDup_singleton.
  - rewrite fmap_cons. cbn [fst]. intros Hnd.
    apply NoDup_cons in Hnd as [Hk Hnd].
    case_bool_decide as Hkey.
    + rewrite fmap_cons. cbn [fst]. by apply NoDup_cons.
    + rewrite fmap_cons. cbn [fst]. apply NoDup_cons. split; [|by apply IH].
      intros Hin. apply list_elem_of_fmap in Hin as ([k' x'] & Hk' & Hin).
      cbn in Hk'. subst k'.
      apply dict_set_elem in Hin as [[-> _]|Hin]; [done|].
      apply Hk. apply list_elem_of_fmap. by exists (k, x').
Qed.

(** A location of the store whose dictionary has distinct keys. *)
Lemma setitem_keys h base key v l :
  (forall d, h !! l = Some d -> NoDup d.*1) ->
  forall d, setitem base key v h !! l = Some d -> NoDup d.*1.
Proof.
  intros Hl d. destruct (decide (l = base)) as [->|Hne].
  - destruct (h !! base) as [d0|] eqn:Hb.
    + rewrite (lookup_setitem_eq _ _ _ _ _ Hb). intros [= <-].
      apply dict_set_keys. by apply Hl.
    + unfold setitem. rewrite Hb, Hb. done.
  - rewrite lookup_setitem_ne by done. apply Hl.
Qed.

Lemma update_nested_dict_keys l j :
  forall base h,
    l < length h -> (forall d, h !! l = Some d -> NoDup d.*1) ->
    l < length (update_nested_dict base j h)
    /\ forall d, update_nested_dict base j h !! l = Some d -> NoDup d.*1.
Proof.
  induction j as [|b|n|m e|s|items|items IH] using json_induction;
    intros base h Hlen Hl;
    try (rewrite update_nested_dict_other by done; by split).
  rewrite update_nested_dict_items. revert h Hlen Hl.
  induction IH as [|[k v] rest Hv _ IHrest]; intros h Hlen Hl; [by split|].
  cbn [foldl fst snd]. cbn [snd] in Hv.
  assert (Hstep : l < length (update_item base k v h)
                  /\ forall d, update_item base k v h !! l = Some d ->
                               NoDup d.*1).
  { destruct (update_item_cases base k v h) as [(sub & _ & _ & ->)| ->].
    - by apply Hv.
    - destruct (to_value_grows v h) as (extra & He & _). rewrite He.
      split; [rewrite length_setitem, length_app; lia|].
      apply setitem_keys. intros d. rewrite lookup_app_l by done. apply Hl. }
  destruct Hstep as [Hlen1 Hl1]. by apply IHrest.
Qed.

Lemma dump_items_keys fuel h d js :
  dump_items fuel h d = Some js -> js.*1 = d.*1.
Proof.
  revert js. induction d as [|[k x] rest IH]; intros js.
  - by intros [= <-].
  - cbn [dump_items]. destruct (dump fuel h x) as [j|]; [|done].
    destruct (dump_items fuel h rest) as [js0|]; [|done].
    intros [= <-]. rewrite !fmap_cons. cbn [fst]. f_equal. by apply IH.
Qed.

Lemma initial_top_keys d :
  initial_heap !! DEFAULT_SETTINGS = Some d -> NoDup d.*1.
Proof.
  intros [= <-]. apply (bool_decide_unpack _). vm_compute. exact I.
Qed.

(** The settings a load returns, for a file that is absent, that is not a
    document, or whose document leaves the section [sec] a mapping: the
    section is still the dictionary that [DEFAULT_SETTINGS] holds. *)
Lemma load_settings_shape st sec ls :
  sound (store st) ->
  (forall l d, l < DEFAULT_SETTINGS -> store st !! l = Some d -> NoDup d.*1) ->
  config_denied st = false ->
  (forall items, config_file st = Some (Document (JDict items)) ->
     NoDup items.*1
     /\ (assoc sec items = None
         \/ exists sub, assoc sec items = Some (JDict sub))) ->
  getitem initial_heap DEFAULT_SETTINGS sec = Some (VRef ls) ->
  let settings := (load_settings st).1 in
  let h1 := store (load_settings st).2 in
  sound h1
  /\ config_denied (load_settings st).2 = false
  /\ settings < length h1 /\ settings <> ls /\ ls < DEFAULT_SETTINGS
  /\ getitem h1 settings sec = Some (VRef ls)
  /\ getitem h1 DEFAULT_SETTINGS sec = Some (VRef ls)
  /\ (forall d, h1 !! settings = Some d -> NoDup d.*1)
  /\ (forall d, h1 !! ls = Some d -> NoDup d.*1).
Proof.
  intros Hs Hkeys Hden Hfile Hsec. cbv zeta.
  destruct (default_sections sec _ Hsec) as (ls' & [= <-] & Hls & _).
  pose proof Hs as (Htop & Hrefs & _).
  assert (Hsec0 : getitem (store st) DEFAULT_SETTINGS sec = Some (VRef ls)).
  { rewrite <- Hsec. by apply getitem_ext. }
  destruct (getitem_refers _ _ _ _ Hsec0) as (top & Hd & _).
  assert (Hlen : DEFAULT_SETTINGS < length (store st))
    by (by eapply lookup_lt_Some).
  assert (Htopk : NoDup top.*1).
  { apply initial_top_keys. by rewrite <- Htop. }
  (* one more copy of [DEFAULT_SETTINGS] at the end of a sound store *)
  assert (Hcopy : forall h,
    sound h -> h !! DEFAULT_SETTINGS = Some top ->
    (forall d, h !! ls = Some d -> NoDup d.*1) ->
    sound (h ++ [top])
    /\ length h < length (h ++ [top]) /\ length h <> ls
    /\ getitem (h ++ [top]) (length h) sec = Some (VRef ls)
    /\ getitem (h ++ [top]) DEFAULT_SETTINGS sec = Some (VRef ls)
    /\ (forall d, (h ++ [top]) !! length h = Some d -> NoDup d.*1)
    /\ (forall d, (h ++ [top]) !! ls = Some d -> NoDup d.*1)
    /\ (h ++ [top]) !! DEFAULT_SETTINGS = Some top).
  { intros h Hsh Hdh Hlsh.
    assert (Hlenh : DEFAULT_SETTINGS < length h) by (by eapply lookup_lt_Some).
    pose proof (sound_copy h Hsh) as Hsc.
    unfold dict_copy, alloc in Hsc. rewrite Hdh in Hsc. cbn [default snd] in Hsc.
    assert (Hnew : (h ++ [top]) !! length h = Some top).
    { rewrite lookup_app_r by done. by rewrite Nat.sub_diag. }
    assert (Hget : getitem h DEFAULT_SETTINGS sec = Some (VRef ls)).
    { unfold getitem in *. rewrite Hdh. by rewrite Hd in Hsec0. }
    split; [done|]. split; [rewrite length_app; simpl; lia|].
    split; [unfold DEFAULT_SETTINGS in *; lia|].
    split; [unfold getitem in *; rewrite Hnew; by rewrite Hdh in Hget|].
    split; [by rewrite (getitem_ext h) by (by apply lookup_app_l)|].
    split; [rewrite Hnew; by intros d [= <-]|].
    split; [|by rewrite lookup_app_l].
    intros d. rewrite lookup_app_l by (unfold DEFAULT_SETTINGS in *; lia).
    apply Hlsh. }
  assert (Hlsk : forall d, store st !! ls = Some d -> NoDup d.*1).
  { intros d. by apply Hkeys. }
  destruct (Hcopy (store st) Hs Hd Hlsk)
    as (Hs1 & Hl1 & Hne1 & Hg1 & Hg15 & Hk1 & Hkl1 & Hd1).
  unfold load_settings, dict_copy, alloc. rewrite Hden, Hd. cbn [default].
  destruct (config_file st) as [[j|]|] eqn:Hf.
  - destruct (is_dict j) eqn:Hj.
    + destruct j as [| | | | | |items]; try discriminate.
      cbn [fst snd with_store store config_denied].
      destruct (Hfile items eq_refl) as [Hnd Hassoc].
      destruct (copy_setup (store st) sec ls Hs Hsec0)
        as (_ & _ & Hb & Hc & HM & HPls & HP5 & HlsM & H5M & Hls5 & HgetM
            & HoutM & Houtls & Hold).
      unfold dict_copy, alloc in Hb, Hc, HM, HPls, HP5, HgetM, HoutM, Houtls.
      rewrite Hd in Hb, Hc, HM, HPls, HP5, HgetM, HoutM, Houtls.
      cbn [default snd] in Hb, Hc, HM, HPls, HP5, HgetM, HoutM, Houtls.
      set (h0 := store st ++ [top]) in *.
      set (P := fun x => x = ls \/ is_top h0 x) in *.
      destruct (top_merge P (length (store st)) sec ls items h0
                  Hb Hc HM HPls HlsM Hnd HgetM HoutM Houtls) as [Hnone Hsome].
      set (h1 := update_nested_dict (length (store st)) (JDict items) h0) in *.
      assert (Hfacts : h1 !! DEFAULT_SETTINGS = h0 !! DEFAULT_SETTINGS
                       /\ getitem h1 (length (store st)) sec = Some (VRef ls)).
      { destruct Hassoc as [Ha|[sub Ha]].
        - destruct (Hnone Ha) as [Hfr Hg]. split; [|done].
          apply Hfr; [done | congruence].
        - destruct (Hsome sub Ha) as (Hfr & Hg & _). split; [|done].
          apply Hfr; [done | congruence | congruence]. }
      destruct Hfacts as [H5 HgM].
      destruct (update_nested_dict_keys (length (store st)) (JDict items)
                  (length (store st)) h0 Hl1 Hk1) as [HlenM HkM].
      destruct (update_nested_dict_keys ls (JDict items)
                  (length (store st)) h0) as [Hlenls Hkls];
        [subst h0; rewrite length_app; unfold DEFAULT_SETTINGS in *; lia
        | done |].
      split.
      { apply (sound_extends h0); [done | apply extends_update_nested_dict
                                  | done]. }
      split; [done|]. split; [done|]. split; [done|]. split; [done|].
      split; [done|]. split; [|by split].
      rewrite (getitem_ext h0) by done. exact Hg15.
    + cbn [fst snd with_store store config_denied].
      rewrite lookup_app_l, Hd by done. cbn [default fst snd].
      destruct (Hcopy (store st ++ [top]) Hs1 Hd1 Hkl1)
        as (Hs2 & Hl2 & Hne2 & Hg2 & Hg25 & Hk2 & Hkl2 & _).
      cbn [with_store store config_denied].
      repeat (split; [done|]). done.
  - cbn [fst snd with_store store config_denied].
    repeat (split; [done|]). done.
  - unfold save_settings. rewrite Hden.
    destruct (dump _ _ _);
      cbn [fst snd with_store with_file store config_denied];
      rewrite Hd; cbn [default fst snd with_store store config_denied];
      repeat (split; [done|]); done.
Qed.

(** What [set_setting] leaves behind when it reports success, for a path
    [sec.key] into a section of the defaults and a value that is not a
    mapping. *)
Lemma set_setting_sets st sec key v ls :
  sound (store st) ->
  (forall l d, l < DEFAULT_SETTINGS -> store st !! l = Some d -> NoDup d.*1) ->
  config_denied st = false ->
  (forall items, config_file st = Some (Document (JDict items)) ->
     NoDup items.*1
     /\ (assoc sec items = None
         \/ exists sub, assoc sec items = Some (JDict sub))) ->
  getitem initial_heap DEFAULT_SETTINGS sec = Some (VRef ls) ->
  dot ∉ sec -> dot ∉ key -> is_dict v = false ->
  fst (set_setting (sec ++ dot :: key) v st) = Ok true ->
  let st2 := snd (set_setting (sec ++ dot :: key) v st) in
  sound (store st2)
  /\ config_denied st2 = false
  /\ getitem (store st2) DEFAULT_SETTINGS sec = Some (VRef ls)
  /\ getitem (store st2) ls key = Some (scalar_of v)
  /\ exists items' sub',
       config_file st2 = Some (Document (JDict items'))
       /\ NoDup items'.*1
       /\ assoc sec items' = Some (JDict sub')
       /\ NoDup sub'.*1
       /\ assoc key sub' = Some v.
Proof.
  intros Hs Hkeys Hden Hfile Hsec Hdsec Hdkey Hv.
  pose proof (load_settings_shape st sec ls Hs Hkeys Hden Hfile Hsec) as Hshape.
  cbv zeta in Hshape. cbv zeta. unfold set_setting.
  destruct (load_settings st) as [settings st1]. cbn [fst snd] in Hshape.
  destruct Hshape as (Hs1 & Hden1 & Hlen & Hne & Hls5 & Hget & Hget5 & Hkt & Hkl).
  rewrite (split_on_sep dot sec key Hdsec), (split_on_plain dot key Hdkey).
  cbn [removelast List.last descend contains subscript mbind result_bind].
  rewrite Hget. rewrite bool_decide_eq_true_2 by (by eexists).
  cbn [mbind result_bind]. rewrite Hget. cbn [mbind result_bind descend].
  rewrite (to_value_scalar v _ Hv). cbn [assign].
  set (h1 := store st1) in *.
  set (h3 := setitem ls key (scalar_of v) h1).
  assert (Hlsl : ls < length h1).
  { apply getitem_refers in Hget5 as (d & Hd & Hr).
    destruct Hs1 as (_ & Hrefs & _). by destruct (Hrefs _ _ _ Hd Hr). }
  assert (Hs3 : sound h3).
  { apply (sound_extends h1); [done| |].
    - pose proof (extends_store h1 ls key v) as He.
      by rewrite (to_value_scalar v _ Hv) in He.
    - apply lookup_setitem_ne. unfold DEFAULT_SETTINGS in *. lia. }
  assert (Hg3 : getitem h3 ls key = Some (scalar_of v))
    by (by apply getitem_setitem_eq).
  assert (Hsame : forall x, x <> ls -> h3 !! x = h1 !! x).
  { intros x Hx. by apply lookup_setitem_ne. }
  unfold save_settings. cbn [with_store config_denied store]. rewrite Hden1.
  destruct (dump (S (length h3)) h3 (VRef settings)) as [j'|] eqn:Hdump;
    cbn [fst snd]; [|done].
  intros _. cbn [with_file store config_denied config_file].
  split; [done|]. split; [done|].
  split; [by rewrite (getitem_ext h1) by (apply Hsame; unfold DEFAULT_SETTINGS in *; lia)|].
  split; [done|].
  (* the document written *)
  rewrite dump_ref in Hdump.
  destruct (h3 !! settings) as [top3|] eqn:Htop3; [|done].
  destruct (dump_items (length h3) h3 top3) as [items'|] eqn:Hitems;
    cbn [mbind option_bind] in Hdump; [|done].
  injection Hdump as <-.
  assert (Hsec3 : dict_get sec top3 = Some (VRef ls)).
  { rewrite Hsame in Htop3 by done. unfold getitem in Hget.
    by rewrite Htop3 in Hget. }
  destruct (dump_items_lookup _ _ _ _ _ _ Hitems Hsec3) as (j & Hj & Hdj).
  assert (Hf : exists f, length h3 = S f).
  { exists (length h3 - 1). unfold h3. rewrite length_setitem. lia. }
  destruct Hf as [f Hf]. rewrite Hf in Hdj. rewrite dump_ref in Hdj.
  destruct (h3 !! ls) as [dls|] eqn:Hdls; [|done].
  destruct (dump_items f h3 dls) as [sub'|] eqn:Hsub;
    cbn [mbind option_bind] in Hdj; [|done].
  injection Hdj as <-.
  assert (Hkey3 : dict_get key dls = Some (scalar_of v)).
  { unfold getitem in Hg3. by rewrite Hdls in Hg3. }
  destruct (dump_items_lookup _ _ _ _ _ _ Hsub Hkey3) as (j2 & Hj2 & Hdj2).
  destruct f as [|f']; [done|]. rewrite dump_scalar in Hdj2 by done.
  injection Hdj2 as <-.
  exists items', sub'. split; [done|]. split; [|split; [done|split; [|done]]].
  - rewrite (dump_items_keys _ _ _ _ Hitems). apply Hkt.
    by rewrite <- Hsame.
  - rewrite (dump_items_keys _ _ _ _ Hsub).
    apply (setitem_keys h1 ls key (scalar_of v) ls Hkl). exact Hdls.
Qed.

Lemma initial_keys l d :
  l < DEFAULT_SETTINGS -> initial_heap !! l = Some d -> NoDup d.*1.
Proof.
  intros Hl Hd. unfold DEFAULT_SETTINGS in Hl.
  destruct l as [|[|[|[|[|l]]]]]; [| | | | |lia];
    injection Hd as <-; apply (bool_decide_unpack _); vm_compute; exact I.
Qed.

(** X19: a value set is the value read back.  [path] is [sec.key], [sec]
    a section of the defaults, neither part holding a dot, and the value
    is not a mapping; the settings file can be opened and, when it holds a
    mapping, does not replace the section by something that is not one.
    When [set_setting] returns [True], the file holds a document with the
    value at that path, and [get_setting] on the same path then returns
    the value, not the fallback. *)
Theorem set_setting_then_get_setting st sec key v ls default_ :
  sound (store st) ->
  (forall l d, l < DEFAULT_SETTINGS -> store st !! l = Some d -> NoDup d.*1) ->
  config_denied st = false ->
  (forall items, config_file st = Some (Document (JDict items)) ->
     NoDup items.*1
     /\ (assoc sec items = None
         \/ exists sub, assoc sec items = Some (JDict sub))) ->
  getitem initial_heap DEFAULT_SETTINGS sec = Some (VRef ls) ->
  dot ∉ sec -> dot ∉ key -> is_dict v = false ->
  fst (set_setting (sec ++ dot :: key) v st) = Ok true ->
  let st2 := snd (set_setting (sec ++ dot :: key) v st) in
  (exists doc,
     config_file st2 = Some (Document doc)
     /\ doc_path doc [sec; key] = Some v)
  /\ fst (get_setting (sec ++ dot :: key) default_ st2) = Ok (scalar_of v).
Proof.
  intros Hs Hkeys Hden Hfile Hsec Hdsec Hdkey Hv Hok.
  destruct (set_setting_sets st sec key v ls Hs Hkeys Hden Hfile Hsec
              Hdsec Hdkey Hv Hok)
    as (Hs2 & Hden2 & _ & _ & items' & sub' & Hf & Hnd & Ha & Hnds & Hk).
  cbv zeta. set (st2 := snd (set_setting (sec ++ dot :: key) v st)) in *.
  split.
  - exists (JDict items'). split; [done|]. cbn [doc_path]. by rewrite Ha, Hk.
  - destruct (load_settings_overrides st2 items' sec sub' key v Hs2 Hf Hden2
                Hnd (ltac:(by eexists)) Ha Hnds Hk Hv) as (_ & Hpath & _).
    unfold get_setting. destruct (load_settings st2) as [settings st3].
    cbn [fst snd] in *.
    rewrite (split_on_sep dot sec key Hdsec), (split_on_plain dot key Hdkey).
    by apply navigate_found.
Qed.

Lemma set_setting_then_get_setting_witness :
  fst (get_setting (lit "speech_recognition.language") VNone
         (snd (set_setting (lit "speech_recognition.language")
                 (JStr (lit "en-US")) (fresh None false))))
  = Ok (VStr (lit "en-US")).
Proof.
  refine (proj2 (set_setting_then_get_setting (fresh None false)
                   (lit "speech_recognition") (lit "language")
                   (JStr (lit "en-US")) 2 VNone
                   sound_initial initial_keys eq_refl _ _ _ _ eq_refl _)).
  - intros items [=].
  - vm_compute; reflexivity.
  - apply (bool_decide_unpack _). vm_compute. exact I.
  - apply (bool_decide_unpack _). vm_compute. exact I.
  - vm_compute; reflexivity.
Defined.

(** In a store free of cycles, [set_setting] on a path [sec.key] into a
    section of the defaults returns [True] when the file can be opened. *)
Lemma set_setting_succeeds st sec key v ls :
  sound (store st) -> acyclic (store st) ->
  (forall l d, l < DEFAULT_SETTINGS -> store st !! l = Some d -> NoDup d.*1) ->
  config_denied st = false ->
  (forall items, config_file st = Some (Document (JDict items)) ->
     NoDup items.*1
     /\ (assoc sec items = None
         \/ exists sub, assoc sec items = Some (JDict sub))) ->
  getitem initial_heap DEFAULT_SETTINGS sec = Some (VRef ls) ->
  dot ∉ sec -> dot ∉ key -> is_dict v = false ->
  fst (set_setting (sec ++ dot :: key) v st) = Ok true
  /\ acyclic (store (snd (set_setting (sec ++ dot :: key) v st))).
Proof.
  intros Hs Ha Hkeys Hden Hfile Hsec Hdsec Hdkey Hv.
  pose proof (load_settings_shape st sec ls Hs Hkeys Hden Hfile Hsec) as Hshape.
  pose proof (acyclic_load_settings st Ha) as Ha1.
  cbv zeta in Hshape. unfold set_setting.
  destruct (load_settings st) as [settings st1]. cbn [fst snd] in Hshape, Ha1.
  destruct Hshape as (Hs1 & Hden1 & Hlen & Hne & Hls5 & Hget & Hget5 & _).
  rewrite (split_on_sep dot sec key Hdsec), (split_on_plain dot key Hdkey).
  cbn [removelast List.last descend contains subscript mbind result_bind].
  rewrite Hget. rewrite bool_decide_eq_true_2 by (by eexists).
  cbn [mbind result_bind]. rewrite Hget. cbn [mbind result_bind descend].
  rewrite (to_value_scalar v _ Hv). cbn [assign].
  assert (Hlsl : ls < length (store st1)).
  { apply getitem_refers in Hget5 as (d & Hd & Hr).
    destruct Hs1 as (_ & Hrefs & _). by destruct (Hrefs _ _ _ Hd Hr). }
  assert (Ha3 : acyclic (setitem ls key (scalar_of v) (store st1))).
  { pose proof (acyclic_store (store st1) ls key v Ha1 Hlsl) as Hst.
    by rewrite (to_value_scalar v _ Hv) in Hst. }
  destruct (save_settings_succeeds settings
              (with_store st1 (setitem ls key (scalar_of v) (store st1))))
    as (doc & _ & ->); [done | done | |].
  { cbn [store with_store]. by rewrite length_setitem. }
  done.
Qed.

(** X20: [set_setting] changes the defaults of the process.  Under the
    conditions of the round trip, in a store free of cycles,
    [set_setting] returns [True] and leaves the value in the section
    dictionary of [DEFAULT_SETTINGS] itself, which the shallow copy
    shares.  A [reset_settings] called later on this store, whatever the
    settings file holds by then, returns [True] when the file can be
    opened and writes a document with that value at the path, not the
    value of the module text. *)
Theorem set_setting_changes_defaults st sec key v ls :
  sound (store st) -> acyclic (store st) ->
  (forall l d, l < DEFAULT_SETTINGS -> store st !! l = Some d -> NoDup d.*1) ->
  config_denied st = false ->
  (forall items, config_file st = Some (Document (JDict items)) ->
     NoDup items.*1
     /\ (assoc sec items = None
         \/ exists sub, assoc sec items = Some (JDict sub))) ->
  getitem initial_heap DEFAULT_SETTINGS sec = Some (VRef ls) ->
  dot ∉ sec -> dot ∉ key -> is_dict v = false ->
  let st2 := snd (set_setting (sec ++ dot :: key) v st) in
  fst (set_setting (sec ++ dot :: key) v st) = Ok true
  /\ getitem (store st2) DEFAULT_SETTINGS sec = Some (VRef ls)
  /\ getitem (store st2) ls key = Some (scalar_of v)
  /\ (forall st3,
        store st3 = store st2 -> config_denied st3 = false ->
        fst (reset_settings st3) = true
        /\ exists doc,
             config_file (snd (reset_settings st3)) = Some (Document doc)
             /\ doc_path doc [sec; key] = Some v).
Proof.
  intros Hs Ha Hkeys Hden Hfile Hsec Hdsec Hdkey Hv.
  destruct (set_setting_succeeds st sec key v ls Hs Ha Hkeys Hden Hfile Hsec
              Hdsec Hdkey Hv) as [Hok Ha2].
  destruct (set_setting_sets st sec key v ls Hs Hkeys Hden Hfile Hsec
              Hdsec Hdkey Hv Hok)
    as (_ & _ & Hg5 & Hgls & _).
  cbv zeta. set (st2 := snd (set_setting (sec ++ dot :: key) v st)) in *.
  split; [done|]. split; [done|]. split; [done|].
  intros st3 Hstore Hden3.
  apply (reset_settings_writes_value st3 sec key ls (scalar_of v) v);
    rewrite ?Hstore; try done.
  by apply dump_scalar.
Qed.

Lemma set_setting_changes_defaults_witness :
  let st2 := snd (set_setting (lit "speech_recognition.language")
                    (JStr (lit "en-US")) (fresh None false)) in
  getitem (store st2) 2 (lit "language") = Some (VStr (lit "en-US"))
  /\ fst (reset_settings (with_file st2 Garbage)) = true
  /\ exists doc,
       config_file (snd (reset_settings (with_file st2 Garbage)))
       = Some (Document doc)
       /\ doc_path doc [lit "speech_recognition"; lit "language"]
          = Some (JStr (lit "en-US")).
Proof.
  cbv zeta.
  destruct (set_setting_changes_defaults (fresh None false)
              (lit "speech_recognition") (lit "language")
              (JStr (lit "en-US")) 2)
    as (_ & _ & Hkey & Hreset).
  - exact sound_initial.
  - exact acyclic_initial.
  - exact initial_keys.
  - reflexivity.
  - intros items [=].
  - vm_compute; reflexivity.
  - apply (bool_decide_unpack _). vm_compute. exact I.
  - apply (bool_decide_unpack _). vm_compute. exact I.
  - reflexivity.
  - split; [exact Hkey|].
    exact (Hreset
             (with_file
                (snd (set_setting (lit "speech_recognition.language")
                        (JStr (lit "en-US")) (fresh None false)))
                Garbage) eq_refl eq_refl).
Defined.

End ConfigRoundTrip.

(** ** The settings: a path that goes on below a value *)

Module ConfigPathErrors.
Import Config ConfigFacts.

Lemma navigate_prefix h v prefix more default_ x :
  lookup_path h v prefix = Some x ->
  navigate h v (prefix ++ more) default_ = navigate h x more default_.
Proof.
  revert v. induction prefix as [|p prefix IH]; intros v.
  - by intros [= ->].
  - cbn [lookup_path app navigate]. destruct v as [| | | | | |l]; try done.
    destruct (getitem h l p) as [next|] eqn:Hget; [|done].
    intros Hrest. cbn [contains subscript mbind result_bind].
    rewrite Hget. rewrite bool_decide_eq_true_2 by (by eexists).
    cbn [mbind result_bind]. by apply IH.
Qed.

Lemma descend_found h v parts x :
  lookup_path h v parts = Some x -> descend v parts h = Ok (x, h).
Proof.
  revert v. induction parts as [|p parts IH]; intros v.
  - by intros [= ->].
  - cbn [lookup_path descend]. destruct v as [| | | | | |l]; try done.
    destruct (getitem h l p) as [next|] eqn:Hget; [|done].
    intros Hrest. cbn [contains subscript mbind result_bind].
    rewrite Hget. rewrite bool_decide_eq_true_2 by (by eexists).
    cbn [mbind result_bind]. rewrite Hget. cbn [mbind result_bind].
    by apply IH.
Qed.

Lemma descend_below_value h v prefix part more x :
  lookup_path h v prefix = Some x -> (forall l, x <> VRef l) ->
  descend v (prefix ++ part :: more) h = Raise TypeError.
Proof.
  revert v. induction prefix as [|p prefix IH]; intros v.
  - intros [= ->] Hx. cbn [app descend].
    destruct x as [| | | |s|items|l]; try done.
    + cbn [contains mbind result_bind]. by destruct (is_substring part s).
    + cbn [contains mbind result_bind].
      by destruct (bool_decide (JStr part ∈ items)).
    + by destruct (Hx l).
  - cbn [lookup_path app descend]. destruct v as [| | | | | |l]; try done.
    destruct (getitem h l p) as [next|] eqn:Hget; [|done].
    intros Hrest Hx. cbn [contains subscript mbind result_bind].
    rewrite Hget. rewrite bool_decide_eq_true_2 by (by eexists).
    cbn [mbind result_bind]. rewrite Hget. cbn [mbind result_bind].
    by apply IH.
Qed.

(** X21: [get_setting] on a path that goes on below a value that is not a
    mapping.  The fallback is returned only when the value is a string
    that does not contain the next part, or a list that does not hold it;
    in every other case the call raises [TypeError]: [part in current] is
    refused by a number, a truth value or [None], and a string or a list
    that holds the part cannot be indexed by it. *)
Theorem get_setting_below_value path default_ st prefix part rest x :
  let loaded := load_settings st in
  split_on dot path = prefix ++ part :: rest ->
  lookup_path (store (snd loaded)) (VRef (fst loaded)) prefix = Some x ->
  (forall l, x <> VRef l) ->
  fst (get_setting path default_ st)
  = match x with
    | VStr s => if is_substring part s then Raise TypeError else Ok default_
    | VList items =>
        if bool_decide (JStr part ∈ items) then Raise TypeError
        else Ok default_
    | _ => Raise TypeError
    end.
Proof.
  cbv zeta. unfold get_setting. destruct (load_settings st) as [settings st1].
  cbn [fst snd]. intros -> Hx Hval.
  rewrite (navigate_prefix _ _ _ _ _ _ Hx). cbn [navigate].
  destruct x as [| | | | | |l]; try done. by destruct (Hval l).
Qed.

Lemma get_setting_below_value_witness :
  fst (get_setting (lit "general.theme.x") (VStr (lit "X")) (fresh None false))
  = Ok (VStr (lit "X")).
Proof.
  refine (get_setting_below_value (lit "general.theme.x") (VStr (lit "X"))
            (fresh None false) [lit "general"; lit "theme"] (lit "x") []
            (VStr (lit "system")) _ _ _).
  - vm_compute; reflexivity.
  - vm_compute; reflexivity.
  - intros l [=].
Defined.

(** X22: [set_setting] on a path that goes on below a value that is not a
    mapping raises [TypeError], whatever the value is and whether or not
    it holds the next part: a string or a list can be asked for the part
    but neither indexed by it nor assigned at it.  The settings file is
    left as the load left it. *)
Theorem set_setting_below_value path value_ st prefix part rest x :
  let loaded := load_settings st in
  split_on dot path = prefix ++ part :: rest ->
  lookup_path (store (snd loaded)) (VRef (fst loaded)) prefix = Some x ->
  (forall l, x <> VRef l) ->
  fst (set_setting path value_ st) = Raise TypeError
  /\ config_file (snd (set_setting path value_ st))
     = config_file (snd loaded).
Proof.
  cbv zeta. unfold set_setting. destruct (load_settings st) as [settings st1].
  cbn [fst snd]. intros -> Hx Hval.
  destruct rest as [|r rest].
  - rewrite removelast_last, last_last.
    rewrite (descend_found _ _ _ _ Hx).
    destruct (to_value value_ (store st1)) as [v h2].
    destruct x as [| | | | | |l]; try done. by destruct (Hval l).
  - rewrite removelast_app by done.
    change (removelast (part :: r :: rest))
      with (part :: removelast (r :: rest)).
    by rewrite (descend_below_value _ _ _ _ _ _ Hx Hval).
Qed.

Lemma set_setting_below_value_witness :
  fst (set_setting (lit "general.max_history_items.x") (JInt 1)
         (fresh None false))
  = Raise TypeError.
Proof.
  refine (proj1 (set_setting_below_value (lit "general.max_history_items.x")
                   (JInt 1) (fresh None false)
                   [lit "general"; lit "max_history_items"] (lit "x") []
                   (VInt 100) _ _ _)).
  - vm_compute; reflexivity.
  - vm_compute; reflexivity.
  - intros l [=].
Defined.

End ConfigPathErrors.
